(** * Recurrent Memory Transformer wrapper: segmentation and memory recurrence

    A shallow embedding of [src/modeling_rmt.py]
    (class [RMTEncoderForSequenceClassification]) and the properties of its
    segmenter ([pad_and_segment]) and of its recurrent loop ([__call__]).

    Conventions.
    - Python integers are [Z]; lengths of tensors are [nat] and are injected
      into [Z] where the source does arithmetic on them.
    - A 1-D integer tensor is a [list Z]; a 2-D tensor is the record
      [Tensor2] (its rows and its second dimension, which exists even for an
      empty batch).
    - Python exceptions are the constructors of [PyError]; a computation that
      may raise has type [result A].
    - The wrapped transformer ([self.model], [self.net]) is external: it is
      the record [Model], a parameter of every definition of the loop.
    - Keyword arguments ([**kwargs]) are a finite map from names to tensors. *)

From stdpp Require Import base numbers list strings gmap.
From Stdlib Require QArith.

Local Open Scope Z_scope.

(** ** Exceptions *)

(** The exception classes that the source can raise. [EmptyCatError] is
    what [torch.cat] raises on an empty list of tensors: a [RuntimeError]
    in older releases of torch and a [ValueError] in newer ones, so its
    class is left open. *)
Inductive PyError :=
  | ZeroDivisionError
  | ValueError
  | RuntimeError
  | EmptyCatError
  | IndexError
  | KeyError
  | TypeError
  | UnboundLocalError.

Inductive result (A : Type) :=
  | Ok (a : A)
  | Raise (e : PyError).
Arguments Ok {A} a.
Arguments Raise {A} e.

#[global] Instance result_ret : MRet result := fun _ a => Ok a.
#[global] Instance result_bind : MBind result := fun _ _ f m =>
  match m with Ok a => f a | Raise e => Raise e end.

(** [[f(x) for x in l]] where [f] may raise: the first exception wins. *)
Fixpoint for_each {A B} (f : A -> result B) (l : list A) : result (list B) :=
  match l with
  | [] => Ok []
  | x :: l' => y ← f x; ys ← for_each f l'; Ok (y :: ys)
  end.

(** ** Python and PyTorch primitives used by the source *)

Module Py.

(** [math.ceil(a / b)]: true division raises on a zero divisor; the float
    quotient of two integers below 2^53 rounds up to the integer ceiling. *)
Definition ceil_div (a b : Z) : result Z :=
  if decide (b = 0) then Raise ZeroDivisionError else Ok (- ((- a) / b)).

(** Length of [range(start, stop, step)], for [step <> 0], as CPython
    computes it. *)
Definition range_len (start stop step : Z) : Z :=
  let '(lo, hi, st) :=
    if 0 <? step then (start, stop, step) else (stop, start, - step) in
  if hi <=? lo then 0 else (hi - lo - 1) / st + 1.

(** [list(range(start, stop, step))]. *)
Definition range (start stop step : Z) : result (list Z) :=
  if decide (step = 0) then Raise ValueError
  else Ok ((fun i : nat => start + Z.of_nat i * step)
             <$> seq 0 (Z.to_nat (range_len start stop step))).

(** A slice bound, normalised as Python does for a step of 1: a negative
    bound counts from the end, and every bound is clipped to [0, len]. *)
Definition clip (len i : Z) : Z :=
  if i <? 0 then Z.max 0 (i + len) else Z.min i len.

(** [l[start:stop]]; [None] is an omitted bound. *)
Definition slice {A} (start stop : option Z) (l : list A) : list A :=
  let len := Z.of_nat (length l) in
  let s := match start with Some i => clip len i | None => 0 end in
  let e := match stop with Some i => clip len i | None => len end in
  take (Z.to_nat (e - s)) (drop (Z.to_nat s) l).

End Py.

(** A 2-D integer tensor: [input_ids.shape[1]] is [t_cols], and iterating
    over the tensor yields [t_rows]. *)
Record Tensor2 := { t_rows : list (list Z); t_cols : nat }.

Definition wf_tensor (t : Tensor2) : Prop :=
  Forall (fun r => length r = t_cols t) (t_rows t).

Module Torch.

(** [torch.cat(ts)] of 1-D tensors: an empty list of tensors is refused,
    with an exception whose class depends on the release of torch. *)
Definition cat (ts : list (list Z)) : result (list Z) :=
  match ts with
  | [] => Raise EmptyCatError
  | _ => Ok (concat ts)
  end.

(** [torch.stack(ts)] of 1-D tensors: the list must be non-empty and its
    tensors of one size. *)
Definition stack (ts : list (list Z)) : result Tensor2 :=
  match ts with
  | [] => Raise RuntimeError
  | t0 :: _ =>
      if forallb (fun t => Nat.eqb (length t) (length t0)) ts
      then Ok {| t_rows := ts; t_cols := length t0 |}
      else Raise RuntimeError
  end.

(** [F.pad(t, (0, pad_size))]: constant mode, fill value 0. *)
Definition pad_right (t : list Z) (pad_size : Z) : list Z :=
  t ++ replicate (Z.to_nat pad_size) 0.

(** [torch.chunk(t, chunks, dim=1)]: pieces of [ceil(cols / chunks)]
    columns, the last one possibly narrower; hence possibly fewer than
    [chunks] pieces. A tensor without columns gives [chunks] empty pieces. *)
Definition chunk (t : Tensor2) (chunks : Z) : result (list (list (list Z))) :=
  if chunks <=? 0 then Raise RuntimeError
  else
    let dim_size := Z.of_nat (t_cols t) in
    let split_size := (dim_size + chunks - 1) / chunks in
    if (split_size =? 0) && (dim_size =? 0)
    then Ok (replicate (Z.to_nat chunks) ((fun _ => []) <$> t_rows t))
    else
      let num_splits := Z.max ((dim_size + split_size - 1) / split_size) 1 in
      Ok ((fun j : nat =>
             Py.slice (Some (Z.of_nat j * split_size))
                      (Some ((Z.of_nat j + 1) * split_size)) <$> t_rows t)
            <$> seq 0 (Z.to_nat num_splits)).

End Torch.

(** ** The wrapper's configuration ([set_params], [extend_word_embeddings])

    The attributes that [set_params] stores on [self]. [vocab_size] is the
    size of the embedding table before it is extended; [num_mem_tokens] is a
    [nat] because [torch.arange(vocab_size, vocab_size + num_mem_tokens)]
    refuses a negative count. *)
Record RMT := {
  drop_empty_segments : bool;
  sum_loss : bool;
  input_size : Z;
  input_seg_size : option Z;
  num_mem_tokens : nat;
  bptt_depth : Z;
  pad_token_id : Z;
  cls_token : Z;
  sep_token : Z;
  vocab_size : Z
}.

(** [self.mem_token_ids = torch.arange(vocab_size, vocab_size + num_mem_tokens)] *)
Definition mem_token_ids (self : RMT) : list Z :=
  (fun i : nat => vocab_size self + Z.of_nat i) <$> seq 0 (num_mem_tokens self).

(** ** The segmenter *)

(** The local [input_seg_size] of [pad_and_segment] (lines 116-118): the
    content capacity of a segment. *)
Definition seg_capacity (self : RMT) : Z :=
  let cap := input_size self - Z.of_nat (num_mem_tokens self) - 3 in
  match input_seg_size self with
  | Some s => if s <? cap then s else cap
  | None => cap
  end.

(** The nested function [pad_add_special_tokens(tensor, seg_size)]. *)
Definition pad_add_special_tokens (self : RMT) (tensor : list Z) (seg_size : Z)
  : list Z :=
  let tensor :=
    [cls_token self] ++ mem_token_ids self ++ [sep_token self]
      ++ tensor ++ [sep_token self] in
  let pad_size := seg_size - Z.of_nat (length tensor) in
  if 0 <? pad_size then Torch.pad_right tensor pad_size else tensor.

(** [self.empty]: the canonical empty segment (line 142). *)
Definition empty (self : RMT) : list Z :=
  pad_add_special_tokens self [] (input_size self).

(** Line 124: [input[input != self.pad_token_id][1:-1]]. *)
Definition strip (self : RMT) (input : list Z) : list Z :=
  Py.slice (Some 1) (Some (-1)) (filter (fun x => x ≠ pad_token_id self) input).

(** Lines 126-127: the content chunks of one stripped row. *)
Definition content_chunks (k : Z) (input : list Z) : result (list (list Z)) :=
  r ← Py.range (Z.of_nat (length input)) 0 (- k);
  let seg_sep_inds := 0 :: reverse r in
  Ok ((fun se : Z * Z => Py.slice (Some se.1) (Some se.2) input)
        <$> zip seg_sep_inds (tail seg_sep_inds)).

(** Lines 140-144: the segments of one row, before they are concatenated:
    the wrapped chunks, preceded by as many copies of [self.empty] as are
    missing to reach [n_segments]. *)
Definition row_segments (self : RMT) (n_segments : Z) (input : list Z)
  : result (list (list Z)) :=
  let input := strip self input in
  input_segments ← content_chunks (seg_capacity self) input;
  let input_segments :=
    (fun t => pad_add_special_tokens self t (input_size self)) <$> input_segments in
  let empty_segments :=
    replicate (Z.to_nat (n_segments - Z.of_nat (length input_segments))) (empty self) in
  Ok (empty_segments ++ input_segments).

(** The body of the loop over the rows (lines 123-147). *)
Definition augment_row (self : RMT) (n_segments : Z) (input : list Z)
  : result (list Z) :=
  input_segments ← row_segments self n_segments input;
  Torch.cat input_segments.

(** Line 120. *)
Definition n_segments_of (self : RMT) (input_ids : Tensor2) : result Z :=
  Py.ceil_div (Z.of_nat (t_cols input_ids)) (seg_capacity self).

(** What [pad_and_segment] returns: a 3-tuple of tuples of 2-D tensors. *)
Record Segmented := {
  input_segments : list (list (list Z));
  attention_mask : list (list (list Z));
  token_type_ids : list (list (list Z))
}.

(** [len(segmented)] for the 3-tuple that [pad_and_segment] returns. *)
Definition len_segmented (s : Segmented) : Z := 3.

(** The segments in order, each with its two masks: the unpacked zip of the
    three tuples, which the loop enumerates. *)
Definition zip_segmented (s : Segmented)
  : list (list (list Z) * list (list Z) * list (list Z)) :=
  zip (zip (input_segments s) (attention_mask s)) (token_type_ids s).

Definition map_tensor (f : Z -> Z) (t : Tensor2) : Tensor2 :=
  {| t_rows := (fun r : list Z => f <$> r) <$> t_rows t; t_cols := t_cols t |}.

Definition pad_and_segment (self : RMT) (input_ids : Tensor2) : result Segmented :=
  n_segments ← n_segments_of self input_ids;
  augmented_inputs ← for_each (augment_row self n_segments) (t_rows input_ids);
  augmented_inputs ← Torch.stack augmented_inputs;
  let attention_mask :=
    map_tensor (fun x => if decide (x = pad_token_id self) then 0 else 1)
               augmented_inputs in
  let token_type_ids := map_tensor (fun _ => 0) attention_mask in
  input_segments ← Torch.chunk augmented_inputs n_segments;
  attention_mask ← Torch.chunk attention_mask n_segments;
  token_type_ids ← Torch.chunk token_type_ids n_segments;
  Ok {| input_segments := input_segments;
        attention_mask := attention_mask;
        token_type_ids := token_type_ids |}.

(** ** The recurrent loop *)

(** Boolean-mask indexing and assignment, [t[mask]] and [t[mask] = rhs],
    along the first dimension. *)
Fixpoint select {A} (mask : list bool) (t : list A) : list A :=
  match mask, t with
  | m :: mask', x :: t' => if m then x :: select mask' t' else select mask' t'
  | _, _ => []
  end.

Fixpoint scatter {A} (mask : list bool) (t rhs : list A) : list A :=
  match mask, t with
  | true :: mask', x :: t' =>
      match rhs with
      | r :: rhs' => r :: scatter mask' t' rhs'
      | [] => x :: scatter mask' t' []
      end
  | false :: mask', x :: t' => x :: scatter mask' t' rhs
  | _, _ => t
  end.

(** [sum(mask)] for a list of Python booleans. *)
Definition count_true (mask : list bool) : Z :=
  Z.of_nat (length (filter (fun m => m = true) mask)).

(** [t[mask]]: the mask must be as long as the indexed dimension. *)
Definition mask_index {A} (mask : list bool) (t : list A) : result (list A) :=
  if decide (length mask = length t) then Ok (select mask t)
  else Raise IndexError.

(** Line 83: for each example of the step, whether its segment differs from
    [self.empty] ([torch.equal] compares sizes and elements). *)
Definition non_empty (self : RMT) (input_ids : list (list Z)) : list bool :=
  (fun row => negb (bool_decide (row = empty self))) <$> input_ids.

(** Every example of a step has the empty segment. *)
Definition all_empty (self : RMT) (input_ids : list (list Z)) : Prop :=
  Forall (fun row => row = empty self) input_ids.

(** The position of example [b] among the examples that a mask selects. *)
Definition rank (mask : list bool) (b : nat) : nat :=
  length (filter (fun m => m = true) (take b mask)).

Section Loop.

(** [vec] is a hidden-state vector (one row of floats); [loss_t] is a
    scalar loss. Neither is inspected by the wrapper. *)
Context {vec loss_t : Type}.

(** The keyword arguments of one call of [self.model.forward]: the three
    entries that the loop writes, and in [mi_kwargs] the caller's other
    keyword arguments (with [labels] filtered when empty segments are
    dropped). [output_hidden_states=True] is part of every call. *)
Record ModelInput := {
  mi_kwargs : gmap string (list Z);
  inputs_embeds : list (list vec);
  mi_attention_mask : list (list Z);
  mi_token_type_ids : list (list Z)
}.

(** The output object of the model: its [loss] entry, absent when the
    model computed none, and [hidden_states[-1]], one row of vectors per
    example. The object is mutable: see [heap] below. *)
Record ModelOutput := {
  loss : option loss_t;
  last_hidden_state : list (list vec)
}.

(** The external collaborator. [tensor_sum] is
    [torch.stack(losses).sum(dim=-1)] on a non-empty list of scalars. *)
Record Model := {
  word_embeddings : Z -> vec;
  forward : ModelInput -> ModelOutput;
  tensor_sum : list loss_t -> loss_t
}.

(** The local variable [memory]: of rank 2 as [set_memory] returns it, of
    rank 3 once it has been repeated over the batch. *)
Inductive Memory :=
  | Mem2 (m : list vec)
  | Mem3 (m : list (list vec)).

(** The calls that leave the wrapper, in the order they happen:
    [memory.detach()] and [self.model.forward(...)], each with the index
    of the segment in which it happens. The autograd graph is not part of
    the values: detaching leaves the data of [memory] as they are, and is
    seen in the trace only. [EvForward] records the keyword arguments of
    the call and the reference of the output object it returned. *)
Inductive Event :=
  | EvDetach (seg_num : Z)
  | EvForward (seg_num : Z) (mi : ModelInput) (out : nat).

(** The state of [__call__] inside its loop. Output objects live in
    [heap] and are named by their index: [outputs] and [out] hold
    references, so that the assignment to [out['loss']] after the loop is
    seen through [outputs]. [out] is [None] until the first assignment. *)
Record State := {
  memory : Memory;
  outputs : list nat;
  out : option nat;
  heap : list ModelOutput;
  trace : list Event
}.

Variable self : RMT.
Variable model : Model.
Variable kwargs : gmap string (list Z).

(** [set_memory()] with its default argument. *)
Definition set_memory : Memory :=
  Mem2 (word_embeddings model <$> mem_token_ids self).

(** Lines 75-76: [memory.repeat(batch, 1, 1)] when [memory.ndim == 2]. *)
Definition expand (m : Memory) (batch : nat) : list (list vec) :=
  match m with
  | Mem2 m => replicate batch m
  | Mem3 m => m
  end.

(** Line 77: the test that guards [memory.detach()]. *)
Definition detach_test (segmented : Segmented) (seg_num : Z) : bool :=
  (bptt_depth self >? -1) && (len_segmented segmented - seg_num >? bptt_depth self).

(** Lines 77-78: the trace once the guarded [memory.detach()] has run. *)
Definition after_detach (segmented : Segmented) (seg_num : Z) (st : State)
  : list Event :=
  if detach_test segmented seg_num then trace st ++ [EvDetach seg_num]
  else trace st.

(** [self.net.embeddings.word_embeddings(input_ids)] *)
Definition embed (input_ids : list (list Z)) : list (list vec) :=
  (fun row : list Z => word_embeddings model <$> row) <$> input_ids.

(** [inputs_embeds[:, 1:1+M] = mem]: both sides must have one shape (the
    broadcasting of a dimension of size one is not modelled). *)
Definition set_memory_slots (embeds mem : list (list vec))
  : result (list (list vec)) :=
  let m := Z.of_nat (num_mem_tokens self) in
  if decide (length embeds = length mem
             ∧ Forall2 (fun e r =>
                  length (Py.slice (Some 1) (Some (1 + m)) e) = length r)
                embeds mem)
  then Ok (zip_with (fun e r =>
               Py.slice None (Some 1) e ++ r ++ Py.slice (Some (1 + m)) None e)
             embeds mem)
  else Raise RuntimeError.

(** [out.hidden_states[-1][:, :self.num_mem_tokens]] *)
Definition memory_of (o : ModelOutput) : list (list vec) :=
  Py.slice None (Some (Z.of_nat (num_mem_tokens self))) <$> last_hidden_state o.

(** [memory[mask] = rhs]: the mask must be as long as the batch, and the
    rows selected must have the shape of [rhs]. *)
Definition mask_assign (mask : list bool) (mem rhs : list (list vec))
  : result (list (list vec)) :=
  if decide (length mask = length mem) then
    if decide (Forall2 (fun x r => length x = length r) (select mask mem) rhs)
    then Ok (scatter mask mem rhs)
    else Raise RuntimeError
  else Raise IndexError.

(** [d[key]] on a dict. *)
Definition getitem (d : gmap string (list Z)) (key : string) : result (list Z) :=
  match d !! key with
  | Some v => Ok v
  | None => Raise KeyError
  end.

(** The examples that take part in a step: those with a non-empty segment
    when empty segments are dropped, every example otherwise. *)
Definition step_mask (input_ids : list (list Z)) : list bool :=
  if drop_empty_segments self then non_empty self input_ids
  else (fun _ => true) <$> input_ids.

(** The memory that the model receives: positions [1, 1 + M) of each row
    of its input embeddings. *)
Definition fed_memory (mi : ModelInput) : list (list vec) :=
  Py.slice (Some 1) (Some (1 + Z.of_nat (num_mem_tokens self)))
    <$> inputs_embeds mi.

(** Lines 97-101: the three tensors of the step are written into
    [seg_kwargs], replacing what the caller may have passed under these
    names, and the model is called with [**seg_kwargs] and
    [output_hidden_states=True]. A caller's [output_hidden_states] makes
    this call raise [TypeError] (a keyword argument given twice). The
    record keeps the three tensors in fields of their own, and in
    [mi_kwargs] the other entries of [seg_kwargs] ([other_kwargs]). *)
Definition other_kwargs (seg_kwargs : gmap string (list Z))
  : gmap string (list Z) :=
  delete "token_type_ids"
    (delete "attention_mask" (delete "inputs_embeds" seg_kwargs)).

Definition model_input (seg_kwargs : gmap string (list Z))
    (inputs_embeds : list (list vec)) (attention_mask token_type_ids : list (list Z))
  : result ModelInput :=
  match seg_kwargs !! "output_hidden_states" with
  | Some _ => Raise TypeError
  | None =>
      Ok {| mi_kwargs := other_kwargs seg_kwargs;
            inputs_embeds := inputs_embeds;
            mi_attention_mask := attention_mask;
            mi_token_type_ids := token_type_ids |}
  end.

(** The body of the loop (lines 74-107) for the segment of index
    [seg_num]. Python's [continue] returns the state with nothing but the
    repeated (and possibly detached) memory changed. *)
Definition step (segmented : Segmented) (seg_num : Z)
    (segment_data : list (list Z) * list (list Z) * list (list Z))
    (st : State) : result State :=
  let '(input_ids, attention_mask, token_type_ids) := segment_data in
  let memory := expand (memory st) (length input_ids) in
  let trace := after_detach segmented seg_num st in
  if drop_empty_segments self then
    let non_empty_mask := non_empty self input_ids in
    if count_true non_empty_mask =? 0 then
      Ok {| memory := Mem3 memory; outputs := outputs st; out := out st;
            heap := heap st; trace := trace |}
    else
      input_ids ← mask_index non_empty_mask input_ids;
      attention_mask ← mask_index non_empty_mask attention_mask;
      token_type_ids ← mask_index non_empty_mask token_type_ids;
      labels ← getitem kwargs "labels";
      labels ← mask_index non_empty_mask labels;
      let seg_kwargs := <["labels" := labels]> kwargs in
      selected ← mask_index non_empty_mask memory;
      inputs_embeds ← set_memory_slots (embed input_ids) selected;
      mi ← model_input seg_kwargs inputs_embeds attention_mask token_type_ids;
      let o := forward model mi in
      let r := length (heap st) in
      memory ← mask_assign non_empty_mask memory (memory_of o);
      Ok {| memory := Mem3 memory; outputs := outputs st ++ [r]; out := Some r;
            heap := heap st ++ [o]; trace := trace ++ [EvForward seg_num mi r] |}
  else
    inputs_embeds ← set_memory_slots (embed input_ids) memory;
    mi ← model_input kwargs inputs_embeds attention_mask token_type_ids;
    let o := forward model mi in
    let r := length (heap st) in
    Ok {| memory := Mem3 (memory_of o); outputs := outputs st ++ [r];
          out := Some r; heap := heap st ++ [o];
          trace := trace ++ [EvForward seg_num mi r] |}.

(** The [for] loop over the enumerated segments, from index [seg_num]. *)
Fixpoint loop (segmented : Segmented) (seg_num : Z)
    (segments : list (list (list Z) * list (list Z) * list (list Z)))
    (st : State) : result State :=
  match segments with
  | [] => Ok st
  | segment_data :: segments' =>
      st' ← step segmented seg_num segment_data st;
      loop segmented (seg_num + 1) segments' st'
  end.

(** [o['loss']] on an output object: an absent entry is a [KeyError]. *)
Definition loss_of (h : list ModelOutput) (r : nat) : result loss_t :=
  match h !! r with
  | Some {| loss := Some l |} => Ok l
  | _ => Raise KeyError
  end.

Definition set_loss (l : loss_t) (o : ModelOutput) : ModelOutput :=
  {| loss := Some l; last_hidden_state := last_hidden_state o |}.

(** Lines 109-110. The right-hand side is evaluated first:
    [torch.stack] refuses an empty list; then the name [out] is read. *)
Definition aggregate (st : State) : result State :=
  if sum_loss self then
    losses ← for_each (loss_of (heap st)) (outputs st);
    total ← match losses with
            | [] => Raise RuntimeError
            | _ => Ok (tensor_sum model losses)
            end;
    r ← match out st with
        | Some r => Ok r
        | None => Raise UnboundLocalError
        end;
    Ok {| memory := memory st; outputs := outputs st; out := out st;
          heap := alter (set_loss total) r (heap st); trace := trace st |}
  else Ok st.

Definition init : State :=
  {| memory := set_memory; outputs := []; out := None; heap := []; trace := [] |}.

(** [__call__(input_ids, **kwargs)], up to its [return]: the final state. *)
Definition run (input_ids : Tensor2) : result State :=
  segmented ← pad_and_segment self input_ids;
  st ← loop segmented 0 (zip_segmented segmented) init;
  aggregate st.

(** The list that [__call__] returns, read through the references. *)
Definition returned (st : State) : list (option ModelOutput) :=
  (fun r => heap st !! r) <$> outputs st.

Definition call (input_ids : Tensor2) : result (list (option ModelOutput)) :=
  st ← run input_ids; Ok (returned st).


(** Output objects are referenced in the order of their creation, and
    [out] names the latest one. *)
Definition refs_ok (st : State) : Prop :=
  outputs st = seq 0 (length (heap st)) /\ out st = last (outputs st).

End Loop.

Arguments ModelInput : clear implicits.
Arguments ModelOutput : clear implicits.
Arguments Model : clear implicits.
Arguments Memory : clear implicits.
Arguments Event : clear implicits.
Arguments State : clear implicits.

(** The index at which the first content chunk ends when a stripped row of
    length [L] is cut from its end in steps of [k]: [seg_sep_inds[1]]. *)
Definition first_cut (k : Z) (L : Z) : Z := L - ((L + k - 1) / k - 1) * k.

(** ** Reading a segmentation back *)

(** The segments of the example of index [b], in order: row [b] of the
    tensor of every step. *)
Definition example_segments (sg : Segmented) (b : nat) : list (list Z) :=
  (fun seg : list (list Z) => default [] (seg !! b)) <$> input_segments sg.

(** A segment as lines 130-137 build it around a content chunk. *)
Definition wrap (self : RMT) (c : list Z) : list Z :=
  pad_add_special_tokens self c (input_size self).

Fixpoint strip_trailing_zeros (l : list Z) : list Z :=
  match l with
  | [] => []
  | x :: l' =>
      match strip_trailing_zeros l' with
      | [] => if decide (x = 0) then [] else [x]
      | r => x :: r
      end
  end.

(** The content portion of a segment: the segment without the start marker,
    the memory-slot positions and the separator in front, and without the
    padding and the separator behind. *)
Definition segment_content (self : RMT) (seg : list Z) : list Z :=
  removelast (strip_trailing_zeros (drop (num_mem_tokens self + 2) seg)).

(** ** Concrete configurations and inputs *)

(** The configuration of the specification's scenario: segments of 10
    tokens, two memory slots, hence a content capacity of 5; the other
    parameters have the defaults of [set_params]. *)
Definition scenario : RMT :=
  {| drop_empty_segments := true; sum_loss := false; input_size := 10;
     input_seg_size := None; num_mem_tokens := 2; bptt_depth := -1;
     pad_token_id := 0; cls_token := 101; sep_token := 102;
     vocab_size := 30000 |}.

(** One row: the content 5..11 between its two boundary markers. *)
Definition scenario_input : Tensor2 :=
  {| t_rows := [[101; 5; 6; 7; 8; 9; 10; 11; 102]]; t_cols := 9 |}.

(** One row without padding whose content, 4 tokens, fits one segment. *)
Definition short_input : Tensor2 :=
  {| t_rows := [[101; 1; 2; 3; 4; 102]]; t_cols := 6 |}.

(** ** A toy model, for running the loop on concrete inputs

    Its embedding of a token is the token; its final hidden layer is its
    input, each value incremented; its loss is the value at position [pos]
    of the first example of the step, read as a rational number. Its sum of
    losses is the sum of rational numbers. *)
Definition toy_model (pos : nat) : Model Z QArith_base.Q :=
  {| word_embeddings := fun x => x;
     forward := fun mi =>
       {| loss := Some (QArith_base.inject_Z
                          (default 0 (head (inputs_embeds mi) ≫= (.!! pos))));
          last_hidden_state :=
            (fun row : list Z => (fun v => v + 1) <$> row) <$> inputs_embeds mi |};
     tensor_sum := foldr QArith_base.Qplus (QArith_base.inject_Z 0) |}.

(** Segments of 5 tokens with one memory slot, hence one content token per
    segment; empty segments dropped, losses summed. *)
Definition tiny : RMT :=
  {| drop_empty_segments := true; sum_loss := true; input_size := 5;
     input_seg_size := None; num_mem_tokens := 1; bptt_depth := -1;
     pad_token_id := 0; cls_token := 101; sep_token := 102;
     vocab_size := 1000 |}.

(** One row with the content 1, 2, 3: five steps, the first two empty. *)
Definition tiny_input : Tensor2 :=
  {| t_rows := [[101; 1; 2; 3; 102]]; t_cols := 5 |}.

(** Two rows of different content lengths: at the second of the three
    steps only the first example has a non-empty segment. *)
Definition ragged_input : Tensor2 :=
  {| t_rows := [[101; 1; 2; 102]; [101; 7; 102; 0]]; t_cols := 4 |}.

(** One row without any content: its only segment is the empty segment. *)
Definition blank_input : Tensor2 :=
  {| t_rows := [[101; 102; 0]]; t_cols := 3 |}.

Definition with_labels (labels : list Z) : gmap string (list Z) :=
  {["labels" := labels]}.

(** The scenario's configuration with backpropagation limited to one
    segment. *)
Definition scenario_bptt1 : RMT :=
  {| drop_empty_segments := true; sum_loss := false; input_size := 10;
     input_seg_size := None; num_mem_tokens := 2; bptt_depth := 1;
     pad_token_id := 0; cls_token := 101; sep_token := 102;
     vocab_size := 30000 |}.

(** ** Further readings of a segmentation and of a trace *)

(** Line 151, for one token: 0 where the token is [pad_token_id], 1
    elsewhere. *)
Definition mask_bit (self : RMT) (x : Z) : Z :=
  if decide (x = pad_token_id self) then 0 else 1.

(** [extended_vocab_size] of [extend_word_embeddings] (line 63): the size
    to which the embedding table is resized. *)
Definition extended_vocab_size (self : RMT) : Z :=
  vocab_size self + Z.of_nat (num_mem_tokens self).

(** Lines 81-85: whether the step for the tensor [input_ids] goes on to
    call the model. *)
Definition runs_model (self : RMT) (input_ids : list (list Z)) : bool :=
  if drop_empty_segments self
  then negb (count_true (non_empty self input_ids) =? 0)
  else true.

(** The indices, counted from [seg_num], of the steps that call the model. *)
Fixpoint executed_steps (self : RMT) (seg_num : Z)
    (segments : list (list (list Z))) : list Z :=
  match segments with
  | [] => []
  | input_ids :: segments' =>
      (if runs_model self input_ids then [seg_num] else [])
        ++ executed_steps self (seg_num + 1) segments'
  end.

(** The segment indices, and the keyword arguments, of the calls of the
    model that a trace records, in order. *)
Definition forward_steps {vec} (tr : list (Event vec)) : list Z :=
  omap (fun e => match e with EvForward j _ _ => Some j | EvDetach _ => None end) tr.

Definition forward_inputs {vec} (tr : list (Event vec)) : list (ModelInput vec) :=
  omap (fun e => match e with EvForward _ mi _ => Some mi | EvDetach _ => None end) tr.

(** The heap holds, in order, what the model returned for the calls that
    the trace records. *)
Definition heap_ok {vec loss_t} (model : Model vec loss_t) (st : State vec loss_t)
  : Prop :=
  heap st = forward model <$> forward_inputs (trace st).

(** The same row of tokens with its padding on the left, and on the right. *)
Definition left_padded_input : Tensor2 :=
  {| t_rows := [[0; 0; 101; 5; 6; 7; 8; 9; 10; 11; 102]]; t_cols := 11 |}.

Definition right_padded_input : Tensor2 :=
  {| t_rows := [[101; 5; 6; 7; 8; 9; 10; 11; 102; 0; 0]]; t_cols := 11 |}.

(** The tiny configuration without memory slots. *)
Definition tiny_no_memory : RMT :=
  {| drop_empty_segments := true; sum_loss := false; input_size := 4;
     input_seg_size := None; num_mem_tokens := 0; bptt_depth := -1;
     pad_token_id := 0; cls_token := 101; sep_token := 102;
     vocab_size := 1000 |}.

(** ** Properties of the Python primitives *)

Section PyFacts.
Context {A : Type}.
Implicit Types l : list A.

Lemma slice_within l (s e : Z) :
  0 <= s <= e -> e <= Z.of_nat (length l) ->
  Py.slice (Some s) (Some e) l = take (Z.to_nat (e - s)) (drop (Z.to_nat s) l).
Proof.
  intros Hs He. unfold Py.slice, Py.clip.
  destruct (Z.ltb_spec s 0), (Z.ltb_spec e 0); try lia.
  by rewrite !Z.min_l by lia.
Qed.

Lemma slice_within_length l (s e : Z) :
  0 <= s <= e -> e <= Z.of_nat (length l) ->
  Z.of_nat (length (Py.slice (Some s) (Some e) l)) = e - s.
Proof.
  intros Hs He. rewrite slice_within by done.
  rewrite length_take, length_drop. lia.
Qed.

Lemma slice_prefix l (e : Z) :
  0 <= e -> Py.slice None (Some e) l = take (Z.to_nat e) l.
Proof.
  intros He. unfold Py.slice, Py.clip.
  destruct (Z.ltb_spec e 0); try lia.
  rewrite Z.sub_0_r. change (Z.to_nat 0) with 0%nat. rewrite drop_0.
  destruct (Z.min_spec e (Z.of_nat (length l))) as [[? ->]|[? ->]]; [done|].
  rewrite Nat2Z.id, firstn_all. symmetry. apply take_ge. lia.
Qed.

Lemma slice_suffix l (s : Z) :
  0 <= s -> Py.slice (Some s) None l = drop (Z.to_nat s) l.
Proof.
  intros Hs. unfold Py.slice, Py.clip.
  destruct (Z.ltb_spec s 0); try lia.
  destruct (Z.min_spec s (Z.of_nat (length l))) as [[? ->]|[? ->]].
  - apply take_ge. rewrite length_drop. lia.
  - rewrite Nat2Z.id, Z.sub_diag. change (Z.to_nat 0) with 0%nat.
    rewrite drop_all. symmetry. apply drop_ge. lia.
Qed.

(** [l[1:-1]] drops the first and the last element, whatever they are. *)
Lemma slice_1_m1 l : Py.slice (Some 1) (Some (-1)) l = removelast (tail l).
Proof.
  destruct l as [|x l]; [done|].
  unfold Py.slice, Py.clip. simpl tail.
  rewrite removelast_firstn_len.
  destruct (Z.ltb_spec 1 0), (Z.ltb_spec (-1) 0); try lia.
  cbn [length]. destruct l as [|y l]; [done|].
  cbn [length]. rewrite Z.min_l, Z.max_r by lia.
  replace (Z.to_nat 1) with 1%nat by done. cbn [drop].
  f_equal. cbn [length]. lia.
Qed.

End PyFacts.

Lemma ceil_div_pos (a b : Z) :
  0 < b -> Py.ceil_div a b = Ok ((a + b - 1) / b).
Proof.
  intros Hb. unfold Py.ceil_div. destruct (decide (b = 0)); [lia|]. f_equal.
  pose proof (Z.div_mod (- a) b ltac:(lia)).
  pose proof (Z.mod_pos_bound (- a) b Hb).
  apply Z.div_unique with (r := b - 1 - (- a) `mod` b); lia.
Qed.
Lemma range_len_back (L K : Z) :
  0 <= L -> 0 < K -> Py.range_len L 0 (- K) = (L + K - 1) / K.
Proof.
  intros HL HK. unfold Py.range_len.
  destruct (Z.ltb_spec 0 (- K)); [lia|].
  rewrite Z.opp_involutive.
  destruct (Z.leb_spec L 0).
  - assert (L = 0) as -> by lia. symmetry. apply Z.div_small. lia.
  - replace (L + K - 1) with (L - 0 - 1 + 1 * K) by lia.
    rewrite Z.div_add by lia. lia.
Qed.

Lemma reverse_fmap_seq {B} (g : nat -> B) (m : nat) :
  reverse (g <$> seq 0 m) = (fun i => g (m - 1 - i)%nat) <$> seq 0 m.
Proof.
  induction m as [|m IH]; [done|].
  rewrite seq_S at 1. rewrite fmap_app, reverse_app. cbn [fmap list_fmap reverse].
  rewrite IH. cbn [seq]. rewrite fmap_cons. simpl. f_equal.
  - f_equal. lia.
  - rewrite <- fmap_S_seq, <- list_fmap_compose.
    apply list_fmap_ext. intros _ i _. simpl. f_equal. lia.
Qed.
Lemma zip_consecutive {B} (g : nat -> B) (a m : nat) :
  zip (g <$> seq a (S m)) (g <$> seq (S a) m)
  = (fun i => (g i, g (S i))) <$> seq a m.
Proof.
  revert a. induction m as [|m IH]; intros a; [done|].
  cbn [seq fmap list_fmap zip zip_with]. f_equal.
  apply (IH (S a)).
Qed.

Lemma zip_shifted {B} (b0 : B) (g : nat -> B) (m : nat) :
  zip (b0 :: (g <$> seq 0 (S m))) (g <$> seq 0 (S m))
  = (b0, g 0%nat) :: ((fun i => (g i, g (S i))) <$> seq 0 m).
Proof. rewrite <- zip_consecutive. reflexivity. Qed.

(** The chunks of a row in closed form: with [m = ceil(L / k)] chunks, the
    first one ends at [first_cut k L] and every other one spans [k]. *)
Lemma content_chunks_explicit (k : Z) (input : list Z) :
  0 < k ->
  let L := Z.of_nat (length input) in
  let f0 := first_cut k L in
  content_chunks k input =
    Ok (match Z.to_nat ((L + k - 1) / k) with
        | O => []
        | S m' =>
            Py.slice (Some 0) (Some f0) input
              :: ((fun i : nat =>
                     Py.slice (Some (f0 + Z.of_nat i * k))
                              (Some (f0 + Z.of_nat (S i) * k)) input)
                    <$> seq 0 m')
        end).
Proof.
  intros Hk L f0. unfold content_chunks, Py.range.
  destruct (decide (- k = 0)); [lia|]. cbn [mbind result_bind]. f_equal.
  rewrite range_len_back by lia. fold L.
  assert (0 <= (L + k - 1) / k) as Hm by (apply Z.div_pos; lia).
  rewrite reverse_fmap_seq.
  destruct (Z.to_nat ((L + k - 1) / k)) as [|m'] eqn:Em; [done|].
  assert ((L + k - 1) / k = Z.of_nat (S m')) as Eq by lia.
  set (h := fun i : nat => L + Z.of_nat (S m' - 1 - i) * - k).
  assert (h 0%nat = f0) as Hh0.
  { unfold h, f0, first_cut. rewrite Eq.
    replace (Z.of_nat (S m' - 1 - 0)) with (Z.of_nat (S m') - 1) by lia. lia. }
  cbn [tail]. rewrite zip_shifted, fmap_cons, Hh0. cbn [fst snd]. f_equal.
  rewrite <- list_fmap_compose.
  apply list_fmap_ext. intros j i Hi. simpl.
  apply lookup_seq in Hi as [-> Hi].
  assert (forall i : nat, (i <= m')%nat -> h i = f0 + Z.of_nat i * k) as Hh.
  { intros i Hle. unfold h, f0, first_cut. rewrite Eq.
    replace (Z.of_nat (S m' - 1 - i)) with (Z.of_nat m' - Z.of_nat i) by lia.
    lia. }
  rewrite !Hh by lia. done.
Qed.
Lemma ceil_quotient (L k : Z) :
  0 < k -> (L + k - 1) / k = if decide (L mod k = 0) then L / k else L / k + 1.
Proof.
  intros Hk. pose proof (Z.div_mod L k ltac:(lia)) as Hdm.
  pose proof (Z.mod_pos_bound L k Hk) as Hr.
  destruct (decide (L mod k = 0)) as [E|E]; symmetry.
  - apply Z.div_unique with (r := k - 1); lia.
  - apply Z.div_unique with (r := L mod k - 1); lia.
Qed.

Lemma first_cut_spec (L k : Z) :
  0 < k -> first_cut k L = if decide (L mod k = 0) then k else L mod k.
Proof.
  intros Hk. unfold first_cut. rewrite ceil_quotient by done.
  pose proof (Z.div_mod L k ltac:(lia)) as Hdm.
  destruct (decide (L mod k = 0)) as [E|E]; lia.
Qed.

Lemma first_cut_total (L k : Z) :
  first_cut k L + ((L + k - 1) / k - 1) * k = L.
Proof. unfold first_cut. lia. Qed.

(** Consecutive blocks of [k] elements starting at [a] rebuild the rest of
    the list. *)
Lemma concat_blocks {A} (l : list A) (k : Z) (m : nat) (a : Z) :
  0 < k -> 0 <= a -> a + Z.of_nat m * k = Z.of_nat (length l) ->
  concat ((fun i : nat =>
             Py.slice (Some (a + Z.of_nat i * k)) (Some (a + Z.of_nat (S i) * k)) l)
            <$> seq 0 m)
  = drop (Z.to_nat a) l.
Proof.
  intros Hk. revert a. induction m as [|m IH]; intros a Ha Hlen.
  - simpl. rewrite drop_ge; [done|lia].
  - cbn [seq fmap list_fmap concat]. rewrite <- fmap_S_seq, <- list_fmap_compose.
    replace (a + Z.of_nat 0 * k) with a by lia.
    replace (a + Z.of_nat 1 * k) with (a + k) by lia.
    rewrite slice_within by lia.
    erewrite list_fmap_ext; [rewrite (IH (a + k)) by lia|].
    + replace (Z.to_nat (a + k)) with (Z.to_nat a + Z.to_nat k)%nat by lia.
      rewrite <- drop_drop.
      replace (Z.to_nat (a + k - a)) with (Z.to_nat k) by lia.
      apply take_drop.
    + intros j i Hi. simpl. f_equal; f_equal; lia.
Qed.

Lemma blocks_length {A} (l : list A) (k : Z) (m : nat) (a : Z) :
  0 < k -> 0 <= a -> a + Z.of_nat m * k <= Z.of_nat (length l) ->
  Forall (fun c => Z.of_nat (length c) = k)
    ((fun i : nat =>
        Py.slice (Some (a + Z.of_nat i * k)) (Some (a + Z.of_nat (S i) * k)) l)
       <$> seq 0 m).
Proof.
  intros Hk Ha Hlen. apply Forall_fmap, Forall_forall. intros i Hi. simpl.
  apply elem_of_seq in Hi.
  rewrite slice_within_length; nia.
Qed.
(** What lines 126-127 compute, for a positive capacity [k]. *)
Lemma content_chunks_spec (k : Z) (input : list Z) :
  0 < k ->
  let L := Z.of_nat (length input) in
  exists chunks,
    content_chunks k input = Ok chunks
    /\ concat chunks = input
    /\ Z.of_nat (length chunks) = (L + k - 1) / k
    /\ Forall (fun c => 0 < Z.of_nat (length c) <= k) chunks
    /\ (L mod k <> 0 ->
        exists c0 rest, chunks = c0 :: rest
          /\ Z.of_nat (length c0) = L mod k
          /\ Forall (fun c => Z.of_nat (length c) = k) rest).
Proof.
  intros Hk L. rewrite content_chunks_explicit by done. fold L.
  pose proof (first_cut_spec L k Hk) as Hf0.
  pose proof (first_cut_total L k) as Htot.
  pose proof (Z.mod_pos_bound L k Hk) as Hr.
  assert (0 <= (L + k - 1) / k) as Hm by (apply Z.div_pos; lia).
  destruct (Z.to_nat ((L + k - 1) / k)) as [|m'] eqn:Em.
  - assert ((L + k - 1) / k = 0) as E0 by lia.
    apply Z.div_small_iff in E0; [|lia].
    assert (L = 0) as HL0 by lia.
    exists []. repeat split; try done.
    + symmetry. apply nil_length_inv. lia.
    + simpl. lia.
    + rewrite HL0, Z.mod_0_l by lia. done.
  - assert ((L + k - 1) / k = Z.of_nat (S m')) as Eq by lia.
    rewrite Eq in Htot.
    assert (0 < first_cut k L <= k) as Hf0b.
    { rewrite Hf0. destruct (decide (L mod k = 0)); lia. }
    assert (Forall (fun c => Z.of_nat (length c) = k)
              ((fun i : nat =>
                  Py.slice (Some (first_cut k L + Z.of_nat i * k))
                           (Some (first_cut k L + Z.of_nat (S i) * k)) input)
                 <$> seq 0 m')) as Hrest.
    { apply blocks_length; fold L; lia. }
    assert (Z.of_nat (length (Py.slice (Some 0) (Some (first_cut k L)) input))
            = first_cut k L) as Hfirst.
    { rewrite slice_within_length; fold L; nia. }
    eexists. split; [done|]. repeat split.
    + cbn [concat]. rewrite concat_blocks by (fold L; lia).
      rewrite slice_within by (fold L; nia).
      change (Z.to_nat 0) with 0%nat. rewrite drop_0, Z.sub_0_r.
      apply take_drop.
    + cbn [length]. rewrite length_fmap, length_seq. lia.
    + constructor; [lia|].
      eapply Forall_impl; [exact Hrest|]. simpl. lia.
    + intros Hne. do 2 eexists. split; [done|]. split; [|exact Hrest].
      rewrite Hfirst, Hf0. destruct (decide (L mod k = 0)); [done|done].
Qed.
(** ** Properties of the segmenter *)

Lemma for_each_Ok {A B} (f : A -> result B) (l : list A) (ys : list B) :
  for_each f l = Ok ys <-> Forall2 (fun x y => f x = Ok y) l ys.
Proof.
  revert ys. induction l as [|x l IH]; intros ys; simpl.
  - split.
    + intros [= <-]. constructor.
    + intros H. by inversion H.
  - split.
    + destruct (f x) as [y|] eqn:Ey; [|done]. simpl.
      destruct (for_each f l) as [ys'|] eqn:Eys; [|done]. simpl.
      intros [= <-]. constructor; [done|]. by apply IH.
    + intros H. inversion H as [|? y ? ys' Hy Hys]; subst.
      rewrite Hy. simpl. apply IH in Hys. rewrite Hys. done.
Qed.

Lemma mem_token_ids_length self : length (mem_token_ids self) = num_mem_tokens self.
Proof. unfold mem_token_ids. by rewrite length_fmap, length_seq. Qed.

(** The layout of a segment: start marker, memory slots, separator,
    content, separator, zero padding. *)
Lemma pad_add_special_tokens_layout self (c : list Z) (size : Z) :
  pad_add_special_tokens self c size
  = [cls_token self] ++ mem_token_ids self ++ [sep_token self] ++ c
      ++ [sep_token self]
      ++ replicate
           (Z.to_nat (size - (Z.of_nat (num_mem_tokens self) + 3
                              + Z.of_nat (length c)))) 0.
Proof.
  unfold pad_add_special_tokens, Torch.pad_right.
  set (core := [cls_token self] ++ mem_token_ids self ++ [sep_token self] ++ c
                 ++ [sep_token self]).
  assert (Z.of_nat (length core)
          = Z.of_nat (num_mem_tokens self) + 3 + Z.of_nat (length c)) as Hlen.
  { unfold core. rewrite !length_app, mem_token_ids_length. simpl. lia. }
  rewrite Hlen.
  replace ([cls_token self] ++ mem_token_ids self ++ [sep_token self] ++ c
             ++ [sep_token self] ++ replicate _ 0)
    with (core ++ replicate
            (Z.to_nat (size - (Z.of_nat (num_mem_tokens self) + 3
                               + Z.of_nat (length c)))) 0).
  2:{ unfold core. by rewrite <- !app_assoc. }
  destruct (Z.ltb_spec 0 (size - (Z.of_nat (num_mem_tokens self) + 3
                                  + Z.of_nat (length c)))) as [Hp|Hp]; [done|].
  replace (Z.to_nat _) with 0%nat by lia. simpl. by rewrite app_nil_r.
Qed.

Lemma pad_add_special_tokens_length self (c : list Z) :
  Z.of_nat (length c) + Z.of_nat (num_mem_tokens self) + 3 <= input_size self ->
  Z.of_nat (length (pad_add_special_tokens self c (input_size self)))
  = input_size self.
Proof.
  intros Hfit. rewrite pad_add_special_tokens_layout.
  rewrite !length_app, mem_token_ids_length, length_replicate. simpl. lia.
Qed.

Lemma seg_capacity_le self :
  seg_capacity self <= input_size self - Z.of_nat (num_mem_tokens self) - 3.
Proof.
  unfold seg_capacity. destruct (input_seg_size self) as [s|]; [|lia].
  destruct (Z.ltb_spec s (input_size self - Z.of_nat (num_mem_tokens self) - 3)); lia.
Qed.

Lemma empty_length self :
  0 < seg_capacity self ->
  Z.of_nat (length (empty self)) = input_size self.
Proof.
  intros Hk. pose proof (seg_capacity_le self).
  apply pad_add_special_tokens_length. simpl. lia.
Qed.

Lemma strip_length_le self (row : list Z) :
  (length (strip self row) <= length row)%nat.
Proof.
  unfold strip. rewrite slice_1_m1.
  pose proof (length_filter (fun x => x ≠ pad_token_id self) row) as Hf.
  destruct (filter _ row) as [|x l]; simpl in *; [lia|].
  rewrite removelast_firstn_len, length_take. lia.
Qed.

(** The segments of one row, for a positive capacity: the wrapped chunks
    preceded by the copies of the empty segment. *)
Lemma row_segments_spec self (n : Z) (row : list Z) :
  0 < seg_capacity self ->
  let k := seg_capacity self in
  let L := Z.of_nat (length (strip self row)) in
  exists chunks,
    content_chunks k (strip self row) = Ok chunks
    /\ concat chunks = strip self row
    /\ Z.of_nat (length chunks) = (L + k - 1) / k
    /\ Forall (fun c => 0 < Z.of_nat (length c) <= k) chunks
    /\ row_segments self n row
       = Ok (replicate (Z.to_nat (n - Z.of_nat (length chunks))) (empty self)
             ++ ((fun c => pad_add_special_tokens self c (input_size self))
                   <$> chunks)).
Proof.
  intros Hk k L.
  destruct (content_chunks_spec k (strip self row) Hk)
    as (chunks & Hc & Hcat & Hlen & Hall & _).
  exists chunks. repeat split; try done.
  unfold row_segments. fold k. rewrite Hc. cbn [mbind result_bind].
  by rewrite length_fmap.
Qed.

Lemma row_segments_lengths self (n : Z) (row : list Z) (segs : list (list Z)) :
  0 < seg_capacity self ->
  row_segments self n row = Ok segs ->
  Forall (fun s => Z.of_nat (length s) = input_size self) segs.
Proof.
  intros Hk Hrow.
  destruct (row_segments_spec self n row Hk) as (chunks & _ & _ & _ & Hall & Hsegs).
  rewrite Hsegs in Hrow. injection Hrow as <-.
  pose proof (seg_capacity_le self) as Hcap.
  apply Forall_app. split.
  - apply Forall_replicate. by apply empty_length.
  - apply Forall_fmap. eapply Forall_impl; [exact Hall|]. simpl.
    intros c Hc. apply pad_add_special_tokens_length. lia.
Qed.
Lemma concat_uniform_length {A} (segs : list (list A)) (sz : nat) :
  Forall (fun s => length s = sz) segs ->
  length (concat segs) = (length segs * sz)%nat.
Proof.
  induction 1 as [|s segs Hs _ IH]; [done|].
  simpl. rewrite length_app, IH, Hs. lia.
Qed.

(** Cutting the concatenation of segments of one size at the multiples of
    that size gives the segments back. *)
Lemma nth_segment {A} (segs : list (list A)) (sz j : nat) (seg : list A) :
  Forall (fun s => length s = sz) segs ->
  segs !! j = Some seg ->
  take sz (drop (j * sz) (concat segs)) = seg.
Proof.
  intros Hall. revert j. induction Hall as [|s segs Hs _ IH]; intros j Hj; [done|].
  destruct j as [|j]; simpl in *.
  - injection Hj as ->. rewrite drop_0. by rewrite take_app_length'.
  - rewrite drop_app_add' by done. by apply IH.
Qed.

Lemma slice_nth_segment {A} (segs : list (list A)) (sz j : nat) (seg : list A) :
  Forall (fun s => length s = sz) segs ->
  segs !! j = Some seg ->
  Py.slice (Some (Z.of_nat j * Z.of_nat sz)) (Some ((Z.of_nat j + 1) * Z.of_nat sz))
           (concat segs) = seg.
Proof.
  intros Hall Hj.
  pose proof (lookup_lt_Some _ _ _ Hj) as Hlt.
  rewrite slice_within.
  - replace (Z.to_nat ((Z.of_nat j + 1) * Z.of_nat sz - Z.of_nat j * Z.of_nat sz))
      with sz by lia.
    replace (Z.to_nat (Z.of_nat j * Z.of_nat sz)) with (j * sz)%nat by lia.
    by apply nth_segment.
  - nia.
  - rewrite (concat_uniform_length _ sz) by done. nia.
Qed.

Lemma chunk_uniform (rs : list (list (list Z))) (N sz : nat) :
  (0 < N)%nat -> (0 < sz)%nat ->
  Forall (fun segs => length segs = N /\ Forall (fun s => length s = sz) segs) rs ->
  Torch.chunk {| t_rows := (fun segs : list (list Z) => concat segs) <$> rs; t_cols := N * sz |} (Z.of_nat N)
  = Ok ((fun j : nat => (fun segs => default [] (segs !! j)) <$> rs) <$> seq 0 N).
Proof.
  intros HN Hsz0 Hall. unfold Torch.chunk. cbn [t_rows t_cols].
  destruct (Z.leb_spec (Z.of_nat N) 0); [lia|].
  assert ((Z.of_nat (N * sz) + Z.of_nat N - 1) / Z.of_nat N = Z.of_nat sz) as ->.
  { symmetry. apply Z.div_unique with (r := Z.of_nat N - 1); lia. }
  destruct (Z.eqb_spec (Z.of_nat sz) 0); [lia|]. cbn [andb].
  assert ((Z.of_nat (N * sz) + Z.of_nat sz - 1) / Z.of_nat sz = Z.of_nat N) as ->.
  { symmetry. apply Z.div_unique with (r := Z.of_nat sz - 1); lia. }
  rewrite Z.max_l by lia. rewrite Nat2Z.id. f_equal.
  apply list_fmap_ext. intros i j Hj. apply lookup_seq in Hj as [-> Hj]. simpl.
  rewrite <- list_fmap_compose. apply list_fmap_ext. intros b segs Hsegs. simpl.
  apply list_elem_of_lookup_2 in Hsegs.
  rewrite Forall_forall in Hall. destruct (Hall _ Hsegs) as [Hlen Hsz].
  destruct (lookup_lt_is_Some_2 segs i ltac:(lia)) as [seg Hseg].
  rewrite Hseg. simpl. by apply slice_nth_segment.
Qed.
Lemma augment_rows_inv self (n : Z) (rows aug : list (list Z)) :
  for_each (augment_row self n) rows = Ok aug ->
  exists rs,
    Forall2 (fun row segs => row_segments self n row = Ok segs /\ segs <> []) rows rs
    /\ aug = (fun segs : list (list Z) => concat segs) <$> rs.
Proof.
  rewrite for_each_Ok. induction 1 as [|row a rows aug Ha _ (rs & Hrs & ->)].
  - exists []. split; [constructor|done].
  - unfold augment_row in Ha.
    destruct (row_segments self n row) as [segs|] eqn:Esegs; [|done].
    cbn [mbind result_bind] in Ha. destruct segs as [|s segs]; [done|].
    injection Ha as <-. exists ((s :: segs) :: rs). split; [|done].
    constructor; [done|exact Hrs].
Qed.

(** A non-positive capacity never yields a segmentation: the division by
    zero, or the concatenation of an empty list of segments, raises. *)
Lemma row_segments_negative self (n : Z) (row : list Z) :
  seg_capacity self < 0 -> n <= 0 -> row_segments self n row = Ok [].
Proof.
  intros Hk Hn. unfold row_segments, content_chunks, Py.range.
  destruct (decide (- seg_capacity self = 0)); [lia|].
  unfold Py.range_len. destruct (Z.ltb_spec 0 (- seg_capacity self)); [|lia].
  destruct (Z.leb_spec 0 (Z.of_nat (length (strip self row)))); [|lia].
  simpl. replace (Z.to_nat (n - Z.of_nat 0)) with 0%nat by lia. done.
Qed.

Lemma pad_and_segment_capacity self (t : Tensor2) (sg : Segmented) :
  pad_and_segment self t = Ok sg -> 0 < seg_capacity self.
Proof.
  unfold pad_and_segment, n_segments_of, Py.ceil_div. intros H.
  destruct (decide (seg_capacity self = 0)) as [|Hne]; [done|].
  destruct (Z.lt_trichotomy (seg_capacity self) 0) as [Hneg|[?|?]]; [|lia|done].
  exfalso. cbn [mbind result_bind] in H.
  set (n := - (- Z.of_nat (t_cols t)) `div` seg_capacity self) in *.
  assert (n <= 0) as Hn.
  { unfold n.
    pose proof (Z.div_mod (- Z.of_nat (t_cols t)) (seg_capacity self) Hne).
    pose proof (Z.mod_neg_bound (- Z.of_nat (t_cols t)) (seg_capacity self) Hneg).
    nia. }
  destruct (t_rows t) as [|row rows]; [done|]. cbn [for_each] in H.
  assert (augment_row self n row = Raise EmptyCatError) as E.
  { unfold augment_row. by rewrite row_segments_negative. }
  rewrite E in H. done.
Qed.
Lemma row_segments_count self (W : nat) (row : list Z) (segs : list (list Z)) :
  0 < seg_capacity self ->
  length row = W ->
  let n := (Z.of_nat W + seg_capacity self - 1) / seg_capacity self in
  row_segments self n row = Ok segs ->
  Z.of_nat (length segs) = n.
Proof.
  intros Hk Hrow n Hsegs.
  destruct (row_segments_spec self n row Hk) as (chunks & _ & _ & Hlen & _ & Hs).
  rewrite Hs in Hsegs. injection Hsegs as <-.
  rewrite length_app, length_replicate, length_fmap.
  pose proof (strip_length_le self row) as HL.
  assert (Z.of_nat (length chunks) <= n); [|lia].
  rewrite Hlen. apply Z.div_le_mono; lia.
Qed.

(** The structure of a successful segmentation of a rectangular batch:
    [N = ceil(width / capacity)] steps, and the tensor of step [j] holds,
    for each row, the [j]-th of the [N] segments of that row. *)
Lemma pad_and_segment_inv self (t : Tensor2) (sg : Segmented) :
  wf_tensor t ->
  pad_and_segment self t = Ok sg ->
  exists (N : nat) (rs : list (list (list Z))),
    (0 < N)%nat /\ t_rows t <> []
    /\ n_segments_of self t = Ok (Z.of_nat N)
    /\ Forall2 (fun row segs =>
                  row_segments self (Z.of_nat N) row = Ok segs /\ length segs = N)
               (t_rows t) rs
    /\ input_segments sg
       = (fun j : nat => (fun segs => default [] (segs !! j)) <$> rs) <$> seq 0 N.
Proof.
  intros Hwf H. pose proof (pad_and_segment_capacity _ _ _ H) as Hk.
  unfold pad_and_segment, n_segments_of in *. rewrite ceil_div_pos in * by done.
  set (n := (Z.of_nat (t_cols t) + seg_capacity self - 1) / seg_capacity self) in *.
  cbn [mbind result_bind] in H.
  destruct (for_each (augment_row self n) (t_rows t)) as [aug|] eqn:Eaug; [|done].
  apply augment_rows_inv in Eaug as (rs & Hrs & ->).
  assert (0 <= n) as Hn0 by (apply Z.div_pos; lia).
  set (N := Z.to_nat n). set (sz := Z.to_nat (input_size self)).
  pose proof (seg_capacity_le self) as Hcap.
  assert (Forall2 (fun row segs =>
            row_segments self n row = Ok segs /\ length segs = N
            /\ segs <> [] /\ Forall (fun s => length s = sz) segs)
          (t_rows t) rs) as Hrs'.
  { clear H. unfold wf_tensor in Hwf. revert Hwf.
    induction Hrs as [|row segs rows rs [Hsegs Hne] _ IH]; intros Hwf; [constructor|].
    inversion Hwf as [|? ? Hrow Hrows]; subst. constructor; [|by apply IH].
    repeat split; try done.
    - pose proof (row_segments_count self (t_cols t) row segs Hk Hrow Hsegs). lia.
    - eapply Forall_impl; [exact (row_segments_lengths _ _ _ _ Hk Hsegs)|].
      simpl. lia. }
  destruct Hrs' as [|row segs rows rs' (Hsegs & Hlen & Hne & Hsz) Hrest]; [done|].
  assert (0 < N)%nat as HN by (destruct segs; [done|simpl in Hlen; lia]).
  assert (0 < sz)%nat as Hsz0 by lia.
  assert (Forall (fun segs => length segs = N /\ Forall (fun s => length s = sz) segs)
            (segs :: rs')) as Hall.
  { constructor; [done|]. clear -Hrest.
    induction Hrest as [|? ? ? ? (_ & ? & _ & ?)]; constructor; done. }
  cbn [mbind result_bind] in H.
  assert (Torch.stack ((fun segs : list (list Z) => concat segs) <$> segs :: rs')
          = Ok {| t_rows := (fun segs : list (list Z) => concat segs) <$> segs :: rs';
                  t_cols := N * sz |}) as Estack.
  { unfold Torch.stack. rewrite fmap_cons.
    rewrite (concat_uniform_length segs sz), Hlen by done.
    assert (forallb (fun t0 : list Z => (length t0 =? N * sz)%nat)
              (concat segs :: ((fun segs0 : list (list Z) => concat segs0) <$> rs'))
            = true) as ->; [|done].
    rewrite <- fmap_cons. apply forallb_forall. intros a Ha.
    apply list_elem_of_In, list_elem_of_fmap in Ha as (segs' & -> & Hin).
    rewrite Forall_forall in Hall. destruct (Hall _ Hin) as [Hl Hs].
    apply Nat.eqb_eq. rewrite (concat_uniform_length segs' sz) by done. lia. }
  rewrite Estack in H. cbn [mbind result_bind] in H.
  replace n with (Z.of_nat N) in H by lia.
  rewrite chunk_uniform in H by done. cbn [mbind result_bind] in H.
  repeat match type of H with
         | (?c ≫= _) = Ok _ => destruct c; [|done]; cbn [mbind result_bind] in H
         end.
  injection H as <-. cbn [input_segments].
  exists N, (segs :: rs'). repeat split; try done.
  - f_equal. lia.
  - replace (Z.of_nat N) with n by lia. constructor; [done|].
    clear -Hrest. induction Hrest as [|? ? ? ? (? & ? & _ & _)]; constructor; done.
Qed.
Lemma example_segments_row self (t : Tensor2) (sg : Segmented) (b : nat) (row : list Z) :
  wf_tensor t ->
  pad_and_segment self t = Ok sg ->
  t_rows t !! b = Some row ->
  let N := length (input_segments sg) in
  (0 < N)%nat
  /\ n_segments_of self t = Ok (Z.of_nat N)
  /\ row_segments self (Z.of_nat N) row = Ok (example_segments sg b)
  /\ length (example_segments sg b) = N.
Proof.
  intros Hwf Hsg Hrow.
  destruct (pad_and_segment_inv self t sg Hwf Hsg) as (N & rs & HN & _ & Hn & Hrs & Hin).
  assert (length (input_segments sg) = N) as HlenN.
  { by rewrite Hin, length_fmap, length_seq. }
  rewrite HlenN. cbn zeta.
  destruct (Forall2_lookup_l _ _ _ _ _ Hrs Hrow) as (segs & Hsegs & Hrowsegs & Hlen).
  assert (example_segments sg b = segs) as ->; [|done].
  unfold example_segments. rewrite Hin, <- list_fmap_compose.
  apply list_eq_same_length with N; [done|by rewrite length_fmap, length_seq|].
  intros j x y Hj Hx Hy. rewrite list_lookup_fmap, lookup_seq_lt in Hx by done.
  simpl in Hx. rewrite list_lookup_fmap, Hsegs in Hx. simpl in Hx.
  rewrite Hy in Hx. simpl in Hx. congruence.
Qed.

Lemma example_segments_spec self (t : Tensor2) (sg : Segmented) (b : nat) (row : list Z) :
  wf_tensor t ->
  pad_and_segment self t = Ok sg ->
  t_rows t !! b = Some row ->
  let k := seg_capacity self in
  let L := Z.of_nat (length (strip self row)) in
  exists chunks,
    content_chunks k (strip self row) = Ok chunks
    /\ concat chunks = strip self row
    /\ Z.of_nat (length chunks) = (L + k - 1) / k
    /\ Forall (fun c => 0 < Z.of_nat (length c) <= k) chunks
    /\ (length chunks <= length (input_segments sg))%nat
    /\ example_segments sg b
       = replicate (length (input_segments sg) - length chunks) (empty self)
           ++ (wrap self <$> chunks).
Proof.
  intros Hwf Hsg Hrow k L.
  pose proof (pad_and_segment_capacity _ _ _ Hsg) as Hk.
  destruct (example_segments_row self t sg b row Hwf Hsg Hrow) as (HN & Hn & Hsegs & Hlen).
  destruct (row_segments_spec self (Z.of_nat (length (input_segments sg))) row Hk)
    as (chunks & Hc & Hcat & Hcount & Hall & Hs).
  exists chunks. rewrite Hs in Hsegs. injection Hsegs as Hsegs.
  assert (length chunks <= length (input_segments sg))%nat as Hle.
  { rewrite <- Hlen, <- Hsegs, length_app, length_fmap. lia. }
  repeat split; try done.
  rewrite <- Hsegs. unfold wrap. do 2 f_equal. lia.
Qed.
Lemma strip_trailing_zeros_padding (l : list Z) (p : nat) :
  strip_trailing_zeros (l ++ replicate p 0) = strip_trailing_zeros l.
Proof.
  induction l as [|x l IH].
  - induction p as [|p IHp]; [done|]. simpl in *. by rewrite IHp.
  - simpl. by rewrite IH.
Qed.

Lemma strip_trailing_zeros_nonzero_last (l : list Z) (x : Z) :
  x <> 0 -> strip_trailing_zeros (l ++ [x]) = l ++ [x].
Proof.
  intros Hx. induction l as [|y l IH]; simpl.
  - by destruct (decide (x = 0)).
  - rewrite IH. by destruct l.
Qed.

Lemma segment_content_wrap self (c : list Z) :
  sep_token self <> 0 -> segment_content self (wrap self c) = c.
Proof.
  intros Hsep. unfold segment_content, wrap.
  rewrite pad_add_special_tokens_layout.
  replace ([cls_token self] ++ mem_token_ids self ++ [sep_token self] ++ c
             ++ [sep_token self] ++ replicate _ 0)
    with (([cls_token self] ++ mem_token_ids self ++ [sep_token self])
            ++ ((c ++ [sep_token self]) ++ replicate
                 (Z.to_nat (input_size self - (Z.of_nat (num_mem_tokens self) + 3
                                               + Z.of_nat (length c)))) 0)).
  2:{ by rewrite <- !app_assoc. }
  rewrite drop_app_length'.
  2:{ rewrite !length_app, mem_token_ids_length. simpl. lia. }
  rewrite strip_trailing_zeros_padding, strip_trailing_zeros_nonzero_last by done.
  apply removelast_last.
Qed.

Lemma wrap_length self (c : list Z) :
  Z.of_nat (length c) <= seg_capacity self ->
  Z.of_nat (length (wrap self c)) = input_size self.
Proof.
  intros Hc. pose proof (seg_capacity_le self).
  apply pad_add_special_tokens_length. lia.
Qed.

(** ** Boolean masks *)

Section Masks.
Context {A : Type}.
Implicit Types (mask : list bool) (l t rhs : list A).

Lemma select_length mask l :
  length mask = length l ->
  length (select mask l) = length (filter (fun m => m = true) mask).
Proof.
  revert l. induction mask as [|m mask IH]; intros [|x l] Hlen; try done.
  injection Hlen as Hlen. destruct m; cbn [select].
  - rewrite filter_cons_True by done. cbn [length]. by rewrite IH.
  - rewrite filter_cons_False by done. by apply IH.
Qed.

Lemma select_all mask l :
  length mask = length l -> Forall (fun m => m = true) mask -> select mask l = l.
Proof.
  revert l. induction mask as [|m mask IH]; intros [|x l] Hlen Hall; try done.
  injection Hlen as Hlen. inversion Hall as [|? ? -> Hall']; subst.
  simpl. by rewrite IH.
Qed.

Lemma select_lookup mask l (b : nat) :
  length mask = length l ->
  mask !! b = Some true ->
  select mask l !! rank mask b = l !! b.
Proof.
  unfold rank. revert l b. induction mask as [|m mask IH]; intros [|x l] b Hlen Hb; try done.
  injection Hlen as Hlen. destruct b as [|b].
  - simpl in *. by injection Hb as ->.
  - change (take (S b) (m :: mask)) with (m :: take b mask).
    change ((m :: mask) !! S b) with (mask !! b) in Hb.
    change ((x :: l) !! S b) with (l !! b).
    destruct m.
    + rewrite filter_cons_True by done. simpl. by apply IH.
    + rewrite filter_cons_False by done. simpl. by apply IH.
Qed.

Lemma scatter_length mask t rhs : length (scatter mask t rhs) = length t.
Proof.
  revert t rhs. induction mask as [|m mask IH]; intros [|x t] rhs; try done.
  - by destruct m.
  - destruct m; [destruct rhs|]; simpl; by rewrite IH.
Qed.

Lemma scatter_unselected mask t rhs (b : nat) :
  mask !! b = Some false -> scatter mask t rhs !! b = t !! b.
Proof.
  revert t rhs b. induction mask as [|m mask IH]; intros [|x t] rhs b Hb; try done.
  - by destruct m.
  - destruct b as [|b]; simpl in Hb.
    + injection Hb as ->. done.
    + destruct m; [destruct rhs|]; simpl; by apply IH.
Qed.

Lemma select_scatter mask t rhs :
  length mask = length t ->
  length rhs = length (select mask t) ->
  select mask (scatter mask t rhs) = rhs.
Proof.
  revert t rhs. induction mask as [|m mask IH]; intros [|x t] rhs Hlen Hrhs; try done.
  - by destruct rhs.
  - injection Hlen as Hlen. destruct m; simpl in *.
    + destruct rhs as [|r rhs]; [done|]. injection Hrhs as Hrhs.
      simpl. by rewrite IH.
    + by apply IH.
Qed.

End Masks.

Lemma count_true_zero (mask : list bool) :
  count_true mask = 0 <-> Forall (fun m => m = false) mask.
Proof.
  unfold count_true. induction mask as [|m mask IH]; [by split|].
  destruct m.
  - rewrite filter_cons_True by done. simpl. split; [lia|].
    intros H. by inversion H.
  - rewrite filter_cons_False by done. rewrite IH. split.
    + by constructor.
    + intros H. by inversion H.
Qed.

Lemma non_empty_lookup self (ids : list (list Z)) (b : nat) (m : bool) :
  non_empty self ids !! b = Some m <->
  exists row, ids !! b = Some row /\ m = negb (bool_decide (row = empty self)).
Proof.
  unfold non_empty. rewrite list_lookup_fmap. destruct (ids !! b) as [row|]; simpl.
  - split.
    + intros [= <-]. by exists row.
    + intros (row' & [= <-] & ->). done.
  - split; [done|]. by intros (? & ? & _).
Qed.

Lemma non_empty_false self (ids : list (list Z)) (b : nat) :
  non_empty self ids !! b = Some false <-> ids !! b = Some (empty self).
Proof.
  rewrite non_empty_lookup. split.
  - intros (row & Hrow & Hm). symmetry in Hm. apply negb_false_iff in Hm.
    apply bool_decide_eq_true in Hm. by subst.
  - intros Hrow. exists (empty self). split; [done|].
    by rewrite bool_decide_eq_true_2.
Qed.

Lemma non_empty_all_empty self (ids : list (list Z)) :
  count_true (non_empty self ids) = 0 <-> Forall (fun row => row = empty self) ids.
Proof.
  rewrite count_true_zero. unfold non_empty. rewrite Forall_fmap.
  apply Forall_iff. intros row. simpl. rewrite negb_false_iff.
  apply bool_decide_eq_true.
Qed.
(** ** Properties of one step of the loop *)

Ltac bind_ok H :=
  repeat match type of H with
    | ((if decide ?P then _ else _) ≫= _) = Ok _ =>
        destruct (decide P); [|done]; cbn [mbind result_bind] in H
    | (match ?x with Some _ => _ | None => _ end ≫= _) = Ok _ =>
        destruct x eqn:?; [|done]; cbn [mbind result_bind] in H
    | (?c ≫= _) = Ok _ =>
        destruct c eqn:?; [|done]; cbn [mbind result_bind] in H
    end.

(** [other_kwargs] drops the three names that the loop writes, and nothing
    else. *)
Lemma other_kwargs_lookup (seg_kwargs : gmap string (list Z)) (key : string) :
  key <> "inputs_embeds" -> key <> "attention_mask" -> key <> "token_type_ids" ->
  other_kwargs seg_kwargs !! key = seg_kwargs !! key.
Proof.
  intros H1 H2 H3. unfold other_kwargs. by rewrite !lookup_delete_ne by done.
Qed.

Lemma other_kwargs_written (seg_kwargs : gmap string (list Z)) (key : string) :
  key = "inputs_embeds" \/ key = "attention_mask" \/ key = "token_type_ids" ->
  other_kwargs seg_kwargs !! key = None.
Proof.
  unfold other_kwargs. intros [-> | [-> | ->]].
  - do 2 (rewrite lookup_delete_ne by done). apply lookup_delete_eq.
  - rewrite lookup_delete_ne by done. apply lookup_delete_eq.
  - apply lookup_delete_eq.
Qed.

(** A call of the model that was made: [model_input] did not raise. *)
Ltac model_input_ok :=
  match goal with
  | Hm : model_input _ _ _ _ = Ok _ |- _ =>
      unfold model_input in Hm;
      match type of Hm with
      | match ?x with Some _ => _ | None => _ end = _ =>
          destruct x eqn:?; [discriminate Hm|]; injection Hm as <-
      end
  end.

Section StepFacts.
Context {vec loss_t : Type}.
Variables (self : RMT) (model : Model vec loss_t) (kwargs : gmap string (list Z)).
Implicit Types (st : State vec loss_t) (sg : Segmented) (i : Z).
Implicit Types (ids am tt : list (list Z)).

Lemma step_skip sg i ids am tt st :
  drop_empty_segments self = true ->
  count_true (non_empty self ids) = 0 ->
  step self model kwargs sg i (ids, am, tt) st
  = Ok {| memory := Mem3 (expand (memory st) (length ids));
          outputs := outputs st; out := out st; heap := heap st;
          trace := after_detach self sg i st |}.
Proof.
  intros Hdrop Hzero. unfold step. rewrite Hdrop, Hzero. done.
Qed.

Lemma step_drop_inv sg i ids am tt st st1 :
  drop_empty_segments self = true ->
  count_true (non_empty self ids) <> 0 ->
  step self model kwargs sg i (ids, am, tt) st = Ok st1 ->
  let mask := non_empty self ids in
  let mem_in := expand (memory st) (length ids) in
  exists labels emb m1,
    kwargs !! "labels" = Some labels
    /\ length labels = length ids
    /\ length mem_in = length ids
    /\ set_memory_slots self (embed model (select mask ids)) (select mask mem_in)
       = Ok emb
    /\ let mi := {| mi_kwargs :=
                      other_kwargs (<["labels" := select mask labels]> kwargs);
                    inputs_embeds := emb;
                    mi_attention_mask := select mask am;
                    mi_token_type_ids := select mask tt |} in
       mask_assign mask mem_in (memory_of self (forward model mi)) = Ok m1
       /\ st1 = {| memory := Mem3 m1;
                   outputs := outputs st ++ [length (heap st)];
                   out := Some (length (heap st));
                   heap := heap st ++ [forward model mi];
                   trace := after_detach self sg i st
                              ++ [EvForward i mi (length (heap st))] |}.
Proof.
  intros Hdrop Hnz H mask mem_in. unfold step in H. rewrite Hdrop in H.
  fold mask mem_in in H.
  destruct (Z.eqb_spec (count_true mask) 0) as [|_]; [done|].
  unfold mask_index, getitem in H.
  assert (length mask = length ids) as Hmask by (unfold mask, non_empty; by rewrite length_fmap).
  bind_ok H. injection H as <-. model_input_ok.
  do 3 eexists. repeat split; try done; congruence.
Qed.

Lemma step_keep_inv sg i ids am tt st st1 :
  drop_empty_segments self = false ->
  step self model kwargs sg i (ids, am, tt) st = Ok st1 ->
  let mem_in := expand (memory st) (length ids) in
  exists emb,
    set_memory_slots self (embed model ids) mem_in = Ok emb
    /\ let mi := {| mi_kwargs := other_kwargs kwargs; inputs_embeds := emb;
                    mi_attention_mask := am; mi_token_type_ids := tt |} in
       st1 = {| memory := Mem3 (memory_of self (forward model mi));
                outputs := outputs st ++ [length (heap st)];
                out := Some (length (heap st));
                heap := heap st ++ [forward model mi];
                trace := after_detach self sg i st
                           ++ [EvForward i mi (length (heap st))] |}.
Proof.
  intros Hdrop H mem_in. unfold step in H. rewrite Hdrop in H.
  fold mem_in in H. bind_ok H. injection H as <-. model_input_ok. by eexists.
Qed.

(** A step that calls the model found no [output_hidden_states] among the
    caller's keyword arguments. *)
Lemma step_forward_allowed sg i ids am tt st st1 :
  step self model kwargs sg i (ids, am, tt) st = Ok st1 ->
  outputs st1 <> outputs st ->
  kwargs !! "output_hidden_states" = None.
Proof.
  intros H Hx. unfold step in H. destruct (drop_empty_segments self).
  - destruct (count_true (non_empty self ids) =? 0).
    { injection H as <-. done. }
    unfold mask_index, getitem in H. bind_ok H. model_input_ok.
    match goal with
    | Hk : <["labels" := _]> kwargs !! "output_hidden_states" = None |- _ =>
        by rewrite lookup_insert_ne in Hk
    end.
  - bind_ok H. by model_input_ok.
Qed.

End StepFacts.

Lemma slice_nonneg {A} (l : list A) (s e : Z) :
  0 <= s -> 0 <= e ->
  Py.slice (Some s) (Some e) l = take (Z.to_nat (e - s)) (drop (Z.to_nat s) l).
Proof.
  intros Hs He. unfold Py.slice, Py.clip.
  destruct (Z.ltb_spec s 0), (Z.ltb_spec e 0); try lia.
  set (len := Z.of_nat (length l)).
  destruct (Z.le_gt_cases s len) as [Hsl|Hsl].
  - rewrite (Z.min_l s) by done.
    destruct (Z.le_gt_cases e len) as [Hel|Hel].
    + by rewrite Z.min_l.
    + rewrite Z.min_r by lia.
      rewrite !take_ge; [done| |]; rewrite length_drop; lia.
  - rewrite (Z.min_r s) by lia. rewrite !drop_ge by lia. by rewrite !take_nil.
Qed.

(** Reading positions [1, 1 + m) back after they have been assigned. *)
Lemma slot_roundtrip {A} (e r : list A) (m : nat) :
  length (Py.slice (Some 1) (Some (1 + Z.of_nat m)) e) = length r ->
  Py.slice (Some 1) (Some (1 + Z.of_nat m))
    (Py.slice None (Some 1) e ++ r ++ Py.slice (Some (1 + Z.of_nat m)) None e)
  = r.
Proof.
  rewrite !slice_nonneg, slice_prefix, slice_suffix by lia.
  replace (Z.to_nat (1 + Z.of_nat m - 1)) with m by lia.
  replace (Z.to_nat (1 + Z.of_nat m)) with (S m) by lia.
  change (Z.to_nat 1) with 1%nat.
  destruct e as [|x e]; simpl.
  - rewrite length_take. intros Hr.
    destruct r; [|simpl in Hr; lia]. by destruct m.
  - rewrite !drop_0, length_take. intros Hr.
    destruct (Nat.le_gt_cases m (length e)) as [Hm|Hm].
    + apply take_app_length'. lia.
    + rewrite drop_ge, app_nil_r by lia. apply take_ge. lia.
Qed.

Section StoreFacts.
Context {vec : Type}.
Implicit Types (mem rhs : list (list vec)) (mask : list bool).

Lemma set_memory_slots_fed self (embeds mem emb : list (list vec)) :
  set_memory_slots self embeds mem = Ok emb ->
  Py.slice (Some 1) (Some (1 + Z.of_nat (num_mem_tokens self))) <$> emb = mem.
Proof.
  unfold set_memory_slots. destruct (decide _) as [[_ Hall]|]; [|done].
  intros [= <-]. induction Hall as [|e r embeds mem Hr _ IH]; [done|].
  cbn [zip_with fmap list_fmap]. f_equal; [|exact IH].
  by apply slot_roundtrip.
Qed.

Lemma mask_assign_spec mask mem rhs (m1 : list (list vec)) :
  mask_assign mask mem rhs = Ok m1 ->
  length m1 = length mem
  /\ select mask m1 = rhs
  /\ (forall b : nat, mask !! b = Some false -> m1 !! b = mem !! b)
  /\ (forall b : nat, mask !! b = Some true -> m1 !! b = rhs !! rank mask b).
Proof.
  unfold mask_assign. destruct (decide _) as [Hlen|]; [|done].
  destruct (decide _) as [Hshape|]; [|done]. intros [= <-].
  assert (select mask (scatter mask mem rhs) = rhs) as Hsel.
  { apply select_scatter; [done|]. symmetry. by eapply Forall2_length. }
  repeat split.
  - apply scatter_length.
  - exact Hsel.
  - intros b Hb. by apply scatter_unselected.
  - intros b Hb. rewrite <- Hsel at 2. symmetry. apply select_lookup; [|done].
    by rewrite scatter_length.
Qed.

End StoreFacts.

(** ** The shape of what [pad_and_segment] returns *)

Lemma chunk_shape (t t' : Tensor2) (n : Z) (cs cs' : list (list (list Z))) :
  Torch.chunk t n = Ok cs ->
  Torch.chunk t' n = Ok cs' ->
  t_cols t = t_cols t' ->
  length cs = length cs'
  /\ Forall (fun c => length c = length (t_rows t)) cs.
Proof.
  unfold Torch.chunk. intros H H' Hcols. rewrite <- Hcols in H'.
  destruct (n <=? 0); [done|].
  destruct (_ && _); injection H as <-; injection H' as <-.
  - rewrite !length_replicate. split; [done|].
    apply Forall_replicate. by rewrite length_fmap.
  - rewrite !length_fmap. split; [done|].
    apply Forall_fmap, Forall_forall. intros j _. simpl. by rewrite length_fmap.
Qed.

Lemma pad_and_segment_aligned self (t : Tensor2) (sg : Segmented) :
  pad_and_segment self t = Ok sg ->
  length (attention_mask sg) = length (input_segments sg)
  /\ length (token_type_ids sg) = length (input_segments sg)
  /\ exists batch : nat,
       Forall (fun c => length c = batch) (input_segments sg)
       /\ Forall (fun c => length c = batch) (attention_mask sg)
       /\ Forall (fun c => length c = batch) (token_type_ids sg).
Proof.
  unfold pad_and_segment. intros H.
  destruct (n_segments_of self t) as [n|]; [|done]. cbn [mbind result_bind] in H.
  destruct (for_each _ _) as [aug|]; [|done]. cbn [mbind result_bind] in H.
  destruct (Torch.stack aug) as [T|]; [|done]. cbn [mbind result_bind] in H.
  destruct (Torch.chunk T n) as [ids|] eqn:Hids; [|done].
  cbn [mbind result_bind] in H.
  destruct (Torch.chunk (map_tensor _ T) n) as [am|] eqn:Ham; [|done].
  cbn [mbind result_bind] in H.
  destruct (Torch.chunk (map_tensor _ (map_tensor _ T)) n) as [tt|] eqn:Htt; [|done].
  cbn [mbind result_bind] in H. injection H as <-.
  cbn [input_segments attention_mask token_type_ids].
  pose proof (chunk_shape _ _ _ _ _ Hids Ham eq_refl) as [E12 F1].
  pose proof (chunk_shape _ _ _ _ _ Ham Htt eq_refl) as [E23 F2].
  pose proof (chunk_shape _ _ _ _ _ Htt Htt eq_refl) as [_ F3].
  unfold map_tensor in *. cbn [t_rows] in *. rewrite !length_fmap in *.
  repeat split; try congruence. by exists (length (t_rows T)).
Qed.
(** ** Properties of the loop *)

Section LoopFacts.
Context {vec loss_t : Type}.
Variables (self : RMT) (model : Model vec loss_t) (kwargs : gmap string (list Z)).
Implicit Types (st : State vec loss_t) (sg : Segmented) (i : Z).
Implicit Types (ids am tt : list (list Z)).
Implicit Types (segs : list (list (list Z) * list (list Z) * list (list Z))).

(** A step either is skipped, or calls the model once and appends the
    reference of the new output. *)
Lemma step_cases sg i ids am tt st st1 :
  step self model kwargs sg i (ids, am, tt) st = Ok st1 ->
  (drop_empty_segments self = true
   /\ Forall (fun row => row = empty self) ids
   /\ st1 = {| memory := Mem3 (expand (memory st) (length ids));
               outputs := outputs st; out := out st; heap := heap st;
               trace := after_detach self sg i st |})
  \/ (exists mi m1,
        (drop_empty_segments self = true ->
         ~ Forall (fun row => row = empty self) ids)
        /\ st1 = {| memory := Mem3 m1;
                    outputs := outputs st ++ [length (heap st)];
                    out := Some (length (heap st));
                    heap := heap st ++ [forward model mi];
                    trace := after_detach self sg i st
                               ++ [EvForward i mi (length (heap st))] |}).
Proof.
  intros H. destruct (drop_empty_segments self) eqn:Hdrop.
  - destruct (decide (count_true (non_empty self ids) = 0)) as [Hz|Hnz].
    + left. rewrite step_skip in H by done. injection H as <-.
      by rewrite <- non_empty_all_empty.
    + right. destruct (step_drop_inv _ _ _ _ _ _ _ _ _ _ Hdrop Hnz H)
        as (labels & emb & m1 & _ & _ & _ & _ & _ & ->).
      do 2 eexists. split; [|done]. intros _. by rewrite <- non_empty_all_empty.
  - right. destruct (step_keep_inv _ _ _ _ _ _ _ _ _ _ Hdrop H) as (emb & _ & ->).
    do 2 eexists. split; [done|reflexivity].
Qed.

Lemma step_refs_ok sg i ids am tt st st1 :
  step self model kwargs sg i (ids, am, tt) st = Ok st1 ->
  refs_ok st -> refs_ok st1.
Proof.
  intros H [Houts Hout].
  destruct (step_cases _ _ _ _ _ _ _ H) as [(_ & _ & ->)|(mi & m1 & _ & ->)].
  - done.
  - split; cbn [outputs heap out].
    + rewrite length_app. cbn [length]. rewrite Nat.add_1_r, seq_S. by f_equal.
    + by rewrite last_snoc.
Qed.

Lemma loop_refs_ok sg i segs st st' :
  loop self model kwargs sg i segs st = Ok st' -> refs_ok st -> refs_ok st'.
Proof.
  revert i st. induction segs as [|[[ids am] tt] segs IH]; intros i st H Hok.
  - by injection H as <-.
  - cbn [loop] in H. bind_ok H. eapply IH; [exact H|]. by eapply step_refs_ok.
Qed.

Lemma detach_test_spec sg i :
  detach_test self sg i = true <->
  bptt_depth self > -1 /\ 3 - i > bptt_depth self.
Proof.
  unfold detach_test, len_segmented. rewrite andb_true_iff, !Z.gtb_gt. done.
Qed.

Lemma step_detach sg i ids am tt st st1 (j : Z) :
  step self model kwargs sg i (ids, am, tt) st = Ok st1 ->
  EvDetach j ∈ trace st1 <->
  EvDetach j ∈ trace st \/ (j = i /\ detach_test self sg i = true).
Proof.
  intros H.
  assert (EvDetach j ∈ after_detach self sg i st <->
          EvDetach j ∈ trace st \/ (j = i /\ detach_test self sg i = true)) as Hd.
  { unfold after_detach. destruct (detach_test self sg i).
    - rewrite elem_of_app, list_elem_of_singleton. split.
      + intros [?|[= ->]]; [by left|by right].
      + intros [?|[-> _]]; [by left|by right].
    - split; [by left|]. by intros [?|[_ ?]]. }
  destruct (step_cases _ _ _ _ _ _ _ H) as [(_ & _ & ->)|(mi & m1 & _ & ->)];
    cbn [trace]; [done|].
  rewrite elem_of_app, list_elem_of_singleton, Hd. split; [|by left].
  by intros [?|?].
Qed.

(** Which steps of a run of the loop call [memory.detach()]. *)
Lemma loop_detach sg i segs st st' (j : Z) :
  loop self model kwargs sg i segs st = Ok st' ->
  EvDetach j ∈ trace st' <->
  EvDetach j ∈ trace st
  \/ (i <= j < i + Z.of_nat (length segs) /\ detach_test self sg j = true).
Proof.
  revert i st. induction segs as [|[[ids am] tt] segs IH]; intros i st H.
  - injection H as <-. simpl. split; [by left|]. intros [?|[? _]]; [done|lia].
  - cbn [loop] in H. bind_ok H. rewrite (IH _ _ H).
    match goal with Hs : step _ _ _ _ _ _ _ = Ok _ |- _ =>
      rewrite (step_detach _ _ _ _ _ _ _ _ Hs) end.
    cbn [length]. split.
    + intros [[?|[-> ?]]|[? ?]]; [by left|right|right]; split; try done; lia.
    + intros [?|[Hj Ht]]; [by left; left|].
      destruct (decide (j = i)) as [->|]; [left; by right|].
      right. split; [lia|done].
Qed.

End LoopFacts.

Lemma zip_segmented_length (sg : Segmented) :
  length (attention_mask sg) = length (input_segments sg) ->
  length (token_type_ids sg) = length (input_segments sg) ->
  length (zip_segmented sg) = length (input_segments sg)
  /\ (zip_segmented sg).*1.*1 = input_segments sg.
Proof.
  intros Ham Htt. unfold zip_segmented. split.
  - rewrite !length_zip_with. lia.
  - rewrite fst_zip by (rewrite length_zip_with; lia).
    apply fst_zip. lia.
Qed.

Lemma lookup_all_refs {A} (l : list A) :
  (fun r : nat => l !! r) <$> seq 0 (length l) = Some <$> l.
Proof.
  apply list_eq. intros i. rewrite !list_lookup_fmap.
  destruct (decide (i < length l)%nat) as [Hi|Hi].
  - rewrite lookup_seq_lt by done. simpl.
    destruct (lookup_lt_is_Some_2 l i Hi) as [x Hx]. by rewrite Hx.
  - rewrite lookup_seq_ge, lookup_ge_None_2 by lia. done.
Qed.

Section CallFacts.
Context {vec loss_t : Type}.
Variables (self : RMT) (model : Model vec loss_t) (kwargs : gmap string (list Z)).
Implicit Types (st : State vec loss_t) (sg : Segmented).

Lemma aggregate_trace st st' :
  aggregate self model st = Ok st' -> trace st' = trace st.
Proof.
  unfold aggregate. destruct (sum_loss self); [|by intros [= <-]].
  intros H. destruct (for_each _ _) as [losses|]; [|done].
  cbn [mbind result_bind] in H.
  destruct losses; [done|]. cbn [mbind result_bind] in H.
  destruct (out st); [|done]. cbn [mbind result_bind] in H. by injection H as <-.
Qed.

Lemma aggregate_off st :
  sum_loss self = false -> aggregate self model st = Ok st.
Proof. intros H. unfold aggregate. by rewrite H. Qed.

Lemma losses_of_heap (h : list (ModelOutput vec loss_t)) (losses : list loss_t) :
  for_each (loss_of h) (seq 0 (length h)) = Ok losses ->
  Forall2 (fun o l => loss o = Some l) h losses.
Proof.
  rewrite for_each_Ok. intros H. apply Forall2_same_length_lookup. split.
  - apply Forall2_length in H. by rewrite length_seq in H.
  - intros r o l Ho Hl.
    assert (seq 0 (length h) !! r = Some r) as Hr.
    { apply lookup_seq_lt. by eapply lookup_lt_Some. }
    pose proof (Forall2_lookup_lr _ _ _ _ _ _ H Hr Hl) as Hloss.
    unfold loss_of in Hloss. rewrite Ho in Hloss.
    destruct o as [[l'|] ?]; [|done]. by injection Hloss as ->.
Qed.

(** The sum of the losses goes to the output that [out] names: the last
    one. *)
Lemma aggregate_on st (losses : list loss_t) :
  sum_loss self = true ->
  refs_ok st ->
  outputs st <> [] ->
  for_each (loss_of (heap st)) (outputs st) = Ok losses ->
  exists os o,
    heap st = os ++ [o]
    /\ Forall2 (fun o l => loss o = Some l) (os ++ [o]) losses
    /\ exists st',
         aggregate self model st = Ok st'
         /\ returned st'
            = (Some <$> os) ++ [Some (set_loss (tensor_sum model losses) o)].
Proof.
  intros Hsum [Houts Hout] Hne Hlosses.
  assert (heap st <> []) as Hheap.
  { intros E. rewrite E in Houts. by rewrite Houts in Hne. }
  destruct (exists_last Hheap) as (os & o & Eh).
  exists os, o. split; [done|].
  rewrite Houts, Eh in Hlosses.
  split; [by apply losses_of_heap|].
  unfold aggregate. rewrite Hsum, Houts, Eh, Hlosses. cbn [mbind result_bind].
  assert (losses <> []) as Hl.
  { apply for_each_Ok, Forall2_length in Hlosses.
    rewrite length_seq, length_app in Hlosses. simpl in Hlosses.
    destruct losses; [simpl in Hlosses; lia|done]. }
  destruct losses as [|l0 losses]; [done|]. cbn [mbind result_bind].
  rewrite Hout, Houts, Eh, length_app. cbn [length].
  rewrite Nat.add_1_r, seq_S, last_snoc. cbn [mbind result_bind].
  eexists. split; [reflexivity|].
  unfold returned. cbn [outputs heap].
  change (0 + length os)%nat with (length os).
  rewrite <- seq_S.
  replace (alter (set_loss (tensor_sum model (l0 :: losses))) (length os) (os ++ [o]))
    with (os ++ [set_loss (tensor_sum model (l0 :: losses)) o]).
  2:{ replace (length os) with (length os + 0)%nat at 1 by lia.
      by rewrite alter_app_r. }
  replace (S (length os))
    with (length (os ++ [set_loss (tensor_sum model (l0 :: losses)) o])).
  2:{ rewrite length_app. simpl. lia. }
  by rewrite lookup_all_refs, fmap_app.
Qed.

End CallFacts.

Lemma rank_all_true {A} (l : list A) (b : nat) :
  (b <= length l)%nat -> rank ((fun _ => true) <$> l) b = b.
Proof.
  unfold rank. revert b. induction l as [|x l IH]; intros [|b] Hb; try done.
  - simpl in Hb. lia.
  - cbn [fmap list_fmap take]. rewrite filter_cons_True by done.
    cbn [length]. f_equal. apply IH. simpl in Hb. lia.
Qed.

Section MemoryFacts.
Context {vec loss_t : Type}.
Variables (self : RMT) (model : Model vec loss_t) (kwargs : gmap string (list Z)).
Implicit Types (st : State vec loss_t) (sg : Segmented) (i : Z).
Implicit Types (ids am tt : list (list Z)).
Implicit Types (segs : list (list (list Z) * list (list Z) * list (list Z))).

(** What an executed step does with the memory: the model receives, for
    each example that takes part, the memory that the state holds for it;
    afterwards the state holds, for these examples, the first [M] rows of
    the final hidden layer of the output, and for the others what it held
    before. *)
Lemma step_memory sg i ids am tt st st1 :
  step self model kwargs sg i (ids, am, tt) st = Ok st1 ->
  outputs st1 <> outputs st ->
  let mask := step_mask self ids in
  let mem_in := expand (memory st) (length ids) in
  exists mi m1,
    last (trace st1) = Some (EvForward i mi (length (heap st)))
    /\ heap st1 !! length (heap st) = Some (forward model mi)
    /\ memory st1 = Mem3 m1
    /\ (forall b : nat, mask !! b = Some true ->
          fed_memory self mi !! rank mask b = mem_in !! b)
    /\ (forall b : nat, mask !! b = Some true ->
          m1 !! b = memory_of self (forward model mi) !! rank mask b)
    /\ (forall b : nat, mask !! b = Some false -> m1 !! b = mem_in !! b)
    /\ length mem_in = length ids.
Proof.
  intros H Hexec mask mem_in. unfold step_mask in mask.
  destruct (drop_empty_segments self) eqn:Hdrop.
  - destruct (decide (count_true (non_empty self ids) = 0)) as [Hz|Hnz].
    { rewrite step_skip in H by done. by injection H as <-. }
    destruct (step_drop_inv _ _ _ _ _ _ _ _ _ _ Hdrop Hnz H)
      as (labels & emb & m1 & _ & _ & Hmem & Hemb & Hassign & ->).
    fold mask mem_in in Hmem, Hemb, Hassign.
    assert (length mask = length mem_in) as Hmask.
    { rewrite Hmem. unfold mask, non_empty. by rewrite length_fmap. }
    destruct (mask_assign_spec _ _ _ _ Hassign) as (_ & _ & Hfalse & Htrue).
    do 2 eexists. cbn [trace heap memory].
    split; [by rewrite last_snoc|].
    split; [by rewrite list_lookup_middle|].
    split; [reflexivity|]. repeat split; try done.
    intros b Hb. unfold fed_memory. cbn [inputs_embeds].
    rewrite (set_memory_slots_fed _ _ _ _ Hemb). by apply select_lookup.
  - destruct (step_keep_inv _ _ _ _ _ _ _ _ _ _ Hdrop H) as (emb & Hemb & ->).
    fold mem_in in Hemb.
    assert (forall b : nat, mask !! b = Some true -> rank mask b = b) as Hrank.
    { intros b Hb. apply rank_all_true. apply lookup_lt_Some in Hb.
      unfold mask in Hb. rewrite length_fmap in Hb. lia. }
    do 2 eexists. cbn [trace heap memory].
    split; [by rewrite last_snoc|].
    split; [by rewrite list_lookup_middle|].
    split; [reflexivity|]. repeat split.
    + intros b Hb. rewrite Hrank by done. unfold fed_memory. cbn [inputs_embeds].
      by rewrite (set_memory_slots_fed _ _ _ _ Hemb).
    + intros b Hb. by rewrite Hrank.
    + intros b Hb. unfold mask in Hb. rewrite list_lookup_fmap in Hb.
      by destruct (ids !! b).
    + unfold set_memory_slots in Hemb.
      destruct (decide _) as [[Hlen _]|] in Hemb; [|done].
      unfold embed in Hlen. by rewrite length_fmap in Hlen.
Qed.



End MemoryFacts.

Section SkipFacts.
Context {vec loss_t : Type}.
Variables (self : RMT) (model : Model vec loss_t) (kwargs : gmap string (list Z)).
Implicit Types (st : State vec loss_t) (sg : Segmented) (i : Z).
Implicit Types (ids am tt : list (list Z)).
Implicit Types (segs : list (list (list Z) * list (list Z) * list (list Z))).

Lemma after_detach_no_forward sg i st (j : Z) (mi : ModelInput vec) (r : nat) :
  EvForward j mi r ∈ after_detach self sg i st -> EvForward j mi r ∈ trace st.
Proof.
  unfold after_detach. destruct (detach_test self sg i); [|done].
  rewrite elem_of_app, list_elem_of_singleton. by intros [?|?].
Qed.

(** A run of the loop over steps in which every example has the empty
    segment: it ends, without any call of the model and without any new
    output. *)
Lemma loop_all_empty sg i segs st :
  drop_empty_segments self = true ->
  Forall (fun seg => all_empty self seg.1.1) segs ->
  exists st',
    loop self model kwargs sg i segs st = Ok st'
    /\ outputs st' = outputs st /\ out st' = out st /\ heap st' = heap st
    /\ forall (j : Z) mi r, EvForward j mi r ∈ trace st' -> EvForward j mi r ∈ trace st.
Proof.
  intros Hdrop Hall. revert i st.
  induction Hall as [|[[ids am] tt] segs Hids _ IH]; intros i st.
  - by exists st.
  - cbn [loop]. rewrite step_skip by (by try apply non_empty_all_empty).
    cbn [mbind result_bind].
    destruct (IH (i + 1) {| memory := Mem3 (expand (memory st) (length ids));
                            outputs := outputs st; out := out st;
                            heap := heap st;
                            trace := after_detach self sg i st |})
      as (st' & Hloop & Houts & Hout & Hheap & Htrace).
    exists st'. repeat split; try done.
    intros j mi r Hj. eapply after_detach_no_forward. by apply Htrace.
Qed.



End SkipFacts.

Lemma snoc_neq {A} (l : list A) (x : A) : l ++ [x] <> l.
Proof.
  intros H. apply (f_equal length) in H. rewrite length_app in H. simpl in H. lia.
Qed.

Lemma zip_segmented_Forall (sg : Segmented) (P : list (list Z) -> Prop) :
  Forall P (input_segments sg) -> Forall (fun seg => P seg.1.1) (zip_segmented sg).
Proof.
  intros H. apply Forall_forall. intros [[ids am] tt] Hin.
  rewrite Forall_forall in H. apply H. unfold zip_segmented in Hin.
  apply elem_of_zip_l in Hin. by apply elem_of_zip_l in Hin.
Qed.

(** * The claims

    One theorem for each claim on the segmenter and on the recurrent loop,
    by claim number; the lemmas above are shared. *)

(** C1, as the code has it. In a call that returns, [memory.detach()] is
    called in the step of index [j] exactly when [bptt_depth > -1] and
    [3 - j > bptt_depth]: line 77 measures [len(segmented)], the length of
    the 3-tuple that [pad_and_segment] returns, not the number of segments.
    With [bptt_depth = -1] no step detaches. *)
Theorem detach_follows_tuple_length {vec loss_t} self (model : Model vec loss_t)
    (kwargs : gmap string (list Z)) (t : Tensor2) (st : State vec loss_t) :
  run self model kwargs t = Ok st ->
  exists sg,
    pad_and_segment self t = Ok sg
    /\ (forall j : Z,
          EvDetach j ∈ trace st <->
          0 <= j < Z.of_nat (length (input_segments sg))
          /\ bptt_depth self > -1 /\ 3 - j > bptt_depth self)
    /\ (bptt_depth self = -1 -> forall j : Z, EvDetach j ∉ trace st).
Proof.
  unfold run. intros H.
  destruct (pad_and_segment self t) as [sg|] eqn:Hsg; [|done].
  cbn [mbind result_bind] in H.
  destruct (loop _ _ _ _ _ _ _) as [st0|] eqn:Hloop; [|done].
  cbn [mbind result_bind] in H.
  exists sg. split; [done|].
  destruct (pad_and_segment_aligned _ _ _ Hsg) as (Ham & Htt & _).
  destruct (zip_segmented_length sg Ham Htt) as [Hlen _].
  assert (forall j : Z,
            EvDetach j ∈ trace st <->
            0 <= j < Z.of_nat (length (input_segments sg))
            /\ bptt_depth self > -1 /\ 3 - j > bptt_depth self) as Hiff.
  { intros j. rewrite (aggregate_trace _ _ _ _ H).
    rewrite (loop_detach _ _ _ _ _ _ _ _ j Hloop), detach_test_spec, Hlen.
    cbn [init trace]. rewrite elem_of_nil. split.
    - intros [[]|[? ?]]. split; [lia|done].
    - intros [? ?]. right. split; [lia|done]. }
  split; [exact Hiff|].
  intros Hd j Hj. apply Hiff in Hj. lia.
Qed.

(** The call that shows the divergence from C1: two segments and
    [bptt_depth = 1]. The memory that enters the last segment (index 1) is
    detached, although [n_segments - 1 = 1] does not exceed the depth. *)
Lemma detach_at_last_segment :
  exists st sg,
    run scenario_bptt1 (toy_model 4) (with_labels [1]) scenario_input = Ok st
    /\ pad_and_segment scenario_bptt1 scenario_input = Ok sg
    /\ Z.of_nat (length (input_segments sg)) = 2
    /\ EvDetach 1 ∈ trace st
    /\ ~ (Z.of_nat (length (input_segments sg)) - 1 > bptt_depth scenario_bptt1).
Proof.
  destruct (run scenario_bptt1 (toy_model 4) (with_labels [1]) scenario_input)
    as [st|] eqn:Erun; [|by vm_compute in Erun].
  destruct (detach_follows_tuple_length _ _ _ _ _ Erun) as (sg & Hsg & Hiff & _).
  exists st, sg. split; [done|]. split; [done|].
  assert (Z.of_nat (length (input_segments sg)) = 2) as Hn.
  { vm_compute in Hsg. injection Hsg as <-. reflexivity. }
  split; [done|]. split.
  - apply Hiff. rewrite Hn. cbn [bptt_depth scenario_bptt1]. lia.
  - rewrite Hn. cbn [bptt_depth scenario_bptt1]. lia.
Defined.

(** C2, as the code has it. When [sum_loss] is set and at least one step has
    run, each with a loss in its output, the call returns the outputs of the
    steps in order, all unchanged but the LAST one, whose [loss] entry now is
    the sum of the losses of all of them. *)
Theorem summed_loss_on_last_output {vec loss_t} self (model : Model vec loss_t)
    (kwargs : gmap string (list Z)) (t : Tensor2) (sg : Segmented)
    (st : State vec loss_t) (losses : list loss_t) :
  sum_loss self = true ->
  pad_and_segment self t = Ok sg ->
  loop self model kwargs sg 0 (zip_segmented sg) (init self model) = Ok st ->
  outputs st <> [] ->
  for_each (loss_of (heap st)) (outputs st) = Ok losses ->
  exists os o,
    returned st = Some <$> (os ++ [o])
    /\ Forall2 (fun o l => loss o = Some l) (os ++ [o]) losses
    /\ call self model kwargs t
       = Ok ((Some <$> os) ++ [Some (set_loss (tensor_sum model losses) o)]).
Proof.
  intros Hsum Hsg Hloop Hne Hlosses.
  assert (refs_ok st) as Hok.
  { eapply loop_refs_ok; [exact Hloop|]. by split. }
  destruct (aggregate_on self model st losses Hsum Hok Hne Hlosses)
    as (os & o & Hheap & Hall & st' & Hagg & Hret).
  exists os, o. repeat split; [|done|].
  - unfold returned. destruct Hok as [-> _]. by rewrite lookup_all_refs, Hheap.
  - unfold call, run. rewrite Hsg. cbn [mbind result_bind].
    rewrite Hloop. cbn [mbind result_bind]. rewrite Hagg. cbn [mbind result_bind].
    by rewrite Hret.
Qed.

Lemma summed_loss_on_last_output_witness :
  exists os o,
    Forall2 (fun o l => loss o = Some l) (os ++ [o])
      (QArith_base.inject_Z <$> [1; 2; 3])
    /\ call tiny (toy_model 3) (with_labels [1]) tiny_input
       = Ok ((Some <$> os) ++ [Some (set_loss (QArith_base.inject_Z 6) o)]).
Proof.
  destruct (pad_and_segment tiny tiny_input) as [sg|] eqn:Esg;
    [|by vm_compute in Esg].
  destruct (loop tiny (toy_model 3) (with_labels [1]) sg 0 (zip_segmented sg)
              (init tiny (toy_model 3))) as [st|] eqn:Eloop.
  2:{ vm_compute in Esg. injection Esg as <-. by vm_compute in Eloop. }
  assert (outputs st = [0; 1; 2]%nat
          /\ for_each (loss_of (heap st)) (outputs st)
             = Ok (QArith_base.inject_Z <$> [1; 2; 3])) as [Houts Hlosses].
  { vm_compute in Esg. injection Esg as <-.
    vm_compute in Eloop. injection Eloop as <-. by vm_compute. }
  destruct (summed_loss_on_last_output tiny (toy_model 3) (with_labels [1])
              tiny_input sg st _ eq_refl Esg Eloop
              ltac:(by rewrite Houts) Hlosses)
    as (os & o & _ & Hall & Hcall).
  exists os, o. split; [exact Hall|exact Hcall].
Defined.

(** C2 as stated fails: with three executed segments of losses 1, 2 and 3,
    the first output of the returned list keeps its own loss, 1; the sum, 6,
    is on the last output. *)
Lemma summed_loss_not_on_first_output :
  exists o1 o2 o3,
    call tiny (toy_model 3) (with_labels [1]) tiny_input
    = Ok [Some o1; Some o2; Some o3]
    /\ loss o1 = Some (QArith_base.inject_Z 1)
    /\ loss o1 <> Some (QArith_base.inject_Z 6)
    /\ loss o2 = Some (QArith_base.inject_Z 2)
    /\ loss o3 = Some (QArith_base.inject_Z 6).
Proof.
  do 3 eexists. split; [vm_compute; reflexivity|].
  repeat split; try reflexivity. discriminate.
Qed.

(** C3, as the code has it. The number of segments is computed from the
    width [W] of the input tensor, padding and boundary markers included:
    it is [ceil(W / k)]. A row whose stripped content has length [L] fills
    the last [ceil(L / k)] of them; the segments before are copies of the
    empty segment. *)
Theorem n_segments_from_width self (t : Tensor2) (sg : Segmented) :
  wf_tensor t ->
  pad_and_segment self t = Ok sg ->
  let k := seg_capacity self in
  let n := length (input_segments sg) in
  Py.ceil_div (Z.of_nat (t_cols t)) k = Ok (Z.of_nat n)
  /\ (0 < n)%nat
  /\ forall b row, t_rows t !! b = Some row ->
       exists chunks,
         content_chunks k (strip self row) = Ok chunks
         /\ Py.ceil_div (Z.of_nat (length (strip self row))) k
            = Ok (Z.of_nat (length chunks))
         /\ (length chunks <= n)%nat
         /\ example_segments sg b
            = replicate (n - length chunks) (empty self) ++ (wrap self <$> chunks).
Proof.
  intros Hwf Hsg k n.
  pose proof (pad_and_segment_capacity _ _ _ Hsg) as Hk.
  destruct (pad_and_segment_inv self t sg Hwf Hsg) as (N & rs & HN & _ & Hn & _ & Hin).
  assert (n = N) as HnN by (unfold n; by rewrite Hin, length_fmap, length_seq).
  repeat split.
  - rewrite HnN. exact Hn.
  - lia.
  - intros b row Hrow.
    destruct (example_segments_spec self t sg b row Hwf Hsg Hrow)
      as (chunks & Hc & _ & Hcount & _ & Hle & Hsegs).
    exists chunks. repeat split; try done.
    rewrite ceil_div_pos by done. by rewrite Hcount.
Qed.

Lemma n_segments_from_width_witness :
  exists sg, pad_and_segment scenario short_input = Ok sg
    /\ Py.ceil_div 6 5 = Ok (Z.of_nat (length (input_segments sg))).
Proof.
  eexists. split; [vm_compute; reflexivity|].
  eapply (proj1 (n_segments_from_width scenario short_input _ _ _)).
  Unshelve.
  - repeat constructor.
  - vm_compute; reflexivity.
Defined.

(** C3 as stated fails: a row of 6 tokens without any padding has 4 content
    tokens, which fit one segment of capacity 5 ([ceil(4 / 5) = 1]), yet the
    segmentation has [ceil(6 / 5) = 2] segments. *)
Lemma n_segments_not_from_content :
  exists sg row,
    pad_and_segment scenario short_input = Ok sg
    /\ t_rows short_input = [row]
    /\ Py.ceil_div (Z.of_nat (length (strip scenario row))) (seg_capacity scenario)
       = Ok 1
    /\ Z.of_nat (length (input_segments sg)) = 2
    /\ Ok (Z.of_nat (length (input_segments sg)))
       <> Py.ceil_div (Z.of_nat (length (strip scenario row))) (seg_capacity scenario).
Proof.
  do 2 eexists. split; [vm_compute; reflexivity|].
  split; [reflexivity|]. split; [reflexivity|]. split; [reflexivity|].
  vm_compute. discriminate.
Qed.

(** C4. For every row, the segments of that row are built around contents
    whose concatenation, in order, is the stripped content of the row; and
    when the separator is not the padding value 0, these contents are read
    back from the segments by dropping the start marker, the memory slots,
    the separators and the padding. *)
Theorem content_reconstruction self (t : Tensor2) (sg : Segmented) (b : nat)
    (row : list Z) :
  wf_tensor t ->
  pad_and_segment self t = Ok sg ->
  t_rows t !! b = Some row ->
  (exists contents,
      example_segments sg b = wrap self <$> contents
      /\ concat contents = strip self row)
  /\ (sep_token self <> 0 ->
      concat (segment_content self <$> example_segments sg b) = strip self row).
Proof.
  intros Hwf Hsg Hrow.
  destruct (example_segments_spec self t sg b row Hwf Hsg Hrow)
    as (chunks & _ & Hcat & _ & _ & _ & Hsegs).
  set (contents :=
         replicate (length (input_segments sg) - length chunks) [] ++ chunks).
  assert (example_segments sg b = wrap self <$> contents) as Hwrap.
  { unfold contents. by rewrite Hsegs, fmap_app, fmap_replicate. }
  assert (concat contents = strip self row) as Hconcat.
  { unfold contents. rewrite concat_app, <- Hcat.
    assert (forall m, concat (replicate m (@nil Z)) = []) as ->; [|done].
    induction m; [done|]. simpl. done. }
  split; [by exists contents|].
  intros Hsep. rewrite Hwrap, <- list_fmap_compose, <- Hconcat. f_equal.
  rewrite <- (list_fmap_id contents) at 2.
  apply list_fmap_ext. intros i c _. simpl. by apply segment_content_wrap.
Qed.

Lemma content_reconstruction_witness :
  exists sg, pad_and_segment scenario scenario_input = Ok sg
    /\ concat (segment_content scenario <$> example_segments sg 0)
       = [5; 6; 7; 8; 9; 10; 11].
Proof.
  eexists. split; [vm_compute; reflexivity|].
  eapply (proj2 (content_reconstruction scenario scenario_input _ 0%nat
                   [101; 5; 6; 7; 8; 9; 10; 11; 102] _ _ _)).
  Unshelve.
  - discriminate.
  - repeat constructor.
  - vm_compute; reflexivity.
  - reflexivity.
Defined.



(** C6, as the code has it. With empty-segment dropping enabled: a step
    leaves the memory of an example whose segment is the empty segment as
    it was; a step in which every example has the empty segment succeeds
    without calling the model and without appending an output (its trace
    gains at most the detach event); and when every segment of the batch
    is the empty segment, the loop ends with no output and no call of the
    model. What the call then does depends on [sum_loss]: without it the
    call returns the empty list; with it the call does not return, line
    110 raises [RuntimeError] on the empty list of losses. *)
Theorem empty_segments_are_skipped {vec loss_t} self (model : Model vec loss_t)
    (kwargs : gmap string (list Z)) :
  drop_empty_segments self = true ->
  (forall sg (i : Z) ids am tt (st st1 : State vec loss_t) (b : nat),
     step self model kwargs sg i (ids, am, tt) st = Ok st1 ->
     ids !! b = Some (empty self) ->
     exists m1,
       memory st1 = Mem3 m1
       /\ m1 !! b = expand (memory st) (length ids) !! b)
  /\ (forall sg (i : Z) ids am tt (st : State vec loss_t),
        all_empty self ids ->
        step self model kwargs sg i (ids, am, tt) st
        = Ok {| memory := Mem3 (expand (memory st) (length ids));
                outputs := outputs st; out := out st; heap := heap st;
                trace := after_detach self sg i st |}
        /\ forall (j : Z) mi r,
             EvForward j mi r ∈ after_detach self sg i st ->
             EvForward j mi r ∈ trace st)
  /\ (forall (t : Tensor2) sg,
        pad_and_segment self t = Ok sg ->
        Forall (all_empty self) (input_segments sg) ->
        (exists st : State vec loss_t,
           loop self model kwargs sg 0 (zip_segmented sg) (init self model) = Ok st
           /\ outputs st = [] /\ heap st = []
           /\ forall (j : Z) mi r, EvForward j mi r ∉ trace st)
        /\ (sum_loss self = false -> call self model kwargs t = Ok [])
        /\ (sum_loss self = true ->
            call self model kwargs t = Raise RuntimeError)).
Proof.
  intros Hdrop. split; [|split].
  - intros sg i ids am tt st st1 b H Hb.
    destruct (step_cases _ _ _ _ _ _ _ _ _ _ H) as [(_ & _ & ->)|(mi & m1 & _ & E)].
    + by eexists.
    + assert (outputs st1 <> outputs st) as Hx.
      { rewrite E. cbn [outputs]. apply snoc_neq. }
      destruct (step_memory self model kwargs _ _ _ _ _ _ _ H Hx)
        as (mi' & m1' & _ & _ & Hmem & _ & _ & Hkeep).
      exists m1'. split; [done|]. apply Hkeep.
      unfold step_mask. rewrite Hdrop. by apply non_empty_false.
  - intros sg i ids am tt st Hall. split.
    + apply step_skip; [done|]. by apply non_empty_all_empty.
    + intros j mi r. apply after_detach_no_forward.
  - intros t sg Hsg Hall.
    destruct (loop_all_empty self model kwargs sg 0 (zip_segmented sg)
                (init self model) Hdrop)
      as (st & Hloop & Houts & _ & Hheap & Htrace).
    { by apply (zip_segmented_Forall sg (all_empty self)). }
    cbn [init outputs heap trace] in Houts, Hheap, Htrace.
    split; [|split].
    + exists st. repeat split; try done.
      intros j mi r Hj. apply Htrace in Hj. by apply elem_of_nil in Hj.
    + intros Hsum. unfold call, run. rewrite Hsg. cbn [mbind result_bind].
      rewrite Hloop. cbn [mbind result_bind]. rewrite aggregate_off by done.
      cbn [mbind result_bind]. unfold returned. by rewrite Houts.
    + intros Hsum. unfold call, run. rewrite Hsg. cbn [mbind result_bind].
      rewrite Hloop. cbn [mbind result_bind]. unfold aggregate.
      by rewrite Hsum, Houts.
Qed.

Lemma empty_segments_are_skipped_witness :
  (exists st : State Z QArith_base.Q,
     loop scenario (toy_model 4) ∅
          {| input_segments := [[empty scenario]];
             attention_mask := [[[1; 1; 1; 1; 1; 0; 0; 0; 0; 0]]];
             token_type_ids := [[[0; 0; 0; 0; 0; 0; 0; 0; 0; 0]]] |}
          0 [([empty scenario], [[1; 1; 1; 1; 1; 0; 0; 0; 0; 0]],
              [[0; 0; 0; 0; 0; 0; 0; 0; 0; 0]])]
          (init scenario (toy_model 4)) = Ok st
     /\ outputs st = [] /\ heap st = []
     /\ forall (j : Z) mi r, EvForward j mi r ∉ trace st)
  /\ call scenario (toy_model 4) ∅ blank_input = Ok [].
Proof.
  destruct (proj2 (proj2 (empty_segments_are_skipped scenario (toy_model 4) ∅ eq_refl))
              blank_input
              {| input_segments := [[empty scenario]];
                 attention_mask := [[[1; 1; 1; 1; 1; 0; 0; 0; 0; 0]]];
                 token_type_ids := [[[0; 0; 0; 0; 0; 0; 0; 0; 0; 0]]] |})
    as (Hloop & Hcall & _).
  - vm_compute. reflexivity.
  - repeat constructor.
  - split; [exact Hloop|]. by apply Hcall.
Defined.

(** C6 as stated fails: with [sum_loss] set, a batch whose only segment is
    the empty segment does not give zero outputs; the call raises
    [RuntimeError] where the caller was to receive an empty list. *)
Lemma empty_batch_with_summed_loss_raises :
  exists sg,
    drop_empty_segments tiny = true
    /\ sum_loss tiny = true
    /\ pad_and_segment tiny blank_input = Ok sg
    /\ Forall (all_empty tiny) (input_segments sg)
    /\ call tiny (toy_model 3) (with_labels [1]) blank_input = Raise RuntimeError
    /\ call tiny (toy_model 3) (with_labels [1]) blank_input <> Ok [].
Proof.
  eexists. split; [reflexivity|]. split; [reflexivity|].
  split; [vm_compute; reflexivity|]. split; [repeat constructor|].
  split; [vm_compute; reflexivity|]. vm_compute. discriminate.
Qed.



(** C8. In every segmentation that [pad_and_segment] returns, every segment
    of every example, and the empty segment itself, has exactly
    [input_size] tokens; the content capacity is [input_size - M - 3], or
    the configured [input_seg_size] when that is smaller, and no segment
    holds more content than that. *)
Theorem segment_length_invariant self (t : Tensor2) (sg : Segmented) :
  wf_tensor t ->
  pad_and_segment self t = Ok sg ->
  (forall seg row, seg ∈ input_segments sg -> row ∈ seg ->
     Z.of_nat (length row) = input_size self)
  /\ Z.of_nat (length (empty self)) = input_size self
  /\ seg_capacity self
     = (let cap := input_size self - Z.of_nat (num_mem_tokens self) - 3 in
        match input_seg_size self with
        | Some c => Z.min c cap
        | None => cap
        end)
  /\ (forall b row, t_rows t !! b = Some row ->
        exists contents,
          example_segments sg b = wrap self <$> contents
          /\ Forall (fun c => Z.of_nat (length c) <= seg_capacity self) contents).
Proof.
  intros Hwf Hsg. pose proof (pad_and_segment_capacity _ _ _ Hsg) as Hk.
  assert (forall b row, t_rows t !! b = Some row ->
            exists contents,
              example_segments sg b = wrap self <$> contents
              /\ Forall (fun c => Z.of_nat (length c) <= seg_capacity self) contents)
    as Hcontents.
  { intros b row Hrow.
    destruct (example_segments_spec self t sg b row Hwf Hsg Hrow)
      as (chunks & _ & _ & _ & Hall & _ & Hsegs).
    exists (replicate (length (input_segments sg) - length chunks) [] ++ chunks).
    split.
    - by rewrite Hsegs, fmap_app, fmap_replicate.
    - apply Forall_app. split.
      + apply Forall_replicate. simpl. lia.
      + eapply Forall_impl; [exact Hall|]. simpl. lia. }
  repeat split.
  - intros seg row Hseg Hin.
    apply list_elem_of_lookup in Hseg as [j Hj].
    apply list_elem_of_lookup in Hin as [b Hb].
    destruct (pad_and_segment_inv self t sg Hwf Hsg) as (N & rs & _ & _ & _ & Hrs & Hin).
    assert (is_Some (t_rows t !! b)) as [trow Htrow].
    { apply lookup_lt_is_Some. rewrite (Forall2_length _ _ _ Hrs).
      rewrite Hin, list_lookup_fmap in Hj.
      destruct (seq 0 N !! j); [|done]. injection Hj as <-.
      apply lookup_lt_Some in Hb. by rewrite length_fmap in Hb. }
    destruct (Hcontents b trow Htrow) as (contents & Hsegs & Hall).
    assert (example_segments sg b !! j = Some row) as Hrow.
    { unfold example_segments. by rewrite list_lookup_fmap, Hj; simpl; rewrite Hb. }
    rewrite Hsegs, list_lookup_fmap in Hrow.
    destruct (contents !! j) as [c|] eqn:Ec; [|done]. injection Hrow as <-.
    apply wrap_length. rewrite Forall_forall in Hall.
    apply Hall. by eapply list_elem_of_lookup_2.
  - by apply empty_length.
  - unfold seg_capacity. cbn zeta. destruct (input_seg_size self) as [c|]; [|done].
    destruct (Z.ltb_spec c (input_size self - Z.of_nat (num_mem_tokens self) - 3)); lia.
  - exact Hcontents.
Qed.

Lemma segment_length_invariant_witness :
  exists sg, pad_and_segment scenario scenario_input = Ok sg
    /\ Z.of_nat (length (empty scenario)) = input_size scenario
    /\ forall seg row, seg ∈ input_segments sg -> row ∈ seg ->
         Z.of_nat (length row) = input_size scenario.
Proof.
  eexists. split; [vm_compute; reflexivity|].
  assert (wf_tensor scenario_input) as Hwf by (repeat constructor).
  match goal with
  | |- context [input_segments ?sg] =>
      assert (pad_and_segment scenario scenario_input = Ok sg) as Hsg
        by (vm_compute; reflexivity);
      destruct (segment_length_invariant scenario scenario_input sg Hwf Hsg)
        as (H1 & H2 & _)
  end.
  split; [exact H2|exact H1].
Defined.

(** C9. When the length [L] of the stripped content of a row is not a
    multiple of the capacity [k], the segments of that row are: copies of
    the empty segment, then one segment with [L mod k] content tokens (at
    least one, fewer than [k]), then segments with exactly [k] content
    tokens each; the contents, in order, make up the stripped row. The
    contents are those that the segments hold: each segment is, token for
    token, the start marker, the memory-slot ids, the separator, its
    content, the separator and zeros up to [input_size]; and, when the
    separator is not 0, reading the content back from each segment gives
    nothing for the empty segments, then the short content, then the full
    ones. *)
Theorem first_segment_shorter self (t : Tensor2) (sg : Segmented) (b : nat)
    (row : list Z) :
  wf_tensor t ->
  pad_and_segment self t = Ok sg ->
  t_rows t !! b = Some row ->
  let k := seg_capacity self in
  let L := Z.of_nat (length (strip self row)) in
  L mod k <> 0 ->
  exists (e : nat) (c0 : list Z) (rest : list (list Z)),
    example_segments sg b
    = replicate e (empty self) ++ wrap self c0 :: (wrap self <$> rest)
    /\ Z.of_nat (length c0) = L mod k
    /\ 0 < Z.of_nat (length c0) < k
    /\ Forall (fun c => Z.of_nat (length c) = k) rest
    /\ c0 ++ concat rest = strip self row
    /\ (let tokens := fun c : list Z =>
           [cls_token self] ++ mem_token_ids self ++ [sep_token self]
             ++ c ++ [sep_token self]
             ++ replicate
                  (Z.to_nat (input_size self
                             - (Z.of_nat (num_mem_tokens self) + 3
                                + Z.of_nat (length c)))) 0 in
        example_segments sg b
        = replicate e (tokens []) ++ tokens c0 :: (tokens <$> rest))
    /\ (sep_token self <> 0 ->
        segment_content self <$> example_segments sg b
        = replicate e [] ++ c0 :: rest).
Proof.
  intros Hwf Hsg Hrow k L Hmod.
  pose proof (pad_and_segment_capacity _ _ _ Hsg) as Hk.
  destruct (example_segments_spec self t sg b row Hwf Hsg Hrow)
    as (chunks & Hc & Hcat & _ & _ & _ & Hsegs).
  destruct (content_chunks_spec k (strip self row) Hk)
    as (chunks' & Hc' & _ & _ & _ & Hshape).
  fold k in Hc. rewrite Hc in Hc'. injection Hc' as <-.
  destruct (Hshape Hmod) as (c0 & rest & -> & Hc0 & Hrest).
  exists (length (input_segments sg) - length (c0 :: rest))%nat, c0, rest.
  pose proof (Z.mod_pos_bound L k Hk) as Hr. fold L in Hc0.
  split; [done|]. split; [done|]. split; [lia|]. split; [done|].
  split; [done|]. split.
  - intros tokens.
    assert (forall c, wrap self c = tokens c) as Htokens.
    { intros c. unfold wrap, tokens. apply pad_add_special_tokens_layout. }
    rewrite Hsegs. cbn [fmap list_fmap]. rewrite <- !Htokens.
    f_equal. f_equal. apply list_fmap_ext. intros j c _. apply Htokens.
  - intros Hsep. rewrite Hsegs, fmap_app, fmap_replicate. cbn [fmap list_fmap].
    change (empty self) with (wrap self []).
    rewrite !segment_content_wrap by done. f_equal. f_equal.
    rewrite <- list_fmap_compose. rewrite <- (list_fmap_id rest) at 2.
    apply list_fmap_ext. intros j c _. simpl. by apply segment_content_wrap.
Qed.

Lemma first_segment_shorter_witness :
  exists sg, pad_and_segment scenario scenario_input = Ok sg
    /\ example_segments sg 0
       = [[101; 30000; 30001; 102; 5; 6; 102; 0; 0; 0];
          [101; 30000; 30001; 102; 7; 8; 9; 10; 11; 102]]
    /\ segment_content scenario <$> example_segments sg 0
       = [[5; 6]; [7; 8; 9; 10; 11]]
    /\ exists (e : nat) (c0 : list Z) (rest : list (list Z)),
         example_segments sg 0
         = replicate e (empty scenario) ++ wrap scenario c0 :: (wrap scenario <$> rest)
         /\ Z.of_nat (length c0) = 7 mod 5
         /\ 0 < Z.of_nat (length c0) < 5
         /\ Forall (fun c => Z.of_nat (length c) = 5) rest
         /\ c0 ++ concat rest = [5; 6; 7; 8; 9; 10; 11]
         /\ segment_content scenario <$> example_segments sg 0
            = replicate e [] ++ c0 :: rest.
Proof.
  eassert (pad_and_segment scenario scenario_input = Ok _) as Hsg
    by (vm_compute; reflexivity).
  assert (wf_tensor scenario_input) as Hwf by repeat constructor.
  destruct (first_segment_shorter scenario scenario_input _ 0%nat
              [101; 5; 6; 7; 8; 9; 10; 11; 102] Hwf Hsg eq_refl)
    as (e & c0 & rest & H1 & H2 & H3 & H4 & H5 & _ & H7).
  { vm_compute. discriminate. }
  eexists. split; [exact Hsg|]. split; [vm_compute; reflexivity|].
  split; [vm_compute; reflexivity|].
  exists e, c0, rest. split; [exact H1|]. split; [exact H2|].
  split; [exact H3|]. split; [exact H4|]. split; [exact H5|].
  apply H7. discriminate.
Defined.


(** * Further properties of the segmenter *)

Lemma slice_fmap {A B} (f : A -> B) (s e : option Z) (l : list A) :
  Py.slice s e (f <$> l) = f <$> Py.slice s e l.
Proof. unfold Py.slice. by rewrite length_fmap, fmap_take, fmap_drop. Qed.

Lemma chunk_map_tensor (f : Z -> Z) (t : Tensor2) (n : Z)
    (cs : list (list (list Z))) :
  Torch.chunk t n = Ok cs ->
  Torch.chunk (map_tensor f t) n
  = Ok ((fun c : list (list Z) => (fun r : list Z => f <$> r) <$> c) <$> cs).
Proof.
  unfold Torch.chunk, map_tensor. cbn [t_rows t_cols].
  destruct (n <=? 0); [done|].
  destruct (_ && _); intros [= <-]; f_equal.
  - rewrite fmap_replicate. f_equal. rewrite <- !list_fmap_compose.
    by apply list_fmap_ext.
  - rewrite <- !list_fmap_compose. apply list_fmap_ext. intros i j _. simpl.
    rewrite <- !list_fmap_compose. apply list_fmap_ext. intros b r _. simpl.
    apply slice_fmap.
Qed.

Lemma masks_of_segmentation self (t : Tensor2) (sg : Segmented) :
  pad_and_segment self t = Ok sg ->
  attention_mask sg
  = (fun seg : list (list Z) => (fun row : list Z => mask_bit self <$> row) <$> seg)
      <$> input_segments sg
  /\ token_type_ids sg
     = (fun seg : list (list Z) => (fun row : list Z => (fun _ => 0) <$> row) <$> seg)
         <$> input_segments sg.
Proof.
  unfold pad_and_segment. intros H.
  destruct (n_segments_of self t) as [n|]; [|done]. cbn [mbind result_bind] in H.
  destruct (for_each _ _) as [aug|]; [|done]. cbn [mbind result_bind] in H.
  destruct (Torch.stack aug) as [T|]; [|done]. cbn [mbind result_bind] in H.
  destruct (Torch.chunk T n) as [ids|] eqn:Hids; [|done].
  cbn [mbind result_bind] in H.
  rewrite (chunk_map_tensor _ _ _ _ Hids) in H. cbn [mbind result_bind] in H.
  rewrite (chunk_map_tensor _ _ _ _ (chunk_map_tensor _ _ _ _ Hids)) in H.
  cbn [mbind result_bind] in H. injection H as <-.
  cbn [input_segments attention_mask token_type_ids]. split; [done|].
  rewrite <- list_fmap_compose. apply list_fmap_ext. intros j seg _. simpl.
  rewrite <- list_fmap_compose. apply list_fmap_ext. intros b row _. simpl.
  by rewrite <- list_fmap_compose.
Qed.
(** Every row of every step tensor is a segment built around a part of the
    stripped content of the row of its example. *)
Lemma segment_is_wrapped self (t : Tensor2) (sg : Segmented) (j b : nat)
    (seg : list (list Z)) (row : list Z) :
  wf_tensor t ->
  pad_and_segment self t = Ok sg ->
  input_segments sg !! j = Some seg ->
  seg !! b = Some row ->
  exists trow contents c,
    t_rows t !! b = Some trow
    /\ example_segments sg b = wrap self <$> contents
    /\ concat contents = strip self trow
    /\ contents !! j = Some c
    /\ row = wrap self c
    /\ Z.of_nat (length c) <= seg_capacity self.
Proof.
  intros Hwf Hsg Hj Hb.
  destruct (pad_and_segment_inv self t sg Hwf Hsg) as (N & rs & _ & _ & _ & Hrs & Hin).
  assert (is_Some (t_rows t !! b)) as [trow Htrow].
  { apply lookup_lt_is_Some. rewrite (Forall2_length _ _ _ Hrs).
    rewrite Hin, list_lookup_fmap in Hj.
    destruct (seq 0 N !! j); [|done]. injection Hj as <-.
    apply lookup_lt_Some in Hb. by rewrite length_fmap in Hb. }
  destruct (example_segments_spec self t sg b trow Hwf Hsg Htrow)
    as (chunks & _ & Hcat & _ & Hall & _ & Hsegs).
  set (contents :=
         replicate (length (input_segments sg) - length chunks) [] ++ chunks).
  assert (example_segments sg b = wrap self <$> contents) as Hwrap.
  { unfold contents. by rewrite Hsegs, fmap_app, fmap_replicate. }
  assert (example_segments sg b !! j = Some row) as Hrow.
  { unfold example_segments. by rewrite list_lookup_fmap, Hj; simpl; rewrite Hb. }
  rewrite Hwrap, list_lookup_fmap in Hrow.
  destruct (contents !! j) as [c|] eqn:Ec; [|done]. injection Hrow as <-.
  exists trow, contents, c. repeat split; try done.
  - unfold contents. rewrite concat_app, <- Hcat.
    assert (forall m, concat (replicate m (@nil Z)) = []) as ->; [|done].
    induction m; [done|]. simpl. done.
  - pose proof (pad_and_segment_capacity _ _ _ Hsg) as Hk.
    apply list_elem_of_lookup_2 in Ec. unfold contents in Ec.
    apply elem_of_app in Ec as [Ec|Ec].
    + apply elem_of_replicate in Ec as [-> _]. simpl. lia.
    + rewrite Forall_forall in Hall. apply Hall in Ec. lia.
Qed.

Lemma mem_token_ids_range self :
  Forall (fun id => vocab_size self <= id < extended_vocab_size self)
         (mem_token_ids self)
  /\ NoDup (mem_token_ids self).
Proof.
  unfold mem_token_ids, extended_vocab_size. split.
  - apply Forall_fmap, Forall_forall. intros i Hi. apply elem_of_seq in Hi.
    simpl. lia.
  - apply NoDup_fmap_2; [|apply NoDup_seq]. intros i i' Hii. lia.
Qed.

(** X1. Every segment that [pad_and_segment] returns starts with the start
    marker, followed by the [M] memory-slot ids and the separator. The
    memory-slot ids are the [M] distinct ids from [vocab_size] up to the
    extended vocabulary size, so none of them is an id of the original
    vocabulary. *)
Theorem segment_header self (t : Tensor2) (sg : Segmented) :
  wf_tensor t ->
  pad_and_segment self t = Ok sg ->
  (forall seg row, seg ∈ input_segments sg -> row ∈ seg ->
     take (num_mem_tokens self + 2) row
     = [cls_token self] ++ mem_token_ids self ++ [sep_token self])
  /\ length (mem_token_ids self) = num_mem_tokens self
  /\ Forall (fun id => vocab_size self <= id < extended_vocab_size self)
            (mem_token_ids self)
  /\ NoDup (mem_token_ids self).
Proof.
  intros Hwf Hsg. split; [|split; [apply mem_token_ids_length|apply mem_token_ids_range]].
  intros seg row Hseg Hrow.
  apply list_elem_of_lookup in Hseg as [j Hj].
  apply list_elem_of_lookup in Hrow as [b Hb].
  destruct (segment_is_wrapped self t sg j b seg row Hwf Hsg Hj Hb)
    as (_ & _ & c & _ & _ & _ & _ & -> & _).
  unfold wrap. rewrite pad_add_special_tokens_layout.
  rewrite (app_assoc [cls_token self]), (app_assoc _ [sep_token self]).
  apply take_app_length'.
  rewrite !length_app, mem_token_ids_length. simpl. lia.
Qed.

Lemma segment_header_witness :
  exists sg, pad_and_segment scenario scenario_input = Ok sg
    /\ forall seg row, seg ∈ input_segments sg -> row ∈ seg ->
         take 4 row = [101; 30000; 30001; 102].
Proof.
  eexists. split; [vm_compute; reflexivity|].
  eapply (proj1 (segment_header scenario scenario_input _ _ _)).
  Unshelve.
  - repeat constructor.
  - vm_compute; reflexivity.
Defined.
Lemma strip_pad_free self (row : list Z) :
  Forall (fun x => x <> pad_token_id self) (strip self row).
Proof.
  unfold strip. rewrite slice_1_m1, removelast_firstn_len. apply Forall_take.
  assert (Forall (fun x => x <> pad_token_id self)
            (filter (fun x => x ≠ pad_token_id self) row)) as Hkept.
  { apply Forall_forall. intros x Hx. by apply list_elem_of_filter in Hx as [? _]. }
  destruct (filter _ row); [done|]. by inversion Hkept.
Qed.

Lemma lookup_masks self (t : Tensor2) (sg : Segmented) (j b : nat)
    (seg : list (list Z)) (row : list Z) :
  pad_and_segment self t = Ok sg ->
  input_segments sg !! j = Some seg ->
  seg !! b = Some row ->
  exists am tt,
    attention_mask sg !! j = Some am
    /\ am !! b = Some (mask_bit self <$> row)
    /\ token_type_ids sg !! j = Some tt
    /\ tt !! b = Some ((fun _ => 0) <$> row).
Proof.
  intros Hsg Hj Hb. destruct (masks_of_segmentation self t sg Hsg) as [-> ->].
  exists ((fun row : list Z => mask_bit self <$> row) <$> seg),
         ((fun row : list Z => (fun _ => 0) <$> row) <$> seg).
  rewrite !list_lookup_fmap, Hj, Hb. done.
Qed.

(** X2. In what [pad_and_segment] returns, the attention mask of every
    segment has a 0 exactly where the segment holds [pad_token_id] and a 1
    elsewhere, and its type ids are zeros; both have the shape of the
    segment. *)
Theorem masks_follow_segments self (t : Tensor2) (sg : Segmented) :
  pad_and_segment self t = Ok sg ->
  length (attention_mask sg) = length (input_segments sg)
  /\ length (token_type_ids sg) = length (input_segments sg)
  /\ forall (j b : nat) seg row,
       input_segments sg !! j = Some seg ->
       seg !! b = Some row ->
       exists am tt mask types,
         attention_mask sg !! j = Some am /\ am !! b = Some mask
         /\ token_type_ids sg !! j = Some tt /\ tt !! b = Some types
         /\ length seg = length am /\ length seg = length tt
         /\ length mask = length row /\ length types = length row
         /\ (forall (p : nat) x, row !! p = Some x ->
               mask !! p = Some (if decide (x = pad_token_id self) then 0 else 1)
               /\ types !! p = Some 0).
Proof.
  intros Hsg. destruct (masks_of_segmentation self t sg Hsg) as [Ham Htt].
  split; [by rewrite Ham, length_fmap|]. split; [by rewrite Htt, length_fmap|].
  intros j b seg row Hj Hb.
  destruct (lookup_masks self t sg j b seg row Hsg Hj Hb)
    as (am & tt & Hamj & Hamb & Httj & Httb).
  exists am, tt, (mask_bit self <$> row), ((fun _ => 0) <$> row).
  rewrite Ham, list_lookup_fmap, Hj in Hamj. injection Hamj as <-.
  rewrite Htt, list_lookup_fmap, Hj in Httj. injection Httj as <-.
  rewrite !length_fmap. repeat split; try done.
  - by rewrite Ham, list_lookup_fmap, Hj.
  - by rewrite Htt, list_lookup_fmap, Hj.
  - rewrite list_lookup_fmap. by match goal with Hp : row !! _ = _ |- _ => rewrite Hp end.
  - rewrite list_lookup_fmap. by match goal with Hp : row !! _ = _ |- _ => rewrite Hp end.
Qed.

Lemma masks_follow_segments_witness :
  exists sg, pad_and_segment scenario scenario_input = Ok sg
    /\ length (attention_mask sg) = length (input_segments sg)
    /\ attention_mask sg !! 0%nat = Some [[1; 1; 1; 1; 1; 1; 1; 0; 0; 0]].
Proof.
  eexists. split; [vm_compute; reflexivity|].
  split; [|vm_compute; reflexivity].
  eapply (proj1 (masks_follow_segments scenario scenario_input _ _)).
  Unshelve. vm_compute; reflexivity.
Defined.
Lemma mask_bit_not_pad self (l : list Z) :
  Forall (fun x => x <> pad_token_id self) l ->
  mask_bit self <$> l = replicate (length l) 1.
Proof.
  induction 1 as [|x l Hx _ IH]; [done|]. cbn [fmap list_fmap length replicate].
  fold (fmap (M:=list) (mask_bit self) l). rewrite IH. f_equal.
  unfold mask_bit. by destruct (decide (x = pad_token_id self)).
Qed.

(** X3. When neither the start marker, nor the separator, nor a
    memory-slot id is the pad id, the attention mask of a segment is 1 on
    the start marker, the memory slots, the separators and the content, and
    on the padding behind them it is 0 if [pad_token_id] is 0 and 1
    otherwise: the segment is padded with the constant 0, whatever
    [pad_token_id] is, so a non-zero pad id leaves the whole mask at 1. *)
Theorem attention_covers_tokens self (t : Tensor2) (sg : Segmented) :
  wf_tensor t ->
  pad_and_segment self t = Ok sg ->
  cls_token self <> pad_token_id self ->
  sep_token self <> pad_token_id self ->
  pad_token_id self ∉ mem_token_ids self ->
  forall (j b : nat) seg row,
    input_segments sg !! j = Some seg ->
    seg !! b = Some row ->
    exists am mask c,
      attention_mask sg !! j = Some am /\ am !! b = Some mask
      /\ row = wrap self c
      /\ let used := (num_mem_tokens self + 3 + length c)%nat in
         (pad_token_id self = 0 ->
          mask = replicate used 1 ++ replicate (length row - used) 0)
         /\ (pad_token_id self <> 0 -> mask = replicate (length row) 1).
Proof.
  intros Hwf Hsg Hcls Hsep Hmem j b seg row Hj Hb.
  destruct (lookup_masks self t sg j b seg row Hsg Hj Hb)
    as (am & _ & Hamj & Hamb & _).
  destruct (segment_is_wrapped self t sg j b seg row Hwf Hsg Hj Hb)
    as (trow & contents & c & _ & _ & Hcat & Hc & -> & Hlen).
  exists am, (mask_bit self <$> wrap self c), c.
  split; [done|]. split; [done|]. split; [done|]. cbn zeta.
  assert (Forall (fun x => x <> pad_token_id self) c) as Hfree.
  { apply Forall_forall. intros x Hx.
    pose proof (strip_pad_free self trow) as Hstrip. rewrite <- Hcat in Hstrip.
    rewrite Forall_forall in Hstrip. apply Hstrip.
    apply list_elem_of_In, in_concat. exists c. split; apply list_elem_of_In; [|done].
    by eapply list_elem_of_lookup_2. }
  set (core := [cls_token self] ++ mem_token_ids self ++ [sep_token self] ++ c
                 ++ [sep_token self]).
  assert (Forall (fun x => x <> pad_token_id self) core) as Hcore.
  { unfold core. repeat (apply Forall_app; split); try by repeat constructor.
    apply Forall_forall. intros x Hx ->. done. }
  assert (length core = (num_mem_tokens self + 3 + length c)%nat) as Hcorelen.
  { unfold core. rewrite !length_app, mem_token_ids_length. simpl. lia. }
  assert (wrap self c
          = core ++ replicate
              (Z.to_nat (input_size self - (Z.of_nat (num_mem_tokens self) + 3
                                            + Z.of_nat (length c)))) 0) as Hwrap.
  { unfold wrap. rewrite pad_add_special_tokens_layout. unfold core.
    by rewrite <- !app_assoc. }
  rewrite Hwrap, fmap_app, mask_bit_not_pad, fmap_replicate, Hcorelen by done.
  rewrite length_app, length_replicate, Hcorelen.
  replace (num_mem_tokens self + 3 + length c
           + Z.to_nat (input_size self - (Z.of_nat (num_mem_tokens self) + 3
                                          + Z.of_nat (length c)))
           - (num_mem_tokens self + 3 + length c))%nat
    with (Z.to_nat (input_size self - (Z.of_nat (num_mem_tokens self) + 3
                                       + Z.of_nat (length c)))) by lia.
  unfold mask_bit. split.
  - intros Hpad. by rewrite decide_True.
  - intros Hpad. rewrite decide_False by done. by rewrite <- replicate_add.
Qed.

Lemma attention_covers_tokens_witness :
  exists sg am mask c,
    pad_and_segment scenario scenario_input = Ok sg
    /\ attention_mask sg !! 0%nat = Some am /\ am !! 0%nat = Some mask
    /\ [101; 30000; 30001; 102; 5; 6; 102; 0; 0; 0] = wrap scenario c
    /\ mask = replicate (2 + 3 + length c) 1
              ++ replicate (10 - (2 + 3 + length c)) 0.
Proof.
  eassert (pad_and_segment scenario scenario_input = Ok _) as Hsg
    by (vm_compute; reflexivity).
  destruct (attention_covers_tokens scenario scenario_input _
              ltac:(repeat constructor) Hsg ltac:(discriminate) ltac:(discriminate)
              ltac:(vm_compute; intros H; repeat (apply elem_of_cons in H as [H|H]; [discriminate|]); by apply elem_of_nil in H)
              0%nat 0%nat [[101; 30000; 30001; 102; 5; 6; 102; 0; 0; 0]]
              [101; 30000; 30001; 102; 5; 6; 102; 0; 0; 0] eq_refl eq_refl)
    as (am & mask & c & Ham & Hmask & Hc & Hzero & _).
  eexists _, am, mask, c. split; [exact Hsg|].
  split; [exact Ham|]. split; [exact Hmask|]. split; [exact Hc|].
  exact (Hzero eq_refl).
Defined.
Lemma row_segments_total self (W : nat) (row : list Z) :
  0 < seg_capacity self ->
  length row = W ->
  let n := (Z.of_nat W + seg_capacity self - 1) / seg_capacity self in
  exists segs,
    row_segments self n row = Ok segs
    /\ length segs = Z.to_nat n
    /\ Forall (fun s => length s = Z.to_nat (input_size self)) segs.
Proof.
  intros Hk Hrow n.
  destruct (row_segments_spec self n row Hk) as (chunks & _ & _ & _ & _ & Hsegs).
  eexists. split; [exact Hsegs|]. split.
  - pose proof (row_segments_count self W row _ Hk Hrow Hsegs). fold n in H. lia.
  - eapply Forall_impl; [exact (row_segments_lengths _ _ _ _ Hk Hsegs)|].
    simpl. lia.
Qed.

Lemma stack_uniform (ts : list (list Z)) (c : nat) :
  ts <> [] -> Forall (fun r => length r = c) ts ->
  Torch.stack ts = Ok {| t_rows := ts; t_cols := c |}.
Proof.
  intros Hne Hall. unfold Torch.stack. destruct ts as [|t0 ts]; [done|].
  assert (length t0 = c) as Ht0 by (by inversion Hall).
  rewrite Ht0.
  assert (forallb (fun r : list Z => (length r =? c)%nat) (t0 :: ts) = true) as ->;
    [|done].
  apply forallb_forall. intros r Hr. apply Nat.eqb_eq.
  rewrite Forall_forall in Hall. apply Hall. by apply list_elem_of_In.
Qed.

Lemma chunk_total (t : Tensor2) (n : Z) :
  0 < n -> exists cs, Torch.chunk t n = Ok cs.
Proof.
  intros Hn. unfold Torch.chunk. destruct (Z.leb_spec n 0); [lia|].
  destruct (_ && _); by eexists.
Qed.

Lemma pad_and_segment_succeeds self (t : Tensor2) :
  wf_tensor t ->
  0 < seg_capacity self -> t_cols t <> 0%nat -> t_rows t <> [] ->
  exists sg, pad_and_segment self t = Ok sg.
Proof.
  intros Hwf Hk HW Hrows. unfold pad_and_segment, n_segments_of.
  rewrite ceil_div_pos by done.
  set (n := (Z.of_nat (t_cols t) + seg_capacity self - 1) / seg_capacity self).
  cbn [mbind result_bind].
  assert (1 <= n) as Hn.
  { unfold n. apply Z.div_le_lower_bound; lia. }
  set (N := Z.to_nat n). set (sz := Z.to_nat (input_size self)).
  pose proof (seg_capacity_le self) as Hcap.
  assert (exists rs,
            Forall2 (fun row segs => row_segments self n row = Ok segs
                                     /\ length segs = N) (t_rows t) rs
            /\ Forall (fun segs => length segs = N
                                   /\ Forall (fun s => length s = sz) segs) rs)
    as (rs & Hrs & Hall).
  { unfold wf_tensor in Hwf. clear Hrows.
    induction Hwf as [|row rows Hrow _ (rs & Hrs & Hall)].
    - exists []. split; constructor.
    - destruct (row_segments_total self (t_cols t) row Hk Hrow)
        as (segs & Hsegs & Hlen & Hsz).
      exists (segs :: rs). split; constructor; done. }
  assert (for_each (augment_row self n) (t_rows t)
          = Ok ((fun segs : list (list Z) => concat segs) <$> rs)) as ->.
  { apply for_each_Ok. apply Forall2_fmap_r.
    eapply Forall2_impl; [exact Hrs|].
    intros row segs [Hsegs Hlen]. unfold augment_row. simpl. rewrite Hsegs.
    cbn [mbind result_bind]. destruct segs; [simpl in Hlen; lia|done]. }
  cbn [mbind result_bind].
  rewrite (stack_uniform _ (N * sz)).
  - cbn [mbind result_bind].
    repeat match goal with
      | |- exists sg, (Torch.chunk ?T n ≫= _) = Ok sg =>
          destruct (chunk_total T n ltac:(lia)) as [? ->]; cbn [mbind result_bind]
      end.
    by eexists.
  - apply Forall2_length in Hrs. destruct rs; [|done].
    destruct (t_rows t); done.
  - apply Forall_fmap. eapply Forall_impl; [exact Hall|]. simpl.
    intros segs [Hlen Hsz]. rewrite (concat_uniform_length segs sz) by done.
    by rewrite Hlen.
Qed.
Lemma for_each_raise_head {A B} (f : A -> result B) (x : A) (l : list A) (e : PyError) :
  f x = Raise e -> for_each f (x :: l) = Raise e.
Proof. intros H. cbn [for_each]. by rewrite H. Qed.

(** X4. For a rectangular batch, [pad_and_segment] returns exactly when the
    content capacity is positive, the batch has a row and the rows have a
    token. A capacity of zero raises [ZeroDivisionError] (line 120). With
    another capacity, a batch without rows raises the [RuntimeError] of
    [torch.stack] on an empty list (line 149); and a batch with rows raises
    the exception of [torch.cat] on an empty list (line 146), whose class
    depends on the release of torch, when the capacity is negative or the
    rows have no token. *)
Theorem pad_and_segment_domain self (t : Tensor2) :
  wf_tensor t ->
  (seg_capacity self = 0 -> pad_and_segment self t = Raise ZeroDivisionError)
  /\ (seg_capacity self <> 0 -> t_rows t = [] ->
      pad_and_segment self t = Raise RuntimeError)
  /\ (t_rows t <> [] ->
      seg_capacity self < 0 \/ (0 < seg_capacity self /\ t_cols t = 0%nat) ->
      pad_and_segment self t = Raise EmptyCatError)
  /\ (0 < seg_capacity self -> t_cols t <> 0%nat -> t_rows t <> [] ->
      exists sg, pad_and_segment self t = Ok sg).
Proof.
  intros Hwf. split; [|split; [|split]].
  - intros Hk. unfold pad_and_segment, n_segments_of, Py.ceil_div.
    by rewrite decide_True.
  - intros Hk Hrows. unfold pad_and_segment, n_segments_of, Py.ceil_div.
    rewrite Hrows. by destruct (decide (seg_capacity self = 0)).
  - intros Hrows Hcase. unfold pad_and_segment, n_segments_of.
    destruct (t_rows t) as [|row rows] eqn:Erows; [done|].
    assert (exists n, Py.ceil_div (Z.of_nat (t_cols t)) (seg_capacity self) = Ok n
                      /\ row_segments self n row = Ok []) as (n & -> & Hrow).
    { destruct Hcase as [Hneg|[Hpos HW]].
      - unfold Py.ceil_div. destruct (decide (seg_capacity self = 0)); [lia|].
        eexists. split; [done|]. apply row_segments_negative; [done|].
        pose proof (Z.div_mod (- Z.of_nat (t_cols t)) (seg_capacity self) ltac:(lia)).
        pose proof (Z.mod_neg_bound (- Z.of_nat (t_cols t)) (seg_capacity self) Hneg).
        nia.
      - rewrite ceil_div_pos by done. eexists. split; [done|].
        unfold wf_tensor in Hwf. rewrite Erows in Hwf.
        assert (row = []) as ->.
        { inversion Hwf as [|? ? Hlen _]. apply nil_length_inv. lia. }
        destruct (row_segments_spec self
                    ((Z.of_nat (t_cols t) + seg_capacity self - 1) / seg_capacity self)
                    [] Hpos) as (chunks & _ & _ & Hcount & _ & ->).
        assert (strip self [] = []) as Hs by done. rewrite Hs in Hcount.
        simpl in Hcount. rewrite HW.
        assert ((Z.of_nat 0 + seg_capacity self - 1) / seg_capacity self = 0) as E0.
        { apply Z.div_small. lia. }
        rewrite E0 in *. destruct chunks; [done|simpl in Hcount; lia]. }
    cbn [mbind result_bind]. rewrite (for_each_raise_head _ _ _ EmptyCatError); [done|].
    unfold augment_row. by rewrite Hrow.
  - by apply pad_and_segment_succeeds.
Qed.

Lemma pad_and_segment_domain_witness :
  pad_and_segment
    {| drop_empty_segments := true; sum_loss := false; input_size := 5;
       input_seg_size := None; num_mem_tokens := 2; bptt_depth := -1;
       pad_token_id := 0; cls_token := 101; sep_token := 102;
       vocab_size := 1000 |} scenario_input
  = Raise ZeroDivisionError
  /\ pad_and_segment scenario {| t_rows := []; t_cols := 9 |} = Raise RuntimeError
  /\ pad_and_segment scenario {| t_rows := [[]]; t_cols := 0 |} = Raise EmptyCatError
  /\ pad_and_segment
       {| drop_empty_segments := true; sum_loss := false; input_size := 4;
          input_seg_size := None; num_mem_tokens := 2; bptt_depth := -1;
          pad_token_id := 0; cls_token := 101; sep_token := 102;
          vocab_size := 1000 |} scenario_input
     = Raise EmptyCatError
  /\ exists sg, pad_and_segment scenario scenario_input = Ok sg.
Proof.
  assert (wf_tensor scenario_input) as Hwf by (repeat constructor).
  split; [|split; [|split; [|split]]].
  - apply (proj1 (pad_and_segment_domain _ scenario_input Hwf)). reflexivity.
  - apply (proj1 (proj2 (pad_and_segment_domain scenario
                           {| t_rows := []; t_cols := 9 |} ltac:(constructor))));
      [discriminate|reflexivity].
  - apply (proj1 (proj2 (proj2 (pad_and_segment_domain scenario
                                  {| t_rows := [[]]; t_cols := 0 |}
                                  ltac:(repeat constructor)))));
      [discriminate|].
    right. split; reflexivity.
  - apply (proj1 (proj2 (proj2 (pad_and_segment_domain _ scenario_input Hwf))));
      [discriminate|].
    left. reflexivity.
  - apply (proj2 (proj2 (proj2 (pad_and_segment_domain scenario scenario_input Hwf))));
      [reflexivity|discriminate|discriminate].
Defined.
Lemma step_tensor_rows self (t : Tensor2) (sg : Segmented) (j : nat)
    (ids : list (list Z)) :
  wf_tensor t ->
  pad_and_segment self t = Ok sg ->
  input_segments sg !! j = Some ids ->
  length ids = length (t_rows t).
Proof.
  intros Hwf Hsg Hj.
  destruct (pad_and_segment_inv self t sg Hwf Hsg) as (N & rs & _ & _ & _ & Hrs & Hin).
  rewrite Hin, list_lookup_fmap in Hj.
  destruct (seq 0 N !! j); [|done]. injection Hj as <-.
  by rewrite length_fmap, (Forall2_length _ _ _ Hrs).
Qed.

Lemma wrap_eq_empty self (c : list Z) :
  sep_token self <> 0 -> wrap self c = empty self <-> c = [].
Proof.
  intros Hsep. split; [|by intros ->].
  intros H. change (empty self) with (wrap self []) in H.
  apply (f_equal (segment_content self)) in H.
  by rewrite !segment_content_wrap in H.
Qed.

(** X5. With a separator other than 0, an example whose stripped content
    has length [L] takes part in exactly its last [ceil(L / k)] steps: the
    test against [self.empty] is false for the steps before, which hold
    copies of the empty segment, and true from then on. *)
Theorem example_joins_late self (t : Tensor2) (sg : Segmented) (b : nat)
    (trow : list Z) :
  wf_tensor t ->
  pad_and_segment self t = Ok sg ->
  t_rows t !! b = Some trow ->
  sep_token self <> 0 ->
  let k := seg_capacity self in
  let n := length (input_segments sg) in
  let m := Z.to_nat ((Z.of_nat (length (strip self trow)) + k - 1) / k) in
  (m <= n)%nat
  /\ forall (j : nat) ids,
       input_segments sg !! j = Some ids ->
       non_empty self ids !! b = Some (bool_decide (n - m <= j)%nat).
Proof.
  intros Hwf Hsg Hrow Hsep k n m.
  destruct (example_segments_spec self t sg b trow Hwf Hsg Hrow)
    as (chunks & _ & _ & Hcount & Hall & Hle & Hsegs).
  fold k in Hcount. assert (length chunks = m) as Hm by (unfold m; lia).
  rewrite Hm in *. fold n in Hle, Hsegs. split; [done|].
  intros j ids Hj.
  pose proof (step_tensor_rows self t sg j ids Hwf Hsg Hj) as Hbatch.
  destruct (lookup_lt_is_Some_2 ids b) as [row Hb].
  { rewrite Hbatch. by eapply lookup_lt_Some. }
  apply non_empty_lookup. exists row. split; [done|].
  assert (example_segments sg b !! j = Some row) as Hseg.
  { unfold example_segments. by rewrite list_lookup_fmap, Hj; simpl; rewrite Hb. }
  rewrite Hsegs in Hseg.
  destruct (decide (n - m <= j)%nat) as [Hge|Hlt].
  - rewrite bool_decide_eq_true_2 by done.
    rewrite lookup_app_r in Hseg by (rewrite length_replicate; lia).
    rewrite list_lookup_fmap in Hseg.
    destruct (chunks !! _) as [c|] eqn:Ec; [|done]. injection Hseg as <-.
    rewrite bool_decide_eq_false_2; [done|].
    rewrite wrap_eq_empty by done. intros ->.
    apply list_elem_of_lookup_2 in Ec. rewrite Forall_forall in Hall.
    apply Hall in Ec. simpl in Ec. lia.
  - rewrite bool_decide_eq_false_2 by done.
    rewrite lookup_app_l in Hseg by (rewrite length_replicate; lia).
    apply lookup_replicate in Hseg as [-> _].
    by rewrite bool_decide_eq_true_2.
Qed.

Lemma example_joins_late_witness :
  exists sg ids,
    pad_and_segment tiny ragged_input = Ok sg
    /\ input_segments sg !! 2%nat = Some ids
    /\ non_empty tiny ids !! 1%nat = Some false
    /\ non_empty tiny ids !! 0%nat = Some true.
Proof.
  eassert (pad_and_segment tiny ragged_input = Ok _) as Hsg
    by (vm_compute; reflexivity).
  assert (wf_tensor ragged_input) as Hwf by (repeat constructor).
  eexists _, _. split; [exact Hsg|]. split; [vm_compute; reflexivity|]. split.
  - refine (proj2 (example_joins_late tiny ragged_input _ 1%nat [101; 7; 102; 0]
                     Hwf Hsg eq_refl _) 2%nat _ _); [discriminate|reflexivity].
  - refine (proj2 (example_joins_late tiny ragged_input _ 0%nat [101; 1; 2; 102]
                     Hwf Hsg eq_refl _) 2%nat _ _); [discriminate|reflexivity].
Defined.
(** * Further properties of the loop *)

Section TraceFacts.
Context {vec loss_t : Type}.
Variables (self : RMT) (model : Model vec loss_t) (kwargs : gmap string (list Z)).
Implicit Types (st : State vec loss_t) (sg : Segmented) (i : Z).
Implicit Types (ids am tt : list (list Z)).
Implicit Types (segs : list (list (list Z) * list (list Z) * list (list Z))).

Lemma forward_steps_after_detach sg i st :
  forward_steps (after_detach self sg i st) = forward_steps (trace st)
  /\ forward_inputs (after_detach self sg i st) = forward_inputs (trace st).
Proof.
  unfold after_detach, forward_steps, forward_inputs.
  destruct (detach_test self sg i); [|done].
  rewrite !omap_app. simpl. by rewrite !app_nil_r.
Qed.

Lemma runs_model_spec ids :
  runs_model self ids = true <->
  drop_empty_segments self = false \/ ~ all_empty self ids.
Proof.
  unfold runs_model, all_empty. rewrite <- non_empty_all_empty.
  destruct (drop_empty_segments self).
  - rewrite negb_true_iff, Z.eqb_neq. split; [by right|]. by intros [|].
  - split; [by left|done].
Qed.

Lemma step_trace sg i ids am tt st st1 :
  step self model kwargs sg i (ids, am, tt) st = Ok st1 ->
  forward_steps (trace st1)
  = forward_steps (trace st) ++ (if runs_model self ids then [i] else [])
  /\ length (outputs st1)
     = (length (outputs st) + (if runs_model self ids then 1 else 0))%nat
  /\ (heap_ok model st -> heap_ok model st1).
Proof.
  intros H. destruct (forward_steps_after_detach sg i st) as [Hfs Hfi].
  destruct (step_cases _ _ _ _ _ _ _ _ _ _ H)
    as [(Hdrop & Hall & ->)|(mi & m1 & Hne & ->)]; cbn [trace outputs heap].
  - assert (runs_model self ids = false) as ->.
    { apply not_true_iff_false. rewrite runs_model_spec. intros [?|?]; [congruence|done]. }
    rewrite app_nil_r, Nat.add_0_r. unfold heap_ok. cbn [heap trace].
    by rewrite Hfs, Hfi.
  - assert (runs_model self ids = true) as ->.
    { apply runs_model_spec. destruct (drop_empty_segments self); [right; by apply Hne|by left]. }
    unfold heap_ok, forward_steps, forward_inputs in *. cbn [heap trace].
    rewrite !omap_app, Hfs, Hfi, length_app. simpl.
    repeat split; try done. intros ->. by rewrite fmap_app.
Qed.

Lemma loop_trace sg i segs st st' :
  loop self model kwargs sg i segs st = Ok st' ->
  forward_steps (trace st')
  = forward_steps (trace st) ++ executed_steps self i (segs.*1.*1)
  /\ length (outputs st')
     = (length (outputs st) + length (executed_steps self i (segs.*1.*1)))%nat
  /\ (heap_ok model st -> heap_ok model st').
Proof.
  revert i st. induction segs as [|[[ids am] tt] segs IH]; intros i st H.
  - injection H as <-. simpl. by rewrite app_nil_r, Nat.add_0_r.
  - cbn [loop] in H. bind_ok H.
    match goal with Hs : step _ _ _ _ _ _ _ = Ok _ |- _ =>
      destruct (step_trace _ _ _ _ _ _ _ Hs) as (Hfs & Hlen & Hheap) end.
    destruct (IH _ _ H) as (Hfs' & Hlen' & Hheap').
    cbn [fmap list_fmap fst executed_steps].
    rewrite Hfs', Hfs, Hlen', Hlen, length_app, <- app_assoc.
    repeat split; try done.
    + destruct (runs_model self ids); simpl; lia.
    + intros Hok. by apply Hheap', Hheap.
Qed.

Lemma executed_steps_length (i : Z) (l : list (list (list Z))) :
  (length (executed_steps self i l) <= length l)%nat
  /\ (drop_empty_segments self = false ->
      length (executed_steps self i l) = length l).
Proof.
  revert i. induction l as [|ids l IH]; intros i; [done|].
  cbn [executed_steps length]. rewrite length_app.
  destruct (IH (i + 1)) as [Hle Heq]. unfold runs_model.
  destruct (drop_empty_segments self).
  - split; [|done]. destruct (negb _); simpl; lia.
  - simpl. split; [lia|]. intros _. by rewrite Heq.
Qed.

Lemma aggregate_spec st st' :
  aggregate self model st = Ok st' ->
  trace st' = trace st /\ outputs st' = outputs st
  /\ length (heap st') = length (heap st)
  /\ forall (r : nat) o', heap st' !! r = Some o' ->
       exists o, heap st !! r = Some o
         /\ last_hidden_state o' = last_hidden_state o
         /\ (sum_loss self = false -> o' = o).
Proof.
  unfold aggregate. destruct (sum_loss self).
  - intros H. destruct (for_each _ _) as [losses|]; [|done].
    cbn [mbind result_bind] in H.
    destruct losses as [|l0 losses]; [done|]. cbn [mbind result_bind] in H.
    destruct (out st) as [r0|]; [|done]. cbn [mbind result_bind] in H.
    injection H as <-. cbn [trace outputs heap].
    rewrite length_alter. repeat split; try done.
    intros r o' Hr. destruct (decide (r0 = r)) as [->|Hne].
    + rewrite list_lookup_alter_eq in Hr.
      destruct (heap st !! r) as [o|]; [|done]. injection Hr as <-.
      exists o. by repeat split.
    + rewrite list_lookup_alter_ne in Hr by done. exists o'. by repeat split.
  - intros [= <-]. repeat split; try done. intros r o' Hr. by exists o'.
Qed.

End TraceFacts.
Lemma run_inv {vec loss_t} self (model : Model vec loss_t)
    (kwargs : gmap string (list Z)) (t : Tensor2) (st : State vec loss_t) :
  run self model kwargs t = Ok st ->
  exists sg st0,
    pad_and_segment self t = Ok sg
    /\ loop self model kwargs sg 0 (zip_segmented sg) (init self model) = Ok st0
    /\ aggregate self model st0 = Ok st
    /\ (zip_segmented sg).*1.*1 = input_segments sg.
Proof.
  unfold run. intros H.
  destruct (pad_and_segment self t) as [sg|] eqn:Hsg; [|done].
  cbn [mbind result_bind] in H.
  destruct (loop _ _ _ _ _ _ _) as [st0|] eqn:Hloop; [|done].
  cbn [mbind result_bind] in H. exists sg, st0. repeat split; try done.
  destruct (pad_and_segment_aligned _ _ _ Hsg) as (Ham & Htt & _).
  by apply zip_segmented_length.
Qed.

(** X6. In a call that returns, the model is called once for every step
    that is not skipped, in the order of the segments: for every segment
    when empty segments are kept, and for the segments in which some
    example is not empty when they are dropped. The call returns one output
    for each of these calls, hence at most as many as there are segments. *)
Theorem calls_follow_segments {vec loss_t} self (model : Model vec loss_t)
    (kwargs : gmap string (list Z)) (t : Tensor2) (st : State vec loss_t) :
  run self model kwargs t = Ok st ->
  exists sg,
    pad_and_segment self t = Ok sg
    /\ forward_steps (trace st) = executed_steps self 0 (input_segments sg)
    /\ length (returned st) = length (forward_steps (trace st))
    /\ (length (returned st) <= length (input_segments sg))%nat
    /\ (drop_empty_segments self = false ->
        forward_steps (trace st)
        = (fun j : nat => Z.of_nat j) <$> seq 0 (length (input_segments sg))).
Proof.
  intros H. destruct (run_inv _ _ _ _ _ H) as (sg & st0 & Hsg & Hloop & Hagg & Hids).
  destruct (loop_trace self model kwargs _ _ _ _ _ Hloop) as (Hfs & Hlen & _).
  destruct (aggregate_spec self model _ _ Hagg) as (Htr & Houts & _).
  rewrite Hids in Hfs, Hlen. cbn [init trace outputs] in Hfs, Hlen.
  unfold forward_steps in Hfs at 2. simpl in Hfs, Hlen.
  exists sg. split; [done|]. rewrite Htr. split; [done|].
  assert (length (returned st) = length (forward_steps (trace st0))) as Hret.
  { unfold returned. by rewrite length_fmap, Houts, Hlen, Hfs. }
  split; [done|]. split.
  - rewrite Hret, Hfs. apply executed_steps_length.
  - intros Hdrop. rewrite Hfs. clear -Hdrop.
    assert (forall (i : nat) l,
              executed_steps self (Z.of_nat i) l
              = (fun j : nat => Z.of_nat j) <$> seq i (length l)) as Hgen.
    { intros i l. revert i. induction l as [|ids l IH]; intros i; [done|].
      cbn [executed_steps length seq fmap list_fmap]. unfold runs_model.
      rewrite Hdrop. simpl. f_equal.
      replace (Z.of_nat i + 1) with (Z.of_nat (S i)) by lia. apply IH. }
    apply (Hgen 0%nat).
Qed.

Lemma calls_follow_segments_witness :
  exists st sg,
    run tiny (toy_model 3) (with_labels [1; 0]) ragged_input = Ok st
    /\ pad_and_segment tiny ragged_input = Ok sg
    /\ length (input_segments sg) = 4%nat
    /\ forward_steps (trace st) = [2; 3]
    /\ length (returned st) = 2%nat.
Proof.
  eassert (run tiny (toy_model 3) (with_labels [1; 0]) ragged_input = Ok _) as Hrun
    by (vm_compute; reflexivity).
  destruct (calls_follow_segments _ _ _ _ _ Hrun) as (sg & Hsg & Hfs & Hlen & _).
  eexists _, sg. split; [exact Hrun|]. split; [exact Hsg|].
  assert (Hsg' := Hsg). vm_compute in Hsg'. injection Hsg' as <-.
  split; [reflexivity|]. split; [exact Hfs|]. rewrite Hlen, Hfs. reflexivity.
Defined.

(** X7. The outputs that a call returns are, in order, the output objects
    that the model returned for its calls: untouched when losses are not
    summed, and with their hidden states untouched in any case. *)
Theorem returned_outputs_are_model_outputs {vec loss_t} self
    (model : Model vec loss_t) (kwargs : gmap string (list Z)) (t : Tensor2)
    (st : State vec loss_t) :
  run self model kwargs t = Ok st ->
  Forall2 (fun ro mi =>
             exists o, ro = Some o
               /\ last_hidden_state o = last_hidden_state (forward model mi)
               /\ (sum_loss self = false -> o = forward model mi))
          (returned st) (forward_inputs (trace st)).
Proof.
  intros H. destruct (run_inv _ _ _ _ _ H) as (sg & st0 & Hsg & Hloop & Hagg & _).
  destruct (loop_trace self model kwargs _ _ _ _ _ Hloop) as (_ & _ & Hheap).
  assert (heap_ok model st0) as Hok by (by apply Hheap).
  assert (refs_ok st0) as [Hrefs _].
  { eapply loop_refs_ok; [exact Hloop|]. by split. }
  destruct (aggregate_spec self model _ _ Hagg) as (Htr & Houts & Hlen & Hpt).
  assert (returned st = Some <$> heap st) as ->.
  { unfold returned. by rewrite Houts, Hrefs, <- Hlen, lookup_all_refs. }
  rewrite Htr. unfold heap_ok in Hok.
  apply Forall2_same_length_lookup. split.
  - by rewrite length_fmap, Hlen, Hok, length_fmap.
  - intros r ro mi Hro Hmi. rewrite list_lookup_fmap in Hro.
    destruct (heap st !! r) as [o'|] eqn:Ho'; [|done]. injection Hro as <-.
    destruct (Hpt r o' Ho') as (o & Ho & Hhidden & Hsame).
    rewrite Hok, list_lookup_fmap, Hmi in Ho. injection Ho as <-.
    exists o'. by repeat split.
Qed.

Lemma returned_outputs_are_model_outputs_witness :
  exists st,
    run tiny (toy_model 3) (with_labels [1]) tiny_input = Ok st
    /\ length (forward_inputs (trace st)) = 3%nat
    /\ Forall2 (fun ro mi =>
                  exists o, ro = Some o
                    /\ last_hidden_state o
                       = last_hidden_state (forward (toy_model 3) mi)
                    /\ (sum_loss tiny = false -> o = forward (toy_model 3) mi))
               (returned st) (forward_inputs (trace st)).
Proof.
  eassert (run tiny (toy_model 3) (with_labels [1]) tiny_input = Ok _) as Hrun
    by (vm_compute; reflexivity).
  eexists. split; [exact Hrun|]. split; [reflexivity|].
  exact (returned_outputs_are_model_outputs _ _ _ _ _ Hrun).
Defined.
Section RaiseFacts.
Context {vec loss_t : Type}.
Variables (self : RMT) (model : Model vec loss_t) (kwargs : gmap string (list Z)).
Implicit Types (st : State vec loss_t) (sg : Segmented) (i : Z).
Implicit Types (ids am tt : list (list Z)).
Implicit Types (segs : list (list (list Z) * list (list Z) * list (list Z))).

(** The loop raises what its first step that is not skipped raises. *)
Lemma loop_raises sg i segs st (e : PyError) :
  drop_empty_segments self = true ->
  Forall (fun seg => ~ all_empty self seg.1.1 ->
                     forall i' st', step self model kwargs sg i' seg st' = Raise e) segs ->
  Exists (fun seg => ~ all_empty self seg.1.1) segs ->
  loop self model kwargs sg i segs st = Raise e.
Proof.
  intros Hdrop Hall Hex. revert i st.
  induction Hall as [|[[ids am] tt] segs Hstep _ IH]; intros i st.
  - by inversion Hex.
  - cbn [loop]. cbn [fst snd] in *.
    destruct (decide (all_empty self ids)) as [Hids|Hids].
    + rewrite step_skip by (by try apply non_empty_all_empty).
      cbn [mbind result_bind]. apply IH.
      inversion Hex as [? ? Hhd|]; [|done]. by cbn [fst] in Hhd.
    + by rewrite Hstep.
Qed.

Lemma step_labels_mismatch sg i ids am tt st (labels : list Z) :
  drop_empty_segments self = true ->
  kwargs !! "labels" = Some labels ->
  length am = length ids -> length tt = length ids ->
  length labels <> length ids ->
  ~ all_empty self ids ->
  step self model kwargs sg i (ids, am, tt) st = Raise IndexError.
Proof.
  intros Hdrop Hlabels Ham Htt Hlen Hne. unfold step. rewrite Hdrop.
  destruct (Z.eqb_spec (count_true (non_empty self ids)) 0) as [Hz|_].
  { by apply non_empty_all_empty in Hz. }
  assert (length (non_empty self ids) = length ids) as Hmask.
  { unfold non_empty. by rewrite length_fmap. }
  unfold mask_index, getitem.
  rewrite (decide_True (P := length (non_empty self ids) = length ids)) by done.
  rewrite (decide_True (P := length (non_empty self ids) = length am)) by congruence.
  rewrite (decide_True (P := length (non_empty self ids) = length tt)) by congruence.
  cbn [mbind result_bind]. rewrite Hlabels. cbn [mbind result_bind].
  rewrite (decide_False (P := length (non_empty self ids) = length labels))
    by congruence.
  done.
Qed.

End RaiseFacts.

Lemma zip_segmented_Exists (sg : Segmented) (P : list (list Z) -> Prop) :
  length (attention_mask sg) = length (input_segments sg) ->
  length (token_type_ids sg) = length (input_segments sg) ->
  (forall ids, Decision (P ids)) ->
  ~ Forall P (input_segments sg) ->
  Exists (fun seg => ~ P seg.1.1) (zip_segmented sg).
Proof.
  intros Ham Htt Hdec Hne.
  destruct (zip_segmented_length sg Ham Htt) as [_ Hfst].
  apply not_Forall_Exists in Hne; [|done].
  rewrite <- Hfst in Hne. by rewrite !Exists_fmap in Hne.
Qed.
(** X8. With [sum_loss] set and empty segments dropped, a call on a batch
    in which every segment is the empty segment does not return: no step
    has run, and line 110 raises [RuntimeError] on the empty list of
    losses. *)
Theorem sum_of_no_losses_raises {vec loss_t} self (model : Model vec loss_t)
    (kwargs : gmap string (list Z)) (t : Tensor2) (sg : Segmented) :
  drop_empty_segments self = true ->
  sum_loss self = true ->
  pad_and_segment self t = Ok sg ->
  Forall (all_empty self) (input_segments sg) ->
  call self model kwargs t = Raise RuntimeError.
Proof.
  intros Hdrop Hsum Hsg Hall.
  destruct (loop_all_empty self model kwargs sg 0 (zip_segmented sg)
              (init self model) Hdrop)
    as (st & Hloop & Houts & _).
  { by apply (zip_segmented_Forall sg (all_empty self)). }
  unfold call, run. rewrite Hsg. cbn [mbind result_bind].
  rewrite Hloop. cbn [mbind result_bind]. unfold aggregate.
  rewrite Hsum, Houts. done.
Qed.

Lemma sum_of_no_losses_raises_witness :
  call tiny (toy_model 3) (with_labels [1]) blank_input = Raise RuntimeError.
Proof.
  eassert (pad_and_segment tiny blank_input = Ok _) as Hsg
    by (vm_compute; reflexivity).
  apply (sum_of_no_losses_raises tiny (toy_model 3) (with_labels [1]) blank_input
           _ eq_refl eq_refl Hsg).
  repeat constructor.
Defined.

(** X9. With empty segments dropped, a [labels] tensor whose length is not
    the number of rows of the batch makes the call raise [IndexError], in
    the first step that has an example with a non-empty segment. *)
Theorem labels_of_wrong_length_raise {vec loss_t} self (model : Model vec loss_t)
    (kwargs : gmap string (list Z)) (t : Tensor2) (sg : Segmented)
    (labels : list Z) :
  wf_tensor t ->
  drop_empty_segments self = true ->
  kwargs !! "labels" = Some labels ->
  length labels <> length (t_rows t) ->
  pad_and_segment self t = Ok sg ->
  ~ Forall (all_empty self) (input_segments sg) ->
  call self model kwargs t = Raise IndexError.
Proof.
  intros Hwf Hdrop Hlabels Hlen Hsg Hne.
  destruct (pad_and_segment_aligned _ _ _ Hsg)
    as (Ham & Htt & batch & Fids & Fam & Ftt).
  unfold call, run. rewrite Hsg. cbn [mbind result_bind].
  rewrite (loop_raises self model kwargs sg 0 (zip_segmented sg)
             (init self model) IndexError Hdrop); [done| |].
  - apply Forall_forall. intros [[ids am] tt] Hin Hids i st. cbn [fst] in Hids.
    rewrite Forall_forall in Fids, Fam, Ftt. unfold zip_segmented in Hin.
    pose proof (elem_of_zip_r _ _ _ _ Hin) as Hintt.
    apply elem_of_zip_l in Hin.
    pose proof (elem_of_zip_r _ _ _ _ Hin) as Hinam.
    apply elem_of_zip_l in Hin.
    apply list_elem_of_lookup in Hin as [j Hj].
    pose proof (step_tensor_rows self t sg j ids Hwf Hsg Hj) as Hbatch.
    pose proof (Fids ids (list_elem_of_lookup_2 _ _ _ Hj)) as Hb.
    eapply step_labels_mismatch; try done.
    + by rewrite (Fam _ Hinam), Hb.
    + by rewrite (Ftt _ Hintt), Hb.
    + by rewrite Hbatch.
  - apply zip_segmented_Exists; try done.
    intros ids. apply Forall_dec. intros row. apply decide_rel; apply _.
Qed.

Lemma labels_of_wrong_length_raise_witness :
  call scenario (toy_model 4) (with_labels [1; 0]) scenario_input = Raise IndexError.
Proof.
  eassert (pad_and_segment scenario scenario_input = Ok _) as Hsg
    by (vm_compute; reflexivity).
  apply (labels_of_wrong_length_raise scenario (toy_model 4) (with_labels [1; 0])
           scenario_input _ [1; 0] ltac:(repeat constructor) eq_refl eq_refl
           ltac:(discriminate) Hsg).
  intros H. inversion H as [|? ? Hfirst _]. inversion Hfirst as [|? ? Hrow _].
  discriminate Hrow.
Defined.
(** What the assignment to positions [1, 1 + m) leaves alone. *)
Lemma slot_outside {A} (e r : list A) (m : nat) (p : nat) :
  length (Py.slice (Some 1) (Some (1 + Z.of_nat m)) e) = length r ->
  let e' := Py.slice None (Some 1) e ++ r
              ++ Py.slice (Some (1 + Z.of_nat m)) None e in
  length e' = length e
  /\ (p = 0%nat \/ (1 + m <= p)%nat -> e' !! p = e !! p).
Proof.
  rewrite slice_nonneg, slice_prefix, slice_suffix by lia.
  replace (Z.to_nat (1 + Z.of_nat m - 1)) with m by lia.
  replace (Z.to_nat (1 + Z.of_nat m)) with (S m) by lia.
  change (Z.to_nat 1) with 1%nat.
  destruct e as [|x e].
  - rewrite length_take. simpl. intros Hr. destruct r; [|simpl in Hr; lia].
    split; [done|]. intros _. by destruct p.
  - cbn [take drop]. rewrite take_0, drop_0, length_take. intros Hr. cbn zeta.
    split.
    + cbn [app length]. rewrite length_app, length_drop. lia.
    + intros [->|Hp]; [done|]. destruct p as [|p]; [lia|]. cbn [app].
      change ((x :: e) !! S p) with (e !! p).
      change ((x :: (r ++ drop m e)) !! S p) with ((r ++ drop m e) !! p).
      destruct (Nat.le_gt_cases m (length e)) as [Hm|Hm].
      * rewrite lookup_app_r by lia. rewrite lookup_drop. f_equal. lia.
      * rewrite drop_ge, app_nil_r by lia.
        rewrite !lookup_ge_None_2 by lia. done.
Qed.

Lemma set_memory_slots_outside {vec} self (embeds mem emb : list (list vec)) :
  set_memory_slots self embeds mem = Ok emb ->
  Forall2 (fun e e' =>
             length e' = length e
             /\ forall p : nat, p = 0%nat \/ (1 + num_mem_tokens self <= p)%nat ->
                  e' !! p = e !! p)
          embeds emb
  /\ (num_mem_tokens self = 0%nat -> emb = embeds).
Proof.
  unfold set_memory_slots. destruct (decide _) as [[_ Hall]|]; [|done].
  intros [= <-]. induction Hall as [|e r embeds mem Hr _ [IH IH0]]; [done|].
  cbn [zip_with]. split.
  - constructor; [|exact IH]. split.
    + apply (slot_outside e r (num_mem_tokens self) 0 Hr).
    + intros p. apply (slot_outside e r (num_mem_tokens self) p Hr).
  - intros HM. rewrite IH0 by done. f_equal.
    apply list_eq. intros p.
    destruct (slot_outside e r (num_mem_tokens self) p Hr) as [_ Hp].
    apply Hp. rewrite HM. destruct p; [by left|right; lia].
Qed.

(** X10. In a step that calls the model, the input embeddings have one row
    per example that takes part, of the length of its segment, and outside
    the positions [1, 1 + M) they are the word embeddings of the tokens of
    the segment: only the memory slots are overwritten. Without memory
    slots ([M = 0], the default) the model receives the word embeddings as
    they are. *)
Theorem memory_fills_only_its_slots {vec loss_t} self (model : Model vec loss_t)
    (kwargs : gmap string (list Z)) sg (i : Z) ids am tt
    (st st1 : State vec loss_t) :
  step self model kwargs sg i (ids, am, tt) st = Ok st1 ->
  outputs st1 <> outputs st ->
  exists mi,
    last (trace st1) = Some (EvForward i mi (length (heap st)))
    /\ Forall2 (fun (tokens : list Z) e' =>
                  length e' = length tokens
                  /\ forall (p : nat) x,
                       p = 0%nat \/ (1 + num_mem_tokens self <= p)%nat ->
                       tokens !! p = Some x ->
                       e' !! p = Some (word_embeddings model x))
               (select (step_mask self ids) ids) (inputs_embeds mi)
    /\ (num_mem_tokens self = 0%nat ->
        inputs_embeds mi = embed model (select (step_mask self ids) ids)).
Proof.
  intros H Hx.
  assert (exists mi mem,
            last (trace st1) = Some (EvForward i mi (length (heap st)))
            /\ set_memory_slots self (embed model (select (step_mask self ids) ids)) mem
               = Ok (inputs_embeds mi)) as (mi & mem & Hlast & Hset).
  { unfold step_mask. destruct (drop_empty_segments self) eqn:Hdrop.
    - destruct (decide (count_true (non_empty self ids) = 0)) as [Hz|Hnz].
      { rewrite step_skip in H by done. by injection H as <-. }
      destruct (step_drop_inv _ _ _ _ _ _ _ _ _ _ Hdrop Hnz H)
        as (labels & emb & m1 & _ & _ & _ & Hemb & _ & ->).
      do 2 eexists. cbn [trace]. rewrite last_snoc. split; [done|exact Hemb].
    - destruct (step_keep_inv _ _ _ _ _ _ _ _ _ _ Hdrop H) as (emb & Hemb & ->).
      do 2 eexists. cbn [trace]. rewrite last_snoc. split; [done|].
      rewrite select_all; [exact Hemb|by rewrite length_fmap|].
      apply Forall_fmap, Forall_forall. done. }
  exists mi. split; [done|].
  destruct (set_memory_slots_outside _ _ _ _ Hset) as [Hout HM0].
  split; [|exact HM0].
  unfold embed in Hout. apply Forall2_fmap_l in Hout.
  eapply Forall2_impl; [exact Hout|]. simpl.
  intros tokens e' [Hlen Hp]. split; [by rewrite Hlen, length_fmap|].
  intros p x Hcase Htok. rewrite (Hp p Hcase), list_lookup_fmap, Htok. done.
Qed.

Lemma memory_fills_only_its_slots_witness :
  exists st1 mi,
    step tiny_no_memory (toy_model 2) (with_labels [1])
         {| input_segments := []; attention_mask := []; token_type_ids := [] |} 0
         ([[101; 102; 7; 102]], [[1; 1; 1; 1]], [[0; 0; 0; 0]])
         (init tiny_no_memory (toy_model 2)) = Ok st1
    /\ last (trace st1) = Some (EvForward 0 mi 0%nat)
    /\ inputs_embeds mi = [[101; 102; 7; 102]].
Proof.
  eassert (step tiny_no_memory (toy_model 2) (with_labels [1])
             {| input_segments := []; attention_mask := []; token_type_ids := [] |} 0
             ([[101; 102; 7; 102]], [[1; 1; 1; 1]], [[0; 0; 0; 0]])
             (init tiny_no_memory (toy_model 2)) = Ok _) as Hstep
    by (vm_compute; reflexivity).
  destruct (memory_fills_only_its_slots _ _ _ _ _ _ _ _ _ _ Hstep
              ltac:(vm_compute; discriminate))
    as (mi & Hlast & _ & HM0).
  eexists _, mi. split; [exact Hstep|]. split; [exact Hlast|].
  rewrite (HM0 eq_refl). reflexivity.
Defined.
Lemma for_each_ext_Forall2 {A B} (f : A -> result B) (l l' : list A) :
  Forall2 (fun x x' => f x = f x') l l' -> for_each f l = for_each f l'.
Proof.
  induction 1 as [|x x' l l' Hx _ IH]; [done|]. cbn [for_each]. by rewrite Hx, IH.
Qed.

(** X11. What [pad_and_segment] returns, and so what the call returns,
    depends on a row only through its tokens other than [pad_token_id], in
    their order: where the padding stands in the row, on the left, on the
    right or in between, makes no difference. *)
Theorem padding_side_is_irrelevant {vec loss_t} self (model : Model vec loss_t)
    (kwargs : gmap string (list Z)) (t t' : Tensor2) :
  t_cols t = t_cols t' ->
  Forall2 (fun row row' =>
             filter (fun x => x ≠ pad_token_id self) row
             = filter (fun x => x ≠ pad_token_id self) row')
          (t_rows t) (t_rows t') ->
  pad_and_segment self t = pad_and_segment self t'
  /\ call self model kwargs t = call self model kwargs t'.
Proof.
  intros Hcols Hrows.
  assert (pad_and_segment self t = pad_and_segment self t') as Heq.
  { unfold pad_and_segment, n_segments_of. rewrite Hcols.
    destruct (Py.ceil_div _ _) as [n|]; [|done]. cbn [mbind result_bind].
    rewrite (for_each_ext_Forall2 (augment_row self n) (t_rows t) (t_rows t')); [done|].
    eapply Forall2_impl; [exact Hrows|]. intros row row' Hf.
    unfold augment_row, row_segments, strip. by rewrite Hf. }
  split; [done|]. unfold call, run. by rewrite Heq.
Qed.

Lemma padding_side_is_irrelevant_witness :
  pad_and_segment scenario left_padded_input
  = pad_and_segment scenario right_padded_input
  /\ call scenario (toy_model 4) (with_labels [1]) left_padded_input
     = call scenario (toy_model 4) (with_labels [1]) right_padded_input.
Proof.
  apply padding_side_is_irrelevant; [reflexivity|].
  repeat constructor.
Defined.

Lemma zip_segmented_lookup (sg : Segmented) (k : nat) (ids am tt : list (list Z)) :
  zip_segmented sg !! k = Some (ids, am, tt) ->
  input_segments sg !! k = Some ids
  /\ attention_mask sg !! k = Some am
  /\ token_type_ids sg !! k = Some tt.
Proof.
  unfold zip_segmented. intros H.
  apply lookup_zip_with_Some in H as ([ids' am'] & tt' & [= -> -> ->] & H & Htt).
  apply lookup_zip_with_Some in H as (? & ? & [= <- <-] & Hids & Ham). done.
Qed.

Section KwargsFacts.
Context {vec loss_t : Type}.
Variables (self : RMT) (model : Model vec loss_t) (kwargs : gmap string (list Z)).
Implicit Types (st : State vec loss_t) (sg : Segmented) (i : Z).
Implicit Types (ids am tt : list (list Z)).
Implicit Types (segs : list (list (list Z) * list (list Z) * list (list Z))).

Lemma step_forward_origin sg i ids am tt st st1 (j : Z) mi (r : nat) :
  step self model kwargs sg i (ids, am, tt) st = Ok st1 ->
  EvForward j mi r ∈ trace st1 ->
  EvForward j mi r ∈ trace st
  \/ (j = i /\ outputs st1 <> outputs st
      /\ last (trace st1) = Some (EvForward j mi r)).
Proof.
  intros H Hin.
  destruct (step_cases _ _ _ _ _ _ _ _ _ _ H) as [(_ & _ & ->)|(mi' & m1 & _ & ->)];
    cbn [trace] in Hin.
  - left. by eapply after_detach_no_forward.
  - apply elem_of_app in Hin as [Hin|Hin].
    + left. by eapply after_detach_no_forward.
    + apply list_elem_of_singleton in Hin. injection Hin as -> -> ->.
      right. cbn [outputs trace]. rewrite last_snoc.
      split; [done|]. split; [apply snoc_neq|done].
Qed.

(** Every call of the model that a run of the loop records was made by one
    of its steps, for the segment of that index. *)
Lemma loop_forward_origin sg i segs st st' (j : Z) mi (r : nat) :
  loop self model kwargs sg i segs st = Ok st' ->
  EvForward j mi r ∈ trace st' ->
  EvForward j mi r ∈ trace st
  \/ exists ids am tt stk stk1,
       i <= j /\ segs !! Z.to_nat (j - i) = Some (ids, am, tt)
       /\ step self model kwargs sg j (ids, am, tt) stk = Ok stk1
       /\ outputs stk1 <> outputs stk
       /\ last (trace stk1) = Some (EvForward j mi r).
Proof.
  revert i st. induction segs as [|[[ids am] tt] segs IH]; intros i st H Hin.
  - injection H as <-. by left.
  - cbn [loop] in H. bind_ok H.
    destruct (IH _ _ H Hin) as [Hin'|(ids' & am' & tt' & stk & stk1 & Hle & Hk & Hrest)].
    + match goal with Hs : step _ _ _ _ _ _ _ = Ok _ |- _ =>
        destruct (step_forward_origin _ _ _ _ _ _ _ _ _ _ Hs Hin')
          as [?|(-> & Hne & Hlast)]; [by left|];
        right; exists ids, am, tt; do 2 eexists;
        rewrite Z.sub_diag; split; [lia|]; split; [done|]; split; [exact Hs|]
      end.
      by split.
    + right. exists ids', am', tt', stk, stk1. split; [lia|]. split; [|done].
      replace (Z.to_nat (j - i)) with (S (Z.to_nat (j - (i + 1)))) by lia.
      done.
Qed.

(** The keyword arguments that an executed step passes to the model. *)
Lemma step_kwargs sg i ids am tt st st1 :
  step self model kwargs sg i (ids, am, tt) st = Ok st1 ->
  outputs st1 <> outputs st ->
  exists mi,
    last (trace st1) = Some (EvForward i mi (length (heap st)))
    /\ kwargs !! "output_hidden_states" = None
    /\ (drop_empty_segments self = false -> mi_kwargs mi = other_kwargs kwargs)
    /\ (drop_empty_segments self = true ->
        exists labels,
          kwargs !! "labels" = Some labels
          /\ mi_kwargs mi
             = other_kwargs (<["labels" := select (non_empty self ids) labels]> kwargs)).
Proof.
  intros H Hx.
  pose proof (step_forward_allowed self model kwargs _ _ _ _ _ _ _ H Hx) as Hohs.
  destruct (drop_empty_segments self) eqn:Hdrop.
  - destruct (decide (count_true (non_empty self ids) = 0)) as [Hz|Hnz].
    { rewrite step_skip in H by done. by injection H as <-. }
    destruct (step_drop_inv _ _ _ _ _ _ _ _ _ _ Hdrop Hnz H)
      as (labels & emb & m1 & Hlabels & _ & _ & _ & _ & ->).
    eexists. cbn [trace]. rewrite last_snoc. split; [done|]. split; [done|].
    split; [done|]. intros _. by exists labels.
  - destruct (step_keep_inv _ _ _ _ _ _ _ _ _ _ Hdrop H) as (emb & _ & ->).
    eexists. cbn [trace]. rewrite last_snoc. split; [done|]. split; [done|].
    split; [done|]. done.
Qed.

End KwargsFacts.

(** X12. In a call that returns, every call of the model is made for a
    segment of the segmentation, and the caller passed no
    [output_hidden_states] (line 101 gives it itself). Of the caller's
    keyword arguments, those named [inputs_embeds], [attention_mask] and
    [token_type_ids] are not passed on (lines 97-99 replace them by the
    tensors of the step); [labels] is passed unchanged when empty segments
    are kept and, when they are dropped, replaced by the caller's labels
    filtered by the mask of that segment (each step filters the caller's
    labels afresh); every other argument is passed unchanged. *)
Theorem kwargs_pass_through {vec loss_t} self (model : Model vec loss_t)
    (kwargs : gmap string (list Z)) (t : Tensor2) (st : State vec loss_t) :
  run self model kwargs t = Ok st ->
  exists sg,
    pad_and_segment self t = Ok sg
    /\ forall (j : Z) mi (r : nat),
         EvForward j mi r ∈ trace st ->
         exists ids,
           0 <= j /\ input_segments sg !! Z.to_nat j = Some ids
           /\ kwargs !! "output_hidden_states" = None
           /\ (forall key : string,
                 key = "inputs_embeds" \/ key = "attention_mask"
                 \/ key = "token_type_ids" ->
                 mi_kwargs mi !! key = None)
           /\ (forall key : string,
                 key <> "inputs_embeds" -> key <> "attention_mask" ->
                 key <> "token_type_ids" -> key <> "labels" ->
                 mi_kwargs mi !! key = kwargs !! key)
           /\ (drop_empty_segments self = false ->
               mi_kwargs mi !! "labels" = kwargs !! "labels")
           /\ (drop_empty_segments self = true ->
               exists labels,
                 kwargs !! "labels" = Some labels
                 /\ mi_kwargs mi !! "labels"
                    = Some (select (non_empty self ids) labels)).
Proof.
  intros H. destruct (run_inv _ _ _ _ _ H) as (sg & st0 & Hsg & Hloop & Hagg & Hids).
  destruct (aggregate_spec self model _ _ Hagg) as (Htr & _).
  exists sg. split; [done|]. intros j mi r Hin. rewrite Htr in Hin.
  destruct (loop_forward_origin self model kwargs _ _ _ _ _ _ _ _ Hloop Hin)
    as [Hnil|(ids & am & tt & stk & stk1 & Hle & Hk & Hstep & Hne & Hlast)].
  { cbn [init trace] in Hnil. by apply elem_of_nil in Hnil. }
  rewrite Z.sub_0_r in Hk.
  apply zip_segmented_lookup in Hk as (Hj & _ & _).
  destruct (step_kwargs self model kwargs _ _ _ _ _ _ _ Hstep Hne)
    as (mi' & Hlast' & Hohs & Hkeep & Hdrop).
  rewrite Hlast in Hlast'. injection Hlast' as <- _.
  exists ids. split; [done|]. split; [done|]. split; [done|].
  assert (exists seg_kwargs,
            mi_kwargs mi = other_kwargs seg_kwargs
            /\ forall key : string, key <> "labels" ->
                 seg_kwargs !! key = kwargs !! key) as (seg_kwargs & Hmi & Hsame).
  { destruct (drop_empty_segments self).
    - destruct (Hdrop eq_refl) as (labels & _ & Hmi). eexists. split; [exact Hmi|].
      intros key Hkey. by rewrite lookup_insert_ne.
    - exists kwargs. by split; [apply Hkeep|]. }
  split; [|split; [|split]].
  - intros key Hkey. rewrite Hmi. by apply other_kwargs_written.
  - intros key H1 H2 H3 H4. rewrite Hmi, other_kwargs_lookup by done.
    by apply Hsame.
  - intros Hd. by rewrite (Hkeep Hd), other_kwargs_lookup.
  - intros Hd. destruct (Hdrop Hd) as (labels & Hlabels & ->).
    exists labels. split; [done|].
    by rewrite other_kwargs_lookup, lookup_insert_eq.
Qed.

Lemma kwargs_pass_through_witness :
  exists st mi,
    run tiny (toy_model 3)
        (<["position_ids" := [3; 4]]>
           (<["attention_mask" := [9]]> (with_labels [1; 0])))
        ragged_input = Ok st
    /\ EvForward 2 mi 0%nat ∈ trace st
    /\ mi_kwargs mi !! "labels" = Some [1]
    /\ mi_kwargs mi !! "position_ids" = Some [3; 4]
    /\ mi_kwargs mi !! "attention_mask" = None.
Proof.
  eassert (run tiny (toy_model 3)
               (<["position_ids" := [3; 4]]>
                  (<["attention_mask" := [9]]> (with_labels [1; 0])))
               ragged_input = Ok _) as Hrun
    by (vm_compute; reflexivity).
  destruct (kwargs_pass_through _ _ _ _ _ Hrun) as (sg & Hsg & Hall).
  eexists _, _. split; [exact Hrun|]. cbn [trace] in Hall |- *.
  split; [apply list_elem_of_here|].
  destruct (Hall _ _ _ (list_elem_of_here _ _))
    as (ids & _ & _ & _ & Hwritten & Hother & _ & _).
  split; [vm_compute; reflexivity|]. split.
  - rewrite Hother by done. reflexivity.
  - apply Hwritten. right. by left.
Defined.

Section AbsentFacts.
Context {vec loss_t : Type}.
Variables (self : RMT) (model : Model vec loss_t) (kwargs : gmap string (list Z)).
Implicit Types (st : State vec loss_t) (sg : Segmented) (i : Z).
Implicit Types (ids am tt : list (list Z)).
Implicit Types (segs : list (list (list Z) * list (list Z) * list (list Z))).

Lemma step_mask_length ids : length (step_mask self ids) = length ids.
Proof.
  unfold step_mask, non_empty. destruct (drop_empty_segments self);
    by rewrite length_fmap.
Qed.

Lemma step_taken sg i ids am tt st st1 (b : nat) :
  step self model kwargs sg i (ids, am, tt) st = Ok st1 ->
  step_mask self ids !! b = Some true ->
  outputs st1 <> outputs st.
Proof.
  intros H Hb.
  destruct (step_cases _ _ _ _ _ _ _ _ _ _ H) as [(Hdrop & Hall & _)|(? & ? & _ & ->)];
    [|apply snoc_neq].
  exfalso. unfold step_mask in Hb. rewrite Hdrop in Hb.
  apply non_empty_all_empty, count_true_zero in Hall.
  rewrite Forall_lookup in Hall. by specialize (Hall _ _ Hb).
Qed.

(** A step leaves the memory of an example that takes no part in it as it
    was. *)
Lemma step_absent_row sg i ids am tt st st1 (b : nat) (x : list vec) :
  step self model kwargs sg i (ids, am, tt) st = Ok st1 ->
  step_mask self ids !! b = Some false ->
  (forall n : nat, (b < n)%nat -> expand (memory st) n !! b = Some x) ->
  forall n : nat, expand (memory st1) n !! b = Some x.
Proof.
  intros H Hb Hmem n.
  assert (expand (memory st) (length ids) !! b = Some x) as Hin.
  { apply Hmem. rewrite <- step_mask_length. by eapply lookup_lt_Some. }
  destruct (decide (outputs st1 = outputs st)) as [Heq|Hne].
  - destruct (step_cases _ _ _ _ _ _ _ _ _ _ H) as [(_ & _ & ->)|(? & ? & _ & ->)].
    + done.
    + cbn [outputs] in Heq. by apply snoc_neq in Heq.
  - destruct (step_memory self model kwargs _ _ _ _ _ _ _ H Hne)
      as (mi & m1 & _ & _ & -> & _ & _ & Hkeep & _).
    cbn [expand]. by rewrite (Hkeep _ Hb).
Qed.

Lemma loop_absent_row sg i segs st st' (b : nat) (x : list vec) :
  loop self model kwargs sg i segs st = Ok st' ->
  Forall (fun seg => step_mask self seg.1.1 !! b = Some false) segs ->
  (forall n : nat, (b < n)%nat -> expand (memory st) n !! b = Some x) ->
  forall n : nat, (b < n)%nat -> expand (memory st') n !! b = Some x.
Proof.
  revert i st. induction segs as [|[[ids am] tt] segs IH]; intros i st H Hall Hmem.
  - by injection H as <-.
  - cbn [loop] in H. bind_ok H. inversion Hall as [|? ? Hb Hall']; subst.
    eapply IH; [exact H|exact Hall'|]. intros n _.
    match goal with Hs : step _ _ _ _ _ _ _ = Ok _ |- _ =>
      by eapply (step_absent_row _ _ _ _ _ _ _ _ _ Hs) end.
Qed.

End AbsentFacts.

(** X13. An example starts from the initial memory in the first step in
    which it takes part, whatever the other examples of the batch did
    before: when the example of index [b] took part in none of the steps
    run so far, a step in which it takes part passes to the model, as the
    memory of this example, the embeddings of the memory-slot ids. *)
Theorem first_participation_starts_fresh {vec loss_t} self
    (model : Model vec loss_t) (kwargs : gmap string (list Z))
    (sg : Segmented) (segs : list (list (list Z) * list (list Z) * list (list Z)))
    (i : Z) (ids am tt : list (list Z)) (st st1 : State vec loss_t) (b : nat) :
  loop self model kwargs sg 0 segs (init self model) = Ok st ->
  Forall (fun seg => step_mask self seg.1.1 !! b = Some false) segs ->
  step self model kwargs sg i (ids, am, tt) st = Ok st1 ->
  step_mask self ids !! b = Some true ->
  exists mi,
    last (trace st1) = Some (EvForward i mi (length (heap st)))
    /\ fed_memory self mi !! rank (step_mask self ids) b
       = Some (word_embeddings model <$> mem_token_ids self).
Proof.
  intros Hloop Hall H Hb.
  pose proof (step_taken self model kwargs _ _ _ _ _ _ _ _ H Hb) as Hne.
  destruct (step_memory self model kwargs _ _ _ _ _ _ _ H Hne)
    as (mi & m1 & Hlast & _ & _ & Hfed & _ & _ & _).
  exists mi. split; [exact Hlast|]. rewrite (Hfed _ Hb).
  eapply (loop_absent_row self model kwargs _ _ _ _ _ _ _ Hloop Hall).
  - intros n Hn. cbn [init memory set_memory expand]. unfold set_memory.
    cbn [expand]. by apply lookup_replicate_2.
  - rewrite <- (step_mask_length self). by eapply lookup_lt_Some.
Qed.

Lemma first_participation_starts_fresh_witness :
  exists sg ids am tt st st1 mi,
    pad_and_segment tiny ragged_input = Ok sg
    /\ zip_segmented sg !! 3%nat = Some (ids, am, tt)
    /\ (step_mask tiny <$> input_segments sg)
       = [[false; false]; [false; false]; [true; false]; [true; true]]
    /\ loop tiny (toy_model 3) (with_labels [1; 0]) sg 0
         (take 3 (zip_segmented sg)) (init tiny (toy_model 3)) = Ok st
    /\ step tiny (toy_model 3) (with_labels [1; 0]) sg 3 (ids, am, tt) st = Ok st1
    /\ last (trace st1) = Some (EvForward 3 mi 1%nat)
    /\ fed_memory tiny mi !! 1%nat = Some [1000].
Proof.
  eassert (pad_and_segment tiny ragged_input = Ok _) as Hsg
    by (vm_compute; reflexivity).
  match type of Hsg with _ = Ok ?s => set (sg := s) in * end.
  eassert (zip_segmented sg !! 3%nat = Some (_, _, _)) as Hseg
    by (vm_compute; reflexivity).
  eassert (loop tiny (toy_model 3) (with_labels [1; 0]) sg 0
             (take 3 (zip_segmented sg)) (init tiny (toy_model 3)) = Ok _) as Hloop
    by (vm_compute; reflexivity).
  match type of Hseg with _ = Some (?ids, ?am, ?tt) =>
    match type of Hloop with _ = Ok ?st =>
      eassert (step tiny (toy_model 3) (with_labels [1; 0]) sg 3 (ids, am, tt) st
               = Ok _) as Hstep by (vm_compute; reflexivity)
    end
  end.
  destruct (first_participation_starts_fresh _ _ _ _ _ _ _ _ _ _ _ 1%nat
              Hloop ltac:(repeat constructor) Hstep eq_refl)
    as (mi & Hlast & Hfed).
  eexists sg, _, _, _, _, _, mi.
  split; [exact Hsg|]. split; [exact Hseg|]. split; [reflexivity|].
  split; [exact Hloop|]. split; [exact Hstep|]. split; [exact Hlast|exact Hfed].
Defined.
Lemma select_fmap {A B} (f : A -> B) (mask : list bool) (l : list A) :
  select mask (f <$> l) = f <$> select mask l.
Proof.
  revert l. induction mask as [|m mask IH]; intros [|x l]; try done.
  cbn [fmap list_fmap select]. destruct m; cbn [fmap list_fmap]; by rewrite <- IH.
Qed.

Section InputFacts.
Context {vec loss_t : Type}.
Variables (self : RMT) (model : Model vec loss_t) (kwargs : gmap string (list Z)).
Implicit Types (st : State vec loss_t) (sg : Segmented) (i : Z).
Implicit Types (ids am tt : list (list Z)).
Implicit Types (segs : list (list (list Z) * list (list Z) * list (list Z))).

(** What an executed step passes to the model beside the embeddings. *)
Lemma step_inputs sg i ids am tt st st1 :
  step self model kwargs sg i (ids, am, tt) st = Ok st1 ->
  outputs st1 <> outputs st ->
  length am = length ids ->
  length tt = length ids ->
  let mask := step_mask self ids in
  exists mi,
    last (trace st1) = Some (EvForward i mi (length (heap st)))
    /\ mi_attention_mask mi = select mask am
    /\ mi_token_type_ids mi = select mask tt
    /\ length (inputs_embeds mi) = length (select mask ids)
    /\ (drop_empty_segments self = true -> select mask ids <> []).
Proof.
  intros H Hx Ham Htt mask. unfold mask, step_mask.
  destruct (drop_empty_segments self) eqn:Hdrop.
  - destruct (decide (count_true (non_empty self ids) = 0)) as [Hz|Hnz].
    { rewrite step_skip in H by done. by injection H as <-. }
    destruct (step_drop_inv _ _ _ _ _ _ _ _ _ _ Hdrop Hnz H)
      as (labels & emb & m1 & _ & _ & _ & Hemb & _ & ->).
    eexists. cbn [trace]. rewrite last_snoc. split; [done|].
    cbn [mi_attention_mask mi_token_type_ids inputs_embeds].
    split; [done|]. split; [done|].
    apply set_memory_slots_outside in Hemb as [Hemb _].
    apply Forall2_length in Hemb. unfold embed in Hemb.
    rewrite length_fmap in Hemb. split; [done|]. intros _ Hnil.
    apply Hnz. unfold count_true.
    rewrite <- (select_length (non_empty self ids) ids)
      by (unfold non_empty; by rewrite length_fmap).
    by rewrite Hnil.
  - destruct (step_keep_inv _ _ _ _ _ _ _ _ _ _ Hdrop H) as (emb & Hemb & ->).
    eexists. cbn [trace]. rewrite last_snoc. split; [done|].
    cbn [mi_attention_mask mi_token_type_ids inputs_embeds].
    assert (forall l : list (list Z), length l = length ids ->
              select ((fun _ => true) <$> ids) l = l) as Hsel.
    { intros l Hl. apply select_all; [by rewrite length_fmap|].
      apply Forall_fmap, Forall_forall. done. }
    rewrite !Hsel by done.
    split; [done|]. split; [done|].
    apply set_memory_slots_outside in Hemb as [Hemb _].
    apply Forall2_length in Hemb. unfold embed in Hemb.
    rewrite length_fmap in Hemb. by split.
Qed.

End InputFacts.

(** X14. In a call that returns, every call of the model is made for one
    segment and for the examples that take part in that step: the attention
    mask that the model receives has, for each of these examples, a 0
    exactly where its segment holds [pad_token_id] and a 1 elsewhere; the
    type ids are zeros of the same shape; the input embeddings have one row
    for each of these examples; and, when empty segments are dropped, the
    model is never called without an example. *)
Theorem model_inputs_aligned {vec loss_t} self (model : Model vec loss_t)
    (kwargs : gmap string (list Z)) (t : Tensor2) (st : State vec loss_t) :
  run self model kwargs t = Ok st ->
  exists sg,
    pad_and_segment self t = Ok sg
    /\ forall (j : Z) mi (r : nat),
         EvForward j mi r ∈ trace st ->
         exists ids,
           0 <= j /\ input_segments sg !! Z.to_nat j = Some ids
           /\ mi_attention_mask mi
              = (fun row : list Z => mask_bit self <$> row)
                  <$> select (step_mask self ids) ids
           /\ mi_token_type_ids mi
              = (fun row : list Z => (fun _ => 0) <$> row)
                  <$> select (step_mask self ids) ids
           /\ length (inputs_embeds mi) = length (select (step_mask self ids) ids)
           /\ (drop_empty_segments self = true ->
               select (step_mask self ids) ids <> []).
Proof.
  intros H. destruct (run_inv _ _ _ _ _ H) as (sg & st0 & Hsg & Hloop & Hagg & _).
  destruct (aggregate_spec self model _ _ Hagg) as (Htr & _).
  destruct (masks_of_segmentation self t sg Hsg) as [Hmask Htypes].
  exists sg. split; [done|]. intros j mi r Hin. rewrite Htr in Hin.
  destruct (loop_forward_origin self model kwargs _ _ _ _ _ _ _ _ Hloop Hin)
    as [Hnil|(ids & am & tt & stk & stk1 & Hle & Hk & Hstep & Hne & Hlast)].
  { cbn [init trace] in Hnil. by apply elem_of_nil in Hnil. }
  rewrite Z.sub_0_r in Hk.
  apply zip_segmented_lookup in Hk as (Hids & Ham & Htt).
  rewrite Hmask, list_lookup_fmap, Hids in Ham. injection Ham as <-.
  rewrite Htypes, list_lookup_fmap, Hids in Htt. injection Htt as <-.
  destruct (step_inputs self model kwargs _ _ _ _ _ _ _ Hstep Hne)
    as (mi' & Hlast' & Hmi_am & Hmi_tt & Hrows & Hsome);
    [by rewrite length_fmap|by rewrite length_fmap|].
  rewrite Hlast in Hlast'. injection Hlast' as <- _.
  exists ids. split; [done|]. split; [done|].
  rewrite Hmi_am, Hmi_tt, !select_fmap. done.
Qed.

Lemma model_inputs_aligned_witness :
  exists st mi,
    run tiny (toy_model 3) (with_labels [1; 0]) ragged_input = Ok st
    /\ EvForward 2 mi 0%nat ∈ trace st
    /\ mi_attention_mask mi = [[1; 1; 1; 1; 1]]
    /\ mi_token_type_ids mi = [[0; 0; 0; 0; 0]]
    /\ length (inputs_embeds mi) = 1%nat.
Proof.
  eassert (run tiny (toy_model 3) (with_labels [1; 0]) ragged_input = Ok _) as Hrun
    by (vm_compute; reflexivity).
  destruct (model_inputs_aligned _ _ _ _ _ Hrun) as (sg & Hsg & Hall).
  eexists _, _. split; [exact Hrun|]. cbn [trace] in Hall |- *.
  split; [apply list_elem_of_here|].
  destruct (Hall _ _ _ (list_elem_of_here _ _)) as (ids & _ & Hids & Ham & Htt & Hlen & _).
  assert (pad_and_segment tiny ragged_input = Ok sg -> 
          input_segments sg !! Z.to_nat 2 = Some ids ->
          ids = [[101; 1000; 102; 1; 102]; [101; 1000; 102; 102; 0]]) as Hval.
  { vm_compute. intros [= <-]. by intros [= <-]. }
  specialize (Hval Hsg Hids). subst ids.
  split; [exact Ham|]. split; [exact Htt|exact Hlen].
Defined.
Lemma Forall2_of_Forall {A B} (P : A -> Prop) (Q : B -> Prop) (R : A -> B -> Prop)
    (l : list A) (k : list B) :
  length l = length k -> Forall P l -> Forall Q k ->
  (forall x y, P x -> Q y -> R x y) -> Forall2 R l k.
Proof.
  intros Hlen HP HQ HR. apply Forall2_same_length_lookup. split; [done|].
  intros i x y Hx Hy. apply HR.
  - by eapply (proj1 (Forall_lookup P l) HP).
  - by eapply (proj1 (Forall_lookup Q k) HQ).
Qed.

Lemma select_Forall {A} (P : A -> Prop) (mask : list bool) (l : list A) :
  Forall P l -> Forall P (select mask l).
Proof.
  revert l. induction mask as [|m mask IH]; intros [|x l] H; try done.
  inversion H; subst. cbn [select]. destruct m; [constructor; [done|]|]; by apply IH.
Qed.

Lemma scatter_Forall {A} (P : A -> Prop) (mask : list bool) (t rhs : list A) :
  Forall P t -> Forall P rhs -> Forall P (scatter mask t rhs).
Proof.
  revert t rhs. induction mask as [|m mask IH]; intros [|x t] rhs Ht Hr; try done.
  - by destruct m.
  - inversion Ht; subst. destruct m; [destruct rhs as [|r rhs]|]; cbn [scatter].
    + constructor; [done|]. by apply IH.
    + inversion Hr; subst. constructor; [done|]. by apply IH.
    + constructor; [done|]. by apply IH.
Qed.

Section ReturnFacts.
Context {vec loss_t : Type}.
Variables (self : RMT) (model : Model vec loss_t) (kwargs : gmap string (list Z)).
Variable batch : nat.
Implicit Types (st : State vec loss_t) (sg : Segmented) (i : Z).
Implicit Types (ids am tt : list (list Z)).
Implicit Types (segs : list (list (list Z) * list (list Z) * list (list Z))).

Hypothesis model_shape :
  forall mi : ModelInput vec,
    Forall2 (fun e h => length h = length e)
            (inputs_embeds mi) (last_hidden_state (forward model mi)).
Hypothesis room :
  Z.of_nat (num_mem_tokens self) + 3 <= input_size self.
Hypothesis labels_given :
  drop_empty_segments self = true ->
  exists labels, kwargs !! "labels" = Some labels /\ length labels = batch.
Hypothesis allowed : kwargs !! "output_hidden_states" = None.

Lemma set_memory_slots_returns (rows : list (list Z)) (mem : list (list vec)) :
  length rows = length mem ->
  Forall (fun row => Z.of_nat (length row) = input_size self) rows ->
  Forall (fun r => length r = num_mem_tokens self) mem ->
  exists emb,
    set_memory_slots self (embed model rows) mem = Ok emb
    /\ length emb = length rows
    /\ Forall (fun e => Z.of_nat (length e) = input_size self) emb.
Proof.
  intros Hlen Hrows Hmem. unfold set_memory_slots.
  destruct (decide _) as [Hok|Hno].
  - eexists. split; [done|].
    assert (length (embed model rows) = length rows) as Hemb
      by (unfold embed; by rewrite length_fmap).
    split; [rewrite length_zip_with; lia|].
    apply Forall_forall. intros e He.
    apply list_elem_of_lookup in He as [p Hp].
    apply lookup_zip_with_Some in Hp as (e0 & r & -> & He0 & Hr).
    unfold embed in He0. rewrite list_lookup_fmap in He0.
    destruct (rows !! p) as [row|] eqn:Hrow; [|done]. injection He0 as <-.
    pose proof (proj1 (Forall_lookup _ _) Hrows _ _ Hrow) as Hl. cbn beta in Hl.
    destruct Hok as [_ Hall].
    assert (length (Py.slice (Some 1) (Some (1 + Z.of_nat (num_mem_tokens self)))
                      (word_embeddings model <$> row)) = length r) as Hslot.
    { eapply (Forall2_lookup_lr _ _ _ p _ _ Hall); [|exact Hr].
      unfold embed. by rewrite list_lookup_fmap, Hrow. }
    destruct (slot_outside (word_embeddings model <$> row) r
                (num_mem_tokens self) 0 Hslot) as [Hlen' _].
    rewrite Hlen', length_fmap. exact Hl.
  - exfalso. apply Hno. split; [unfold embed; by rewrite length_fmap|].
    unfold embed. apply Forall2_fmap_l.
    eapply Forall2_of_Forall; [done|exact Hrows|exact Hmem|].
    intros row r Hrow Hr. unfold compose. cbn beta in *. rewrite Hr.
    apply Nat2Z.inj. rewrite slice_within_length; [lia|lia|].
    rewrite length_fmap. lia.
Qed.

Lemma memory_of_shape (mi : ModelInput vec) :
  Forall (fun e => Z.of_nat (length e) = input_size self) (inputs_embeds mi) ->
  length (memory_of self (forward model mi)) = length (inputs_embeds mi)
  /\ Forall (fun r => length r = num_mem_tokens self)
            (memory_of self (forward model mi)).
Proof.
  intros Hemb. pose proof (model_shape mi) as Hshape. unfold memory_of.
  rewrite length_fmap. split; [symmetry; by eapply Forall2_length|].
  apply Forall_fmap, Forall_forall. intros h Hh. cbn.
  apply list_elem_of_lookup in Hh as [p Hp].
  destruct (Forall2_lookup_r _ _ _ _ _ Hshape Hp) as (e & He & Hhe).
  pose proof (proj1 (Forall_lookup _ _) Hemb _ _ He) as Hl. cbn beta in Hl.
  rewrite slice_prefix by lia. rewrite length_take. lia.
Qed.

Lemma step_returns sg i ids am tt st :
  length ids = batch -> length am = batch -> length tt = batch ->
  Forall (fun row => Z.of_nat (length row) = input_size self) ids ->
  length (expand (memory st) batch) = batch ->
  Forall (fun r => length r = num_mem_tokens self) (expand (memory st) batch) ->
  exists st1,
    step self model kwargs sg i (ids, am, tt) st = Ok st1
    /\ length (expand (memory st1) batch) = batch
    /\ Forall (fun r => length r = num_mem_tokens self) (expand (memory st1) batch).
Proof.
  intros Hids Ham Htt Hrows Hmem Hmrows. unfold step. rewrite Hids.
  set (mem := expand (memory st) batch) in *.
  destruct (drop_empty_segments self) eqn:Hdrop.
  - set (mask := non_empty self ids).
    assert (length mask = batch) as Hmask
      by (unfold mask, non_empty; by rewrite length_fmap).
    destruct (count_true mask =? 0); [by eexists|].
    destruct (labels_given eq_refl) as (labels & Hlabels & Hll).
    unfold mask_index, getitem. rewrite Hlabels.
    repeat (rewrite decide_True by congruence; cbn [mbind result_bind]).
    destruct (set_memory_slots_returns (select mask ids) (select mask mem))
      as (emb & -> & Hemb & Hemb_rows).
    { rewrite !select_length by congruence. done. }
    { by apply select_Forall. }
    { by apply select_Forall. }
    cbn [mbind result_bind]. unfold model_input.
    rewrite lookup_insert_ne by done. rewrite allowed. cbn [mbind result_bind].
    set (mi := {| mi_kwargs := _ |}).
    destruct (memory_of_shape mi Hemb_rows) as [Hm_len Hm_rows].
    cbn [inputs_embeds mi] in Hm_len.
    unfold mask_assign. rewrite decide_True by congruence.
    rewrite decide_True.
    + cbn [mbind result_bind]. eexists. split; [done|]. cbn [memory expand].
      rewrite scatter_length. split; [done|]. by apply scatter_Forall.
    + eapply Forall2_of_Forall; [| |exact Hm_rows|].
      * rewrite Hm_len, Hemb, !select_length by congruence. done.
      * apply select_Forall. exact Hmrows.
      * intros x r Hx Hr. cbn beta in *. congruence.
  - destruct (set_memory_slots_returns ids mem) as (emb & -> & Hemb & Hemb_rows);
      [congruence|done|done|].
    cbn [mbind result_bind]. unfold model_input. rewrite allowed.
    cbn [mbind result_bind]. set (mi := {| mi_kwargs := _ |}).
    destruct (memory_of_shape mi Hemb_rows) as [Hm_len Hm_rows].
    cbn [inputs_embeds mi] in Hm_len.
    eexists. split; [done|]. cbn [memory expand]. split; [congruence|done].
Qed.

Lemma loop_returns sg i segs st :
  Forall (fun seg =>
            length seg.1.1 = batch /\ length seg.1.2 = batch /\ length seg.2 = batch
            /\ Forall (fun row => Z.of_nat (length row) = input_size self) seg.1.1)
         segs ->
  length (expand (memory st) batch) = batch ->
  Forall (fun r => length r = num_mem_tokens self) (expand (memory st) batch) ->
  exists st', loop self model kwargs sg i segs st = Ok st'.
Proof.
  revert i st. induction segs as [|[[ids am] tt] segs IH]; intros i st Hsegs Hmem Hrows.
  - by eexists.
  - apply Forall_cons in Hsegs as [(Hids & Ham & Htt & Hlen) Hsegs'].
    cbn [fst snd] in Hids, Ham, Htt, Hlen.
    destruct (step_returns sg i ids am tt st Hids Ham Htt Hlen Hmem Hrows)
      as (st1 & Hstep & Hmem1 & Hrows1).
    cbn [loop]. rewrite Hstep. cbn [mbind result_bind]. by apply IH.
Qed.

End ReturnFacts.
Lemma for_each_returns {A B} (f : A -> result B) (l : list A) :
  Forall (fun x => exists y, f x = Ok y) l -> exists ys, for_each f l = Ok ys.
Proof.
  induction 1 as [|x l [y Hy] _ [ys IH]]; [by eexists|].
  exists (y :: ys). cbn [for_each]. by rewrite Hy, IH.
Qed.

Lemma aggregate_returns {vec loss_t} self (model : Model vec loss_t)
    (st : State vec loss_t) :
  (sum_loss self = true ->
   refs_ok st /\ heap_ok model st /\ outputs st <> []
   /\ forall mi, loss (forward model mi) <> None) ->
  exists st', aggregate self model st = Ok st'.
Proof.
  intros Hsum. unfold aggregate. destruct (sum_loss self); [|by eexists].
  destruct (Hsum eq_refl) as ([Houts Hout] & Hheap & Hne & Hloss).
  destruct (for_each_returns (loss_of (heap st)) (outputs st)) as [losses Hlosses].
  { rewrite Houts. apply Forall_forall. intros r Hr. apply elem_of_seq in Hr.
    destruct (lookup_lt_is_Some_2 (heap st) r ltac:(lia)) as [o Ho].
    unfold loss_of. rewrite Ho. unfold heap_ok in Hheap. rewrite Hheap in Ho.
    rewrite list_lookup_fmap in Ho.
    destruct (forward_inputs (trace st) !! r) as [mi|]; [|done].
    injection Ho as <-. specialize (Hloss mi).
    destruct (forward model mi) as [[l|] ?]; [by eexists|done]. }
  rewrite Hlosses. cbn [mbind result_bind].
  destruct losses as [|l losses].
  { apply for_each_Ok, Forall2_length in Hlosses.
    destruct (outputs st); [done|discriminate Hlosses]. }
  cbn [mbind result_bind]. rewrite Hout.
  destruct (outputs st) as [|r rs] using rev_ind; [done|].
  rewrite last_snoc. cbn [mbind result_bind]. by eexists.
Qed.

(** The tensors of every step have one row for each row of the batch, and
    the rows of a segment have [input_size] tokens. *)
Lemma zip_segmented_shape self (t : Tensor2) (sg : Segmented) :
  wf_tensor t ->
  pad_and_segment self t = Ok sg ->
  Forall (fun seg =>
            length seg.1.1 = length (t_rows t)
            /\ length seg.1.2 = length (t_rows t)
            /\ length seg.2 = length (t_rows t)
            /\ Forall (fun row => Z.of_nat (length row) = input_size self) seg.1.1)
         (zip_segmented sg).
Proof.
  intros Hwf Hsg.
  destruct (masks_of_segmentation self t sg Hsg) as [Hmask Htypes].
  apply Forall_lookup. intros k [[ids am] tt] Hkth.
  apply zip_segmented_lookup in Hkth as (Hids & Ham & Htt). cbn [fst snd].
  rewrite Hmask, list_lookup_fmap, Hids in Ham. injection Ham as <-.
  rewrite Htypes, list_lookup_fmap, Hids in Htt. injection Htt as <-.
  rewrite !length_fmap.
  pose proof (step_tensor_rows self t sg k ids Hwf Hsg Hids) as Hb.
  repeat split; try done.
  apply Forall_lookup. intros b row Hrow.
  destruct (segment_is_wrapped self t sg k b ids row Hwf Hsg Hids Hrow)
    as (_ & _ & c & _ & _ & _ & _ & -> & Hc).
  by apply wrap_length.
Qed.

Lemma initial_memory_shape {vec loss_t} self (model : Model vec loss_t) (batch : nat) :
  length (expand (memory (init self model)) batch) = batch
  /\ Forall (fun r : list vec => length r = num_mem_tokens self)
            (expand (memory (init self model)) batch).
Proof.
  cbn [init memory]. unfold set_memory. cbn [expand]. split.
  - by rewrite length_replicate.
  - apply Forall_replicate. by rewrite length_fmap, mem_token_ids_length.
Qed.

(** X15. The call returns. For a rectangular batch with a row and a
    column, a positive content capacity, a model whose final hidden layer
    has the shape of its input embeddings, keyword arguments without
    [output_hidden_states], labels for every example when empty segments
    are dropped, and, when the losses are summed, no dropping and a loss
    in every output of the model: no indexing, shape, key or type error
    arises in [__call__]. *)
Theorem call_returns {vec loss_t} self (model : Model vec loss_t)
    (kwargs : gmap string (list Z)) (t : Tensor2) :
  wf_tensor t ->
  0 < seg_capacity self -> t_cols t <> 0%nat -> t_rows t <> [] ->
  (forall mi : ModelInput vec,
     Forall2 (fun e h => length h = length e)
             (inputs_embeds mi) (last_hidden_state (forward model mi))) ->
  kwargs !! "output_hidden_states" = None ->
  (drop_empty_segments self = true ->
   exists labels,
     kwargs !! "labels" = Some labels /\ length labels = length (t_rows t)) ->
  (sum_loss self = true ->
   drop_empty_segments self = false
   /\ forall mi, loss (forward model mi) <> None) ->
  exists outs, call self model kwargs t = Ok outs.
Proof.
  intros Hwf Hk HW Hrows Hshape Hohs Hlabels Hsum.
  destruct (pad_and_segment_succeeds self t Hwf Hk HW Hrows) as [sg Hsg].
  pose proof (seg_capacity_le self) as Hcap.
  pose proof (zip_segmented_shape self t sg Hwf Hsg) as Hsegs.
  destruct (initial_memory_shape self model (length (t_rows t))) as [Hm0 Hr0].
  destruct (loop_returns self model kwargs (length (t_rows t)) Hshape ltac:(lia)
              Hlabels Hohs sg 0 (zip_segmented sg) (init self model) Hsegs Hm0 Hr0)
    as [st0 Hloop].
  destruct (aggregate_returns self model st0) as [st Hagg].
  { intros Hs. destruct (Hsum Hs) as [Hdrop Hloss].
    destruct (loop_trace self model kwargs _ _ _ _ _ Hloop) as (_ & Hlen & Hheap).
    split; [|split; [|split; [|done]]].
    - eapply loop_refs_ok; [exact Hloop|]. done.
    - apply Hheap. done.
    - intros Hnil. rewrite Hnil in Hlen. cbn [init outputs length] in Hlen.
      destruct (executed_steps_length self 0 ((zip_segmented sg).*1.*1)) as [_ Heq].
      rewrite (Heq Hdrop) in Hlen.
      destruct (pad_and_segment_inv self t sg Hwf Hsg) as (N & rs & HN & _ & _ & _ & Hin).
      destruct (pad_and_segment_aligned self t sg Hsg) as (Ham & Htt & _).
      destruct (zip_segmented_length sg Ham Htt) as [_ Hzl].
      rewrite Hzl, Hin, length_fmap, length_seq in Hlen. lia. }
  eexists. unfold call, run. rewrite Hsg. cbn [mbind result_bind].
  rewrite Hloop. cbn [mbind result_bind]. rewrite Hagg. done.
Qed.

Lemma call_returns_witness :
  exists outs,
    call scenario (toy_model 4) (with_labels [1]) scenario_input = Ok outs.
Proof.
  apply call_returns.
  - repeat constructor.
  - reflexivity.
  - discriminate.
  - discriminate.
  - intros mi. cbn [toy_model forward last_hidden_state].
    apply Forall2_fmap_r, Forall_Forall2_diag, Forall_forall.
    intros e _. apply length_fmap.
  - reflexivity.
  - intros _. exists [1]. split; reflexivity.
  - discriminate.
Defined.

Section RefusedFacts.
Context {vec loss_t : Type}.
Variables (self : RMT) (model : Model vec loss_t) (kwargs : gmap string (list Z)).
Variable batch : nat.
Implicit Types (st : State vec loss_t) (sg : Segmented) (i : Z).
Implicit Types (ids am tt : list (list Z)).
Implicit Types (segs : list (list (list Z) * list (list Z) * list (list Z))).

Hypothesis room :
  Z.of_nat (num_mem_tokens self) + 3 <= input_size self.
Hypothesis labels_given :
  drop_empty_segments self = true ->
  exists labels, kwargs !! "labels" = Some labels /\ length labels = batch.
Hypothesis given : is_Some (kwargs !! "output_hidden_states").

(** With [output_hidden_states] among the caller's keyword arguments, a
    step that would call the model gets as far as line 101 and raises
    there; a skipped step is not affected. *)
Lemma step_refused sg i ids am tt st :
  length ids = batch -> length am = batch -> length tt = batch ->
  Forall (fun row => Z.of_nat (length row) = input_size self) ids ->
  length (expand (memory st) batch) = batch ->
  Forall (fun r => length r = num_mem_tokens self) (expand (memory st) batch) ->
  step self model kwargs sg i (ids, am, tt) st
  = if runs_model self ids then Raise TypeError
    else Ok {| memory := Mem3 (expand (memory st) batch);
               outputs := outputs st; out := out st; heap := heap st;
               trace := after_detach self sg i st |}.
Proof.
  intros Hids Ham Htt Hrows Hmem Hmrows. unfold step, runs_model. rewrite Hids.
  set (mem := expand (memory st) batch) in *.
  destruct given as [v Hv].
  destruct (drop_empty_segments self) eqn:Hdrop.
  - set (mask := non_empty self ids).
    assert (length mask = batch) as Hmask
      by (unfold mask, non_empty; by rewrite length_fmap).
    destruct (count_true mask =? 0); [done|]. cbn [negb].
    destruct (labels_given eq_refl) as (labels & Hlabels & Hll).
    unfold mask_index, getitem. rewrite Hlabels.
    repeat (rewrite decide_True by congruence; cbn [mbind result_bind]).
    destruct (set_memory_slots_returns self model room
                (select mask ids) (select mask mem))
      as (emb & -> & _ & _).
    { rewrite !select_length by congruence. done. }
    { by apply select_Forall. }
    { by apply select_Forall. }
    cbn [mbind result_bind]. unfold model_input.
    rewrite lookup_insert_ne by done. by rewrite Hv.
  - destruct (set_memory_slots_returns self model room ids mem) as (emb & -> & _ & _);
      [congruence|done|done|].
    cbn [mbind result_bind]. unfold model_input. by rewrite Hv.
Qed.

Lemma loop_refused sg i segs st :
  Forall (fun seg =>
            length seg.1.1 = batch /\ length seg.1.2 = batch /\ length seg.2 = batch
            /\ Forall (fun row => Z.of_nat (length row) = input_size self) seg.1.1)
         segs ->
  length (expand (memory st) batch) = batch ->
  Forall (fun r => length r = num_mem_tokens self) (expand (memory st) batch) ->
  Exists (fun seg => runs_model self seg.1.1 = true) segs ->
  loop self model kwargs sg i segs st = Raise TypeError.
Proof.
  revert i st.
  induction segs as [|[[ids am] tt] segs IH]; intros i st Hsegs Hmem Hrows Hex.
  - by inversion Hex.
  - apply Forall_cons in Hsegs as [(Hids & Ham & Htt & Hlen) Hsegs'].
    cbn [fst snd] in Hids, Ham, Htt, Hlen.
    cbn [loop]. rewrite (step_refused sg i ids am tt st Hids Ham Htt Hlen Hmem Hrows).
    destruct (runs_model self ids) eqn:Hruns; [done|].
    cbn [mbind result_bind]. apply IH; try done.
    apply Exists_cons in Hex as [Hhd|Htl]; [|done].
    cbn [fst] in Hhd. congruence.
Qed.

End RefusedFacts.

(** X16. A caller's [output_hidden_states] makes the call raise
    [TypeError], whatever its value: line 101 passes [**seg_kwargs]
    together with [output_hidden_states=True]. For a rectangular batch and
    labels for every example when empty segments are dropped, the call
    raises in the first step that calls the model; there is such a step
    when empty segments are kept, or when some segment has an example that
    is not empty. *)
Theorem caller_output_hidden_states_raises {vec loss_t} self
    (model : Model vec loss_t) (kwargs : gmap string (list Z)) (t : Tensor2)
    (sg : Segmented) :
  wf_tensor t ->
  pad_and_segment self t = Ok sg ->
  is_Some (kwargs !! "output_hidden_states") ->
  (drop_empty_segments self = true ->
   exists labels,
     kwargs !! "labels" = Some labels /\ length labels = length (t_rows t)) ->
  (drop_empty_segments self = true ->
   ~ Forall (all_empty self) (input_segments sg)) ->
  call self model kwargs t = Raise TypeError.
Proof.
  intros Hwf Hsg Hohs Hlabels Hsome.
  pose proof (pad_and_segment_capacity _ _ _ Hsg) as Hk.
  pose proof (seg_capacity_le self) as Hcap.
  pose proof (zip_segmented_shape self t sg Hwf Hsg) as Hsegs.
  destruct (initial_memory_shape self model (length (t_rows t))) as [Hm0 Hr0].
  unfold call, run. rewrite Hsg. cbn [mbind result_bind].
  rewrite (loop_refused self model kwargs (length (t_rows t)) ltac:(lia) Hlabels Hohs
             sg 0 (zip_segmented sg) (init self model) Hsegs Hm0 Hr0); [done|].
  destruct (pad_and_segment_aligned self t sg Hsg) as (Ham & Htt & _).
  destruct (zip_segmented_length sg Ham Htt) as [Hzl Hfst].
  destruct (drop_empty_segments self) eqn:Hdrop.
  - specialize (Hsome eq_refl).
    apply not_Forall_Exists in Hsome;
      [|intros ids; apply Forall_dec; intros row; apply decide_rel; apply _].
    rewrite <- Hfst in Hsome. rewrite !Exists_fmap in Hsome.
    eapply Exists_impl; [exact Hsome|]. intros [[ids am] tt] Hne. cbn [fst] in *.
    unfold runs_model. rewrite Hdrop.
    apply negb_true_iff, Z.eqb_neq. intros Hz. apply Hne.
    by apply non_empty_all_empty.
  - destruct (pad_and_segment_inv self t sg Hwf Hsg) as (N & rs & HN & _ & _ & _ & Hin).
    destruct (zip_segmented sg) as [|seg segs] eqn:Ezip.
    { rewrite Hin, length_fmap, length_seq in Hzl. simpl in Hzl. lia. }
    apply Exists_cons_hd. unfold runs_model. by rewrite Hdrop.
Qed.

Lemma caller_output_hidden_states_raises_witness :
  call scenario (toy_model 4)
       (<["output_hidden_states" := [1]]> (with_labels [1])) scenario_input
  = Raise TypeError.
Proof.
  eassert (pad_and_segment scenario scenario_input = Ok _) as Hsg
    by (vm_compute; reflexivity).
  apply (caller_output_hidden_states_raises scenario (toy_model 4) _
           scenario_input _ ltac:(repeat constructor) Hsg).
  - by eexists.
  - intros _. exists [1]. split; reflexivity.
  - intros _ Hall. apply Forall_cons in Hall as [_ Hall].
    apply Forall_cons in Hall as [Hlast _].
    apply Forall_cons in Hlast as [Hrow _]. discriminate Hrow.
Defined.
